(** * microxml: the [fast_xml] reader of [src/index.mts]

    A shallow embedding of the reader: JavaScript strings are lists of UTF-16
    code units, the six sticky regular expressions are terms of a small
    regular-expression syntax run by a backtracking matcher that follows the
    ECMAScript matching order, and the three nested [while (active)] loops are
    one step function over an explicit state whose control component says
    which loop is running.  Hooks are recorded as a trace of events. *)

From Stdlib Require Import String Ascii.
From Stdlib Require Import List NArith ZArith Bool Arith Lia.
Import ListNotations.

Set Implicit Arguments.

(* ================================================================== *)
(** * Part I. Definitions                                              *)
(* ================================================================== *)

(** ** JavaScript strings *)

(** A JavaScript string is a sequence of UTF-16 code units. *)
Definition char := N.
Definition str := list char.

Definition ch (a : ascii) : char := N_of_ascii a.

(** An ASCII literal as a JavaScript string. *)
Definition js (s : string) : str := map ch (list_ascii_of_string s).

Definition c_dq : char := 34%N.   (* the double quote *)
Definition c_sq : char := 39%N.   (* the single quote *)
Definition c_tab : char := 9%N.
Definition c_lf : char := 10%N.
Definition c_cr : char := 13%N.
Definition c_sp : char := 32%N.
Definition c_lt : char := ch "<".
Definition c_gt : char := ch ">".
Definition c_amp : char := ch "&".
Definition c_semi : char := ch ";".
Definition c_slash : char := ch "/".
Definition c_bang : char := ch "!".
Definition c_quest : char := ch "?".
Definition c_lbrack : char := ch "[".
Definition c_eq : char := ch "=".
Definition c_hash : char := ch "#".
Definition c_x : char := ch "x".

Definition char_eqb (a b : char) : bool := N.eqb a b.
Arguments char_eqb : simpl never.

Fixpoint str_eqb (a b : str) : bool :=
  match a, b with
  | [], [] => true
  | x :: a', y :: b' => char_eqb x y && str_eqb a' b'
  | _, _ => false
  end.

Definition mem (c : char) (cs : list char) : bool := existsb (char_eqb c) cs.

Fixpoint take_while (p : char -> bool) (s : str) : str :=
  match s with
  | c :: s' => if p c then c :: take_while p s' else []
  | [] => []
  end.

Fixpoint drop_while (p : char -> bool) (s : str) : str :=
  match s with
  | c :: s' => if p c then drop_while p s' else s
  | [] => []
  end.

(** [strip p s]: the rest of [s] after the prefix [p], if [s] starts with it. *)
Fixpoint strip (p s : str) : option str :=
  match p, s with
  | [], _ => Some s
  | x :: p', y :: s' => if char_eqb y x then strip p' s' else None
  | _ :: _, [] => None
  end.

(** A relative index of [String.prototype.slice] and [at], resolved against
    the length: negative indices count from the end. *)
Definition rel_index (len : nat) (i : Z) : nat :=
  if (i <? 0)%Z then Z.to_nat (Z.max (Z.of_nat len + i) 0)
  else Nat.min (Z.to_nat i) len.

(** [s.slice(from, to)]. *)
Definition slice (s : str) (from to : Z) : str :=
  let a := rel_index (length s) from in
  let b := rel_index (length s) to in
  firstn (b - a) (skipn a s).

(** [s.slice(from)]. *)
Definition slice_from (s : str) (from : Z) : str :=
  skipn (rel_index (length s) from) s.

(** [s.slice(a, b)] for two cursor positions. *)
Definition substring (s : str) (a b : nat) : str :=
  slice s (Z.of_nat a) (Z.of_nat b).

(** [s[i]], with [None] for [undefined]. *)
Definition char_at (s : str) (i : nat) : option char := nth_error s i.

(** [s.at(i)], with [None] for [undefined]. *)
Definition at_ (s : str) (i : Z) : option char :=
  let k := if (i <? 0)%Z then (Z.of_nat (length s) + i)%Z else i in
  if (k <? 0)%Z then None else nth_error s (Z.to_nat k).

(** [x === c] for a possibly undefined [x]. *)
Definition is_char (x : option char) (c : char) : bool :=
  match x with Some y => char_eqb y c | None => false end.

(** The first index of [c] in [s], counted from the head. *)
Fixpoint find_char (c : char) (s : str) : option nat :=
  match s with
  | [] => None
  | x :: s' => if char_eqb x c then Some 0
               else match find_char c s' with Some i => Some (S i) | None => None end
  end.

(** [s.indexOf(c, from)], with [None] for -1. *)
Definition indexOf (s : str) (c : char) (from : nat) : option nat :=
  match find_char c (skipn from s) with
  | Some i => Some (from + i)
  | None => None
  end.

(** ** [parseInt] and [String.fromCodePoint] *)

(** White space and line terminators skipped by [parseInt]. *)
Definition StrWhiteSpaceChar (c : char) : bool :=
  mem c [9; 10; 11; 12; 13; 32; 160; 5760; 8232; 8233; 8239; 8287; 12288; 65279]%N
  || ((8192 <=? c) && (c <=? 8202))%N.

(** The value of a digit or letter taken as a digit. *)
Definition digit_value (c : char) : option N :=
  if ((48 <=? c) && (c <=? 57))%N then Some (c - 48)%N
  else if ((97 <=? c) && (c <=? 122))%N then Some (c - 87)%N
  else if ((65 <=? c) && (c <=? 90))%N then Some (c - 55)%N
  else None.

Definition is_digit (R : N) (c : char) : bool :=
  match digit_value c with Some d => (d <? R)%N | None => false end.

Definition digits_value (R : N) (ds : str) : N :=
  fold_left (fun acc c => match digit_value c with
                          | Some d => (acc * R + d)%N
                          | None => acc
                          end) ds 0%N.

(** [parseInt(string, radix)]; radix 0 stands for an absent radix, [None]
    for NaN.  The result is the exact integer, which is the result of the
    builtin as long as it is below 2^53.  Beyond, the builtin rounds to a
    double; the rounding is monotone and keeps such a value beyond 2^53, so
    that it is invisible to [expand], which compares the result with 0 and
    0x110000 and passes it on only when it lies between them.  A statement
    on the value itself holds of the builtin below 2^53 only. *)
Definition parseInt (string : str) (radix : N) : option Z :=
  let S0 := drop_while StrWhiteSpaceChar string in
  let sign := match S0 with
              | c :: _ => if char_eqb c (ch "-") then (-1)%Z else 1%Z
              | [] => 1%Z
              end in
  let S1 := match S0 with
            | c :: S' => if char_eqb c (ch "+") || char_eqb c (ch "-") then S' else S0
            | [] => S0
            end in
  if negb (N.eqb radix 0) && ((radix <? 2) || (36 <? radix))%N then None
  else
    let stripPrefix := N.eqb radix 0 || N.eqb radix 16 in
    let R0 := if N.eqb radix 0 then 10%N else radix in
    let '(R, S2) :=
      match S1 with
      | c0 :: c1 :: S' =>
          if stripPrefix && char_eqb c0 (ch "0")
             && (char_eqb c1 (ch "x") || char_eqb c1 (ch "X"))
          then (16%N, S')
          else (R0, S1)
      | _ => (R0, S1)
      end in
    match take_while (is_digit R) S2 with
    | [] => None
    | ds => Some (sign * Z.of_N (digits_value R ds))%Z
    end.

(** [String.fromCodePoint(cp)] for [0 <= cp <= 0x10FFFF]. *)
Definition fromCodePoint (cp : Z) : str :=
  let n := Z.to_N cp in
  if (n <=? 65535)%N then [n]
  else [((n - 65536) / 1024 + 55296)%N; ((n - 65536) mod 1024 + 56320)%N].

(** ** Regular expressions *)

(** The constructs the six patterns use.  [Lit []] matches the empty
    string; [Any] is [.] under the [s] flag. *)
Inductive regex : Type :=
| Lit (l : str)
| Any
| OneOf (cs : list char)
| NoneOf (cs : list char)
| Seq (a b : regex)
| Alt (a b : regex)
| Star (a : regex)
| LazyStar (a : regex).

Definition Plus (a : regex) : regex := Seq a (Star a).
Definition Opt (a : regex) : regex := Alt a (Lit []).

Declare Scope rx_scope.
Delimit Scope rx_scope with rx.
Bind Scope rx_scope with regex.
Notation "a ~> b" := (Seq a b) (at level 41, right associativity) : rx_scope.
Notation "a <|> b" := (Alt a b) (at level 51, right associativity) : rx_scope.

Definition cont := str -> option str.

(** The first choice, and the second one only when the first fails. *)
Notation "x 'orelse' y" :=
  (match x with Some r => Some r | None => y end)
  (at level 60, right associativity, only parsing).

(** One more round of a repetition continues only when the round consumed
    input (the empty check of the ECMAScript RepeatMatcher). *)
Definition progress (s : str) (k : cont) : cont :=
  fun s' => if length s' <? length s then k s' else None.

(** Greedy repetition: one more round first, then the continuation. *)
Fixpoint star_greedy (m : str -> cont -> option str) (fuel : nat)
  (s : str) (k : cont) : option str :=
  match fuel with
  | O => k s
  | S f => m s (progress s (fun s' => star_greedy m f s' k)) orelse k s
  end.

(** Lazy repetition: the continuation first, then one more round. *)
Fixpoint star_lazy (m : str -> cont -> option str) (fuel : nat)
  (s : str) (k : cont) : option str :=
  match fuel with
  | O => k s
  | S f => k s orelse m s (progress s (fun s' => star_lazy m f s' k))
  end.

(** The backtracking matcher, in continuation-passing style: [rx_match r s k]
    matches [r] at the head of [s] and hands the rest to [k]; when [k] fails
    the next choice of [r] is tried, in the order of ECMAScript. *)
Fixpoint rx_match (r : regex) (s : str) (k : cont) {struct r} : option str :=
  match r with
  | Lit l => match strip l s with Some s' => k s' | None => None end
  | Any => match s with _ :: s' => k s' | [] => None end
  | OneOf cs => match s with
                | c :: s' => if mem c cs then k s' else None
                | [] => None
                end
  | NoneOf cs => match s with
                 | c :: s' => if mem c cs then None else k s'
                 | [] => None
                 end
  | Seq a b => rx_match a s (fun s' => rx_match b s' k)
  | Alt a b => rx_match a s k orelse rx_match b s k
  | Star a => star_greedy (rx_match a) (length s) s k
  | LazyStar a => star_lazy (rx_match a) (length s) s k
  end.

(** [rx.lastIndex = lastIndex; rx.test(src)] of a sticky expression: the
    match starts exactly at [lastIndex]; the result is the new [lastIndex]
    on success and [None] on failure. *)
Definition regexp_test (rx : regex) (src : str) (lastIndex : nat) : option nat :=
  if length src <? lastIndex then None
  else match rx_match rx (skipn lastIndex src) (fun r => Some r) with
       | Some rest => Some (length src - length rest)
       | None => None
       end.

Definition ws_chars : list char := [c_sp; c_tab; c_cr; c_lf].

(** A quoted section: the quote, any characters but the quote, the quote. *)
Definition quoted (q : char) : regex := (Lit [q] ~> Star (NoneOf [q]) ~> Lit [q])%rx.

(** The prolog pattern, with Q for the double quote and q for the single one:
    [/^(?:<!(?:Q[^Q]*Q|q[^q]*q|<(?:Q[^Q]*Q|q[^q]*q|[^>]+)*>|[^<>Qq]+)*>|<!-.*?-->|<\?.*?\?>|[^<]+)*/sy].
    The anchor is void, the expression being run at index 0 only. *)
Definition PROLOG : regex :=
  Star ((Lit (js "<!")
           ~> Star (quoted c_dq
                    <|> quoted c_sq
                    <|> (Lit (js "<")
                           ~> Star (quoted c_dq <|> quoted c_sq <|> Plus (NoneOf [c_gt]))
                           ~> Lit (js ">"))
                    <|> Plus (NoneOf [c_lt; c_gt; c_dq; c_sq]))
           ~> Lit (js ">"))
        <|> (Lit (js "<!-") ~> LazyStar Any ~> Lit (js "-->"))
        <|> (Lit (js "<?") ~> LazyStar Any ~> Lit (js "?>"))
        <|> Plus (NoneOf [c_lt]))%rx.

Definition name_stop : list char := [c_slash; c_gt; c_sp; c_tab; c_cr; c_lf].

(** [/&[^;]+;|<!\[.*?\]\]>|<!-.*?-->|<\?.*?\?>|<\/?[^/> \t\r\n]+|[^<&]+/sy] *)
Definition PRIMARY : regex :=
  ((Lit (js "&") ~> Plus (NoneOf [c_semi]) ~> Lit (js ";"))
   <|> (Lit (js "<![") ~> LazyStar Any ~> Lit (js "]]>"))
   <|> (Lit (js "<!-") ~> LazyStar Any ~> Lit (js "-->"))
   <|> (Lit (js "<?") ~> LazyStar Any ~> Lit (js "?>"))
   <|> (Lit (js "<") ~> Opt (Lit (js "/")) ~> Plus (NoneOf name_stop))
   <|> Plus (NoneOf [c_lt; c_amp]))%rx.

(** [/\/?>|[ \t\r\n]+|[^=]+=[Qq]/y], with Q and q the two quotes. *)
Definition ATTLIST : regex :=
  ((Opt (Lit (js "/")) ~> Lit (js ">"))
   <|> Plus (OneOf ws_chars)
   <|> (Plus (NoneOf [c_eq]) ~> Lit (js "=") ~> OneOf [c_dq; c_sq]))%rx.

(** The three literal microsyntaxes, as the values [lit] ranges over. *)
Inductive Literal : Type := DQ_ATTR | SQ_ATTR | RX_ATTR.

(** [/&[^;]+;|Q|[^Q&]+/y], [/&[^;]+;|q|[^q&]+/y] and [/&[^;]+;|[^&]+/y],
    with Q and q the two quotes. *)
Definition literal_rx (l : Literal) : regex :=
  match l with
  | DQ_ATTR => (Lit (js "&") ~> Plus (NoneOf [c_semi]) ~> Lit (js ";"))
               <|> Lit [c_dq] <|> Plus (NoneOf [c_dq; c_amp])
  | SQ_ATTR => (Lit (js "&") ~> Plus (NoneOf [c_semi]) ~> Lit (js ";"))
               <|> Lit [c_sq] <|> Plus (NoneOf [c_sq; c_amp])
  | RX_ATTR => (Lit (js "&") ~> Plus (NoneOf [c_semi]) ~> Lit (js ";"))
               <|> Plus (NoneOf [c_amp])
  end%rx.

(** ** Maps *)

(** A JavaScript [Map] from strings to strings, in insertion order. *)
Definition Map := list (str * str).

Fixpoint map_get (m : Map) (k : str) : option str :=
  match m with
  | [] => None
  | (k', v) :: m' => if str_eqb k' k then Some v else map_get m' k
  end.

Definition map_has (m : Map) (k : str) : bool :=
  match map_get m k with Some _ => true | None => false end.

(** [m.set(k, v)]: a present key keeps its place and takes the new value, a
    new key goes last. *)
Fixpoint map_set (m : Map) (k v : str) : Map :=
  match m with
  | [] => [(k, v)]
  | (k', v') :: m' => if str_eqb k' k then (k', v) :: m' else (k', v') :: map_set m' k v
  end.

Definition PREDEFINED : Map :=
  [(js "lt", js "<"); (js "gt", js ">"); (js "amp", js "&");
   (js "apos", [c_sq]); (js "quot", [c_dq])].

(** ** The reader state *)

(** The hook calls, in the order they are made. *)
Inductive Event : Type :=
| head (h : str)
| otag (tag : str) (attrs : Map)
| ctag (tag : str)
| text_ (t : str).

(** [[src, pos, lit, end]]; [None] is [undefined]. *)
Record Frame : Type := mkFrame {
  f_src : str;
  f_pos : nat;
  f_lit : option Literal;
  f_end : option str
}.

(** Which of the nested loops is running, with the locals of the enclosing
    blocks: the top-level loop, the attributes list loop of a tag, or the
    literal loop of an attribute. *)
Inductive Loop : Type :=
| TopLevel
| AttList (tag : str) (attrs : Map)
| InLiteral (tag : str) (attrs : Map) (attr : str).

(** The variables of [fast_xml].  The arrays [stack] and [names] are lists
    with the last pushed element at the head. *)
Record State : Type := mkState {
  defs : option Map;
  src : str;
  pos : nat;
  lit : option Literal;
  end_ : option str;
  stack : list Frame;
  names : list str;
  text : str;
  active : bool;
  loop : Loop;
  trace : list Event
}.

Definition set_pos (p : nat) (s : State) : State :=
  mkState (defs s) (src s) p (lit s) (end_ s) (stack s) (names s) (text s)
          (active s) (loop s) (trace s).

Definition set_text (t : str) (s : State) : State :=
  mkState (defs s) (src s) (pos s) (lit s) (end_ s) (stack s) (names s) t
          (active s) (loop s) (trace s).

Definition set_active (a : bool) (s : State) : State :=
  mkState (defs s) (src s) (pos s) (lit s) (end_ s) (stack s) (names s) (text s)
          a (loop s) (trace s).

Definition set_loop (l : Loop) (s : State) : State :=
  mkState (defs s) (src s) (pos s) (lit s) (end_ s) (stack s) (names s) (text s)
          (active s) l (trace s).

Definition set_lit (l : option Literal) (e : option str) (s : State) : State :=
  mkState (defs s) (src s) (pos s) l e (stack s) (names s) (text s)
          (active s) (loop s) (trace s).

(** A hook call. *)
Definition emit (e : Event) (s : State) : State :=
  mkState (defs s) (src s) (pos s) (lit s) (end_ s) (stack s) (names s) (text s)
          (active s) (loop s) (trace s ++ [e]).

(** [if (text) impl.text?.(text); text = '';] *)
Definition flush (s : State) : State :=
  set_text [] (match text s with [] => s | _ :: _ => emit (text_ (text s)) s end).

(** [back]: return to the previous expansion frame.  On an empty stack
    [frame] is undefined and [frame[0]] throws ([None]). *)
Definition back (s : State) : option State :=
  match stack s with
  | [] => None
  | frame :: rest =>
      Some (mkState (defs s) (f_src frame) (f_pos frame) (f_lit frame) (f_end frame)
                    rest (tl (names s)) (text s) (active s) (loop s) (trace s))
  end.

Definition includes (l : list str) (x : str) : bool := existsb (str_eqb x) l.

Definition defs_get (s : State) (ref : str) : option str :=
  match defs s with Some m => map_get m ref | None => None end.

(** [ref[1] === 'x' ? parseInt(ref.slice(2), 16) : parseInt(ref.slice(1))] *)
Definition numeric_code (ref : str) : option Z :=
  if is_char (char_at ref 1) c_x
  then parseInt (slice_from ref 2) 16
  else parseInt (slice_from ref 1) 0.

(** [code >= 0 && code < 0x110000] *)
Definition valid_code_point (code : Z) : bool :=
  ((0 <=? code) && (code <? 1114112))%Z.

(** [expand(ref)]: a numeric, predefined or named reference. *)
Definition expand (ref : str) (s : State) : State :=
  if is_char (char_at ref 0) c_hash then
    match numeric_code ref with
    | Some code => if valid_code_point code
                   then set_text (text s ++ fromCodePoint code) s
                   else set_active false s
    | None => set_active false s
    end
  else
    match map_get PREDEFINED ref with
    | Some c => set_text (text s ++ c) s
    | None =>
        if includes (names s) ref then s
        else match defs_get s ref with
             | Some replacement =>
                 mkState (defs s) replacement 0 (Some RX_ATTR) (Some [])
                         (mkFrame (src s) (pos s) (lit s) (end_ s) :: stack s)
                         (ref :: names s) (text s) (active s) (loop s) (trace s)
             | None => s
             end
    end.

(** No match in the top-level or the literal loop: the end of a replacement
    when a frame is pending, the end of the read otherwise. *)
Definition no_match (s : State) : option State :=
  match stack s with
  | [] => Some (set_active false s)
  | _ :: _ => back s
  end.

(** One round of the top-level loop whose token is [tok], [pos] already
    moved past it. *)
Definition top_token (tok : str) (s : State) : State :=
  if is_char (char_at tok 0) c_lt then
    if is_char (char_at tok 1) c_slash then
      let s1 := flush s in
      match indexOf (src s1) c_gt (pos s1) with
      | None => set_active false s1
      | Some e => set_pos (e + 1) (emit (ctag (slice_from tok 2)) s1)
      end
    else if is_char (char_at tok 1) c_bang && is_char (char_at tok 2) c_lbrack then
      set_text (text s ++ slice tok 9 (-3)) s
    else if negb (is_char (char_at tok 1) c_bang) && negb (is_char (char_at tok 1) c_quest) then
      set_loop (AttList (slice_from tok 1) []) (flush s)
    else s
  else if is_char (char_at tok 0) c_amp then
    expand (slice tok 1 (-1)) s
  else
    set_text (text s ++ tok) s.

(** One round of the attributes list loop of [tag] whose token is [tok]. *)
Definition attlist_token (tag : str) (attrs : Map) (tok : str) (s : State) : State :=
  if str_eqb tok (js "/>") || str_eqb tok (js ">") then
    let s1 := emit (otag tag attrs) s in
    let s2 := if negb (str_eqb tok (js ">")) then emit (ctag tag) s1 else s1 in
    set_loop TopLevel s2
  else if is_char (at_ tok (-2)) c_eq then
    let attr := slice tok 0 (-2) in
    let e := at_ tok (-1) in
    let l := if is_char e c_dq then DQ_ATTR else SQ_ATTR in
    set_loop (InLiteral tag attrs attr)
             (set_lit (Some l) (match e with Some c => Some [c] | None => None end) s)
  else s.

(** [tok === end]. *)
Definition is_end (tok : str) (e : option str) : bool :=
  match e with Some d => str_eqb tok d | None => false end.

(** One round of the literal loop of attribute [attr] whose token is [tok]. *)
Definition literal_token (tag : str) (attrs : Map) (attr : str) (tok : str)
  (s : State) : State :=
  if is_end tok (end_ s) then
    set_loop (AttList tag (map_set attrs attr (text s))) (set_text [] s)
  else if is_char (char_at tok 0) c_amp then
    expand (slice tok 1 (-1)) s
  else
    set_text (text s ++ tok) s.

(** One round of the innermost running loop; [None] when the round throws
    (a [TypeError] on [undefined]). *)
Definition step (s : State) : option State :=
  match loop s with
  | TopLevel =>
      match regexp_test PRIMARY (src s) (pos s) with
      | Some p => Some (top_token (substring (src s) (pos s) p) (set_pos p s))
      | None => no_match s
      end
  | AttList tag attrs =>
      match regexp_test ATTLIST (src s) (pos s) with
      | Some p => Some (attlist_token tag attrs (substring (src s) (pos s) p) (set_pos p s))
      | None => Some (set_active false s)
      end
  | InLiteral tag attrs attr =>
      match lit s with
      | None => None
      | Some l =>
          match regexp_test (literal_rx l) (src s) (pos s) with
          | Some p =>
              Some (literal_token tag attrs attr (substring (src s) (pos s) p) (set_pos p s))
          | None => no_match s
          end
      end
  end.

(** How a read ends: the promise resolves, or rejects with the thrown
    error; [Pending] is a run cut short by its fuel. *)
Inductive Outcome : Type :=
| Resolved (s : State)
| Rejected (s : State)
| Pending (s : State).

(** The loops, run for at most [fuel] rounds. *)
Fixpoint run (fuel : nat) (s : State) : Outcome :=
  if active s then
    match fuel with
    | O => Pending s
    | S f => match step s with
             | Some s' => run f s'
             | None => Rejected s
             end
    end
  else Resolved s.

(** The prolog scan: [PROLOG.lastIndex = 0; PROLOG.test(src); pos = PROLOG.lastIndex]. *)
Definition prolog_end (source : str) : nat :=
  match regexp_test PROLOG source 0 with Some p => p | None => 0 end.

(** The state when the main loop is entered, the [head] hook called. *)
Definition start (source : str) (d : option Map) : State :=
  let p := prolog_end source in
  mkState d source p None None [] [] [] true TopLevel [head (substring source 0 p)].

Definition fast_xml_fuel (fuel : nat) (source : str) (d : option Map) : Outcome :=
  run fuel (start source d).

Definition outcome_state (o : Outcome) : State :=
  match o with Resolved s | Rejected s | Pending s => s end.

(** ** Notions the properties are stated with *)

(** A Unicode scalar value: a code point that is not a surrogate. *)
Definition is_scalar_value (code : Z) : bool :=
  (((0 <=? code) && (code <? 55296)) || ((57344 <=? code) && (code <? 1114112)))%Z.

(** The frame stack and the name stack have the same length. *)
Definition lockstep (s : State) : Prop := length (stack s) = length (names s).

(** The numeric references as the specification words them: a scalar
    value is appended, anything else ends the read. *)
Definition scalar_value_reading : Prop :=
  forall (ref : str) (s : State),
    is_char (char_at ref 0) c_hash = true ->
    match numeric_code ref with
    | Some code => if is_scalar_value code
                   then expand ref s = set_text (text s ++ fromCodePoint code) s
                   else expand ref s = set_active false s
    | None => expand ref s = set_active false s
    end.

(** Every frame does, and the current state does, satisfy: the expansion
    grammar is in force only under a pending frame. *)
Fixpoint frames_expanding (lit_now : option Literal) (frames : list Frame) : Prop :=
  match frames with
  | [] => lit_now <> Some RX_ATTR
  | f :: rest => frames_expanding (f_lit f) rest
  end.

(** A reference token [&ref;]. *)
Definition reference (ref : str) : str := c_amp :: ref ++ [c_semi].

(** The hook call of [flush], if any. *)
Definition flushed (t : str) : list Event :=
  match t with [] => [] | _ :: _ => [text_ t] end.

(** Whether an expression can match the empty string. *)
Fixpoint nullable (r : regex) : bool :=
  match r with
  | Lit l => match l with [] => true | _ :: _ => false end
  | Any | OneOf _ | NoneOf _ => false
  | Seq a b => nullable a && nullable b
  | Alt a b => nullable a || nullable b
  | Star _ | LazyStar _ => true
  end.

(** [steps n s]: the state after [n] more rounds of the loops, when all of
    them are run and none throws. *)
Fixpoint steps (n : nat) (s : State) : option State :=
  match n with
  | O => Some s
  | S n' => if active s
            then match step s with Some s' => steps n' s' | None => None end
            else None
  end.

(** The frames of the expansion grammar as the specification words them: a
    frame that is read in a literal is left, by [back], only when its text
    is exhausted. *)
Definition frames_end_at_exhaustion : Prop :=
  forall (source : str) (d : option Map) (n : nat) (s s' : State)
         (tag : str) (attrs : Map) (attr : str),
    steps n (start source d) = Some s ->
    loop s = InLiteral tag attrs attr -> lit s = Some RX_ATTR -> end_ s = Some [] ->
    step s = Some s' -> back s = Some s' ->
    length (src s) <= pos s.

Definition defs_list (d : option Map) : Map :=
  match d with Some m => m | None => [] end.

(** The longest of the document and the replacement texts. *)
Definition max_len (source : str) (d : option Map) : nat :=
  fold_right (fun kv m => Nat.max (length (snd kv)) m) (length source) (defs_list d).

(** The weight of the unread texts [rems] (the current one first, then the
    saved frames), when [d] more expansions can be nested: a text counts
    for more the deeper it lies in the stack. *)
Fixpoint texts_weight (B d : nat) (rems : list nat) : nat :=
  match rems with
  | [] => 0
  | r :: rs => (r + 1) * B ^ d + texts_weight B (S d) rs
  end.

Definition unread (s : State) : list nat :=
  (length (src s) - pos s) :: map (fun f => length (f_src f) - f_pos f) (stack s).

Definition weight (B D : nat) (s : State) : nat :=
  texts_weight B (D - length (stack s)) (unread s).

(** A number of rounds no read exceeds. *)
Definition fuel_bound (source : str) (d : option Map) : nat :=
  S ((length source + 1) * (max_len source d + 2) ^ length (defs_list d)).

(** [fast_xml(src, impl)], with [impl.defs] the table [d] and the hook
    calls recorded in the trace. *)
Definition fast_xml (source : str) (d : option Map) : Outcome :=
  fast_xml_fuel (fuel_bound source d) source d.

(** The hook calls of a read. *)
Definition hooks (source : str) (d : option Map) : list Event :=
  trace (outcome_state (fast_xml source d)).

(** *** The prolog as the specification words it *)

(** [pat] occurs in [s]. *)
Definition occurs (pat s : str) : Prop := exists a b, s = a ++ pat ++ b.

(** A quoted section: a quote, characters other than it, the same quote. *)
Inductive quoted_section : str -> Prop :=
| quoted_with (q : char) (body : str) :
    q = c_dq \/ q = c_sq -> ~ In q body -> quoted_section (q :: body ++ [q]).

(** What stands between the angles of an internal bracket. *)
Inductive bracket_items : str -> Prop :=
| bracket_done : bracket_items []
| bracket_quoted (x rest : str) :
    quoted_section x -> bracket_items rest -> bracket_items (x ++ rest)
| bracket_plain (x rest : str) :
    x <> [] -> ~ In c_gt x -> bracket_items rest -> bracket_items (x ++ rest).

(** What stands inside a declaration: quoted sections, balanced internal
    brackets and runs of other characters. *)
Inductive declaration_items : str -> Prop :=
| decl_done : declaration_items []
| decl_quoted (x rest : str) :
    quoted_section x -> declaration_items rest -> declaration_items (x ++ rest)
| decl_bracket (x rest : str) :
    bracket_items x -> declaration_items rest ->
    declaration_items (c_lt :: x ++ c_gt :: rest)
| decl_plain (x rest : str) :
    x <> [] -> (forall c, In c x -> mem c [c_lt; c_gt; c_dq; c_sq] = false) ->
    declaration_items rest -> declaration_items (x ++ rest).

(** Ignorable content: a doctype-like bracketed declaration, a comment, a
    processing instruction, or a run of characters other than the left
    angle. *)
Inductive ignorable : str -> Prop :=
| ignorable_declaration (items : str) :
    declaration_items items -> ignorable (js "<!" ++ items ++ js ">")
| ignorable_comment (body : str) :
    ~ occurs (js "-->") body -> ignorable (js "<!--" ++ body ++ js "-->")
| ignorable_instruction (body : str) :
    ~ occurs (js "?>") body -> ignorable (js "<?" ++ body ++ js "?>")
| ignorable_run (x : str) :
    x <> [] -> ~ In c_lt x -> ignorable x.

(** Any number of ignorable contents in a row. *)
Inductive ignorables : str -> Prop :=
| ignorables_nil : ignorables []
| ignorables_app (x rest : str) :
    ignorable x -> ignorables rest -> ignorables (x ++ rest).

(** [h] is the longest prefix of [source] made of ignorable content. *)
Definition longest_ignorable_prefix (source h : str) : Prop :=
  (exists rest, source = h ++ rest) /\ ignorables h
  /\ forall h' rest', source = h' ++ rest' -> ignorables h' -> length h' <= length h.

Definition is_head (e : Event) : bool :=
  match e with head _ => true | _ => false end.

Definition is_text (e : Event) : bool :=
  match e with text_ _ => true | _ => false end.

Definition nonempty_text (e : Event) : bool :=
  match e with text_ [] => false | _ => true end.

(** No text call with the empty string and no two text calls in a row. *)
Fixpoint texts_apart (evs : list Event) : bool :=
  match evs with
  | [] => true
  | e :: rest =>
      nonempty_text e
      && negb (is_text e && match rest with e' :: _ => is_text e' | [] => false end)
      && texts_apart rest
  end.

Fixpoint ends_with_text (evs : list Event) : bool :=
  match evs with
  | [] => false
  | [e] => is_text e
  | _ :: rest => ends_with_text rest
  end.

(** [pat] occurs in [s], decided. *)
Fixpoint has_sub (pat s : str) : bool :=
  match strip pat s with
  | Some _ => true
  | None => match s with [] => false | _ :: s' => has_sub pat s' end
  end.

(** The calls made so far: [head] first and only once, the text calls
    non-empty and apart, and a text call last only when the read has ended
    or a tag is being read. *)
Definition hooks_in_order (h : str) (s : State) : Prop :=
  hd_error (trace s) = Some (head h)
  /\ filter is_head (trace s) = [head h]
  /\ texts_apart (trace s) = true
  /\ (ends_with_text (trace s) = true -> active s = false \/ loop s <> TopLevel).

Definition keys (m : Map) : list str := map fst m.

(** The recursion guard: the pending names are distinct keys of the table,
    one for each frame. *)
Definition guarded (d : option Map) (s : State) : Prop :=
  defs s = d /\ NoDup (names s) /\ incl (names s) (keys (defs_list d)) /\ lockstep s.

(** ** Documents as trees

    Well-formed input, as the reader takes it: what the printer below writes
    for a tree whose names, values and texts pass the checks that follow. *)

(** An attribute: the white space before it, its name, its quote and its
    value. *)
Record Attr : Type := mkAttr {
  a_space : str;
  a_name : str;
  a_quote : char;
  a_value : str
}.

(** Text, a CDATA section, a comment, a processing instruction, an element
    (with the white space before the right angle of its start tag, and
    what stands between the name and the right angle of its end tag) or a
    void element. *)
#[warnings="-register-all"]
Inductive Node : Type :=
| Chars (t : str)
| CData (t : str)
| Comment (t : str)
| Instruction (t : str)
| Element (tag : str) (attrs : list Attr) (space : str) (children : list Node)
          (closing : str)
| Void (tag : str) (attrs : list Attr) (space : str).

Definition print_attr (a : Attr) : str :=
  a_space a ++ a_name a ++ c_eq :: a_quote a :: a_value a ++ [a_quote a].

Definition print_attrs (l : list Attr) : str := flat_map print_attr l.

Fixpoint print (n : Node) : str :=
  match n with
  | Chars t => t
  | CData t => js "<![CDATA[" ++ t ++ js "]]>"
  | Comment t => js "<!--" ++ t ++ js "-->"
  | Instruction t => js "<?" ++ t ++ js "?>"
  | Element tag attrs space children closing =>
      c_lt :: tag ++ print_attrs attrs ++ space ++ c_gt
        :: flat_map print children ++ c_lt :: c_slash :: tag ++ closing ++ [c_gt]
  | Void tag attrs space =>
      c_lt :: tag ++ print_attrs attrs ++ space ++ [c_slash; c_gt]
  end.

Definition print_all (l : list Node) : str := flat_map print l.

Definition is_nil (s : str) : bool :=
  match s with [] => true | _ :: _ => false end.

Definition none_of (cs : list char) (s : str) : bool :=
  forallb (fun c => negb (mem c cs)) s.

Definition all_of (cs : list char) (s : str) : bool :=
  forallb (fun c => mem c cs) s.

(** Whether [s] is empty or starts with a character of [cs]. *)
Definition stops_at (cs : list char) (s : str) : bool :=
  match s with [] => true | c :: _ => mem c cs end.

(** Whether [s] starts with a character of [cs]. *)
Definition starts_in (cs : list char) (s : str) : bool :=
  match s with [] => false | c :: _ => mem c cs end.

(** Whether [pat] occurs in [body ++ pat] at the end only. *)
Definition ends_first (pat body : str) : bool :=
  forallb (fun i => match strip pat (skipn i (body ++ pat)) with
                    | Some _ => false
                    | None => true
                    end)
          (seq 0 (length body)).

(** A tag name: not empty, free of the characters that end a name, and not
    starting like a declaration or an instruction. *)
Definition name_ok (tag : str) : bool :=
  negb (is_nil tag) && none_of name_stop tag
  && negb (stops_at [c_bang; c_quest] tag).

(** An attribute name: not empty, without equals sign, and starting with
    no white space, slash or right angle. *)
Definition attr_name_ok (nm : str) : bool :=
  negb (is_nil nm) && none_of [c_eq] nm
  && negb (stops_at (c_slash :: c_gt :: ws_chars) nm).

Definition attr_ok (a : Attr) : bool :=
  negb (is_nil (a_space a)) && all_of ws_chars (a_space a)
  && attr_name_ok (a_name a)
  && mem (a_quote a) [c_dq; c_sq]
  && none_of [a_quote a; c_amp] (a_value a).

Definition is_chars (n : Node) : bool :=
  match n with Chars _ => true | _ => false end.

(** No two text nodes in a row. *)
Fixpoint chars_apart (l : list Node) : bool :=
  match l with
  | [] => true
  | n :: rest =>
      negb (is_chars n && match rest with m :: _ => is_chars m | [] => false end)
      && chars_apart rest
  end.

Definition c_dash : char := ch "-".

Fixpoint node_ok (n : Node) : bool :=
  match n with
  | Chars t => negb (is_nil t) && none_of [c_lt; c_amp] t
  | CData t => ends_first (js "]]>") t
  | Comment t => ends_first (js "-->") (c_dash :: t)
  | Instruction t => ends_first (js "?>") t
  | Element tag attrs space children closing =>
      name_ok tag && forallb attr_ok attrs && all_of ws_chars space
      && forallb node_ok children && chars_apart children
      && none_of [c_gt] closing && stops_at name_stop closing
  | Void tag attrs space =>
      name_ok tag && forallb attr_ok attrs && all_of ws_chars space
  end.

Definition nodes_ok (l : list Node) : bool := forallb node_ok l && chars_apart l.

(** The attributes map of a start tag. *)
Definition attrs_map (l : list Attr) (m : Map) : Map :=
  fold_left (fun m a => map_set m (a_name a) (a_value a)) l m.

(** The calls a node stands for, and the text left pending after it, when
    [acc] is the text pending before it. *)
Fixpoint events (n : Node) (acc : str) : list Event * str :=
  match n with
  | Chars t | CData t => ([], acc ++ t)
  | Comment _ | Instruction _ => ([], acc)
  | Element tag attrs _ children _ =>
      let inner :=
        fold_left (fun r c => let r' := events c (snd r) in (fst r ++ fst r', snd r'))
                  children ([], []) in
      (flushed acc ++ otag tag (attrs_map attrs []) :: fst inner
         ++ flushed (snd inner) ++ [ctag tag], [])
  | Void tag attrs _ =>
      (flushed acc ++ [otag tag (attrs_map attrs []); ctag tag], [])
  end.

Definition events_all (l : list Node) (acc : str) : list Event * str :=
  fold_left (fun r c => let r' := events c (snd r) in (fst r ++ fst r', snd r'))
            l ([], acc).

(** The calls of the tag hooks are well nested under the open tags [open]:
    every [ctag] names the last opened tag that is not closed yet. *)
Fixpoint well_nested (evs : list Event) (open : list str) : bool :=
  match evs with
  | [] => match open with [] => true | _ :: _ => false end
  | otag t _ :: rest => well_nested rest (t :: open)
  | ctag t :: rest =>
      match open with
      | t' :: open' => str_eqb t t' && well_nested rest open'
      | [] => false
      end
  | _ :: rest => well_nested rest open
  end.

(** The size of a tree, for inductions. *)
Fixpoint size (n : Node) : nat :=
  match n with
  | Element _ _ _ children _ => S (fold_right (fun c k => size c + k) 0 children)
  | _ => 1
  end.

Definition size_all (l : list Node) : nat := fold_right (fun c k => size c + k) 0 l.

(** The literal microsyntax of a quote. *)
Definition literal_of (q : char) : Literal :=
  if char_eqb q c_dq then DQ_ATTR else SQ_ATTR.

(** What is still to read of the current text. *)
Definition ahead (s : State) : str := skipn (pos s) (src s).

(** [s'] reads the same text as [s], with [rest] left to read, under the
    same frames. *)
Definition moves (s s' : State) (rest : str) : Prop :=
  src s' = src s /\ ahead s' = rest /\ defs s' = defs s /\ stack s' = stack s
  /\ names s' = names s /\ active s' = active s.

(** [s'] is reached from [s] by some rounds of the loops. *)
Definition reads (s s' : State) : Prop := exists n, steps n s = Some s'.

Definition is_tag (n : Node) : bool :=
  match n with Element _ _ _ _ _ | Void _ _ _ => true | _ => false end.

(** The document starts with a tag. *)
Definition starts_with_tag (l : list Node) : bool :=
  match l with n :: _ => is_tag n | [] => false end.

(** The text a node adds to the pending text. *)
Definition content (n : Node) : str :=
  match n with Chars t | CData t => t | _ => [] end.

Definition contents (l : list Node) : str := flat_map content l.

(** A run: text, CDATA sections, comments and processing instructions only. *)
Definition is_run (l : list Node) : bool := forallb (fun n => negb (is_tag n)) l.

(** The merged text as the specification words it: every run between two
    tag boundaries or ends of the document gets its text call. *)
Definition every_run_delivered : Prop :=
  forall (before l after : list Node) (d : option Map),
    nodes_ok (before ++ l ++ after) = true -> starts_with_tag before = true ->
    is_run l = true -> contents l <> [] ->
    (exists b n, before = b ++ [n] /\ is_tag n = true) ->
    starts_with_tag after = true \/ after = [] ->
    In (text_ (contents l)) (hooks (print_all (before ++ l ++ after)) d).

(** [ks] with [k] put last when it is new. *)
Definition add_key (ks : list str) (k : str) : list str :=
  if includes ks k then ks else ks ++ [k].

(** The names of a list in the order of their first occurrences. *)
Fixpoint first_names (l : list str) : list str :=
  match l with
  | [] => []
  | x :: rest => x :: filter (fun y => negb (str_eqb y x)) (first_names rest)
  end.

(** ** Notions of the further properties *)

(** After an ampersand, [xs] completes no reference token: it is empty,
    starts with the semicolon, or holds no semicolon at all. *)
Definition dangling (xs : str) : bool :=
  stops_at [c_semi] xs || none_of [c_semi] xs.

(** The reference alternative of the four microsyntaxes. *)
Definition reference_rx : regex :=
  (Lit (js "&") ~> Plus (NoneOf [c_semi]) ~> Lit (js ";"))%rx.

(** The delimiter of the literal being read is one character, or empty, or
    not set. *)
Definition short_end (s : State) : bool :=
  match end_ s with Some e => length e <=? 1 | None => true end.

(** After an attribute name, [rest] gives it no value: the text ends, or
    an equals sign comes that no quote follows. *)
Definition no_value (rest : str) : bool :=
  match rest with
  | [] => true
  | c :: r => char_eqb c c_eq && negb (starts_in [c_dq; c_sq] r)
  end.

(** The cursor of the text being read and the saved cursors lie within
    their texts. *)
Definition in_bounds (s : State) : Prop :=
  pos s <= length (src s)
  /\ Forall (fun f => f_pos f <= length (f_src f)) (stack s).

(** No replacement text of the table holds a left angle. *)
Definition markup_free (d : option Map) : bool :=
  forallb (fun kv => none_of [c_lt] (snd kv)) (defs_list d).

(** Under frames pushed at top level: the text being read and the saved
    ones, the document apart, are replacement texts without a left angle. *)
Fixpoint frames_top (cur : str) (frames : list Frame) : Prop :=
  match frames with
  | [] => True
  | f :: fs => none_of [c_lt] cur = true /\ frames_top (f_src f) fs
  end.

(** Under frames pushed in a literal: every literal microsyntax is set, and
    the delimiter is empty wherever a frame is pending. *)
Fixpoint frames_lit (cur_lit : option Literal) (cur_end : option str)
  (frames : list Frame) : Prop :=
  cur_lit <> None
  /\ match frames with
     | [] => True
     | f :: fs => cur_end = Some [] /\ frames_lit (f_lit f) (f_end f) fs
     end.

(** The state of a read under a table without markup. *)
Definition unbroken (d : option Map) (s : State) : Prop :=
  defs s = d
  /\ match loop s with
     | TopLevel => frames_top (src s) (stack s)
     | AttList _ _ => stack s = []
     | InLiteral _ _ _ => frames_lit (lit s) (end_ s) (stack s)
     end.

(** What a doctype-like declaration of the prolog repeats. *)
Definition decl_part : regex :=
  (quoted c_dq
   <|> quoted c_sq
   <|> (Lit (js "<")
          ~> Star (quoted c_dq <|> quoted c_sq <|> Plus (NoneOf [c_gt]))
          ~> Lit (js ">"))
   <|> Plus (NoneOf [c_lt; c_gt; c_dq; c_sq]))%rx.

(** What the prolog pattern repeats. *)
Definition prolog_item : regex :=
  ((Lit (js "<!") ~> Star decl_part ~> Lit (js ">"))
   <|> (Lit (js "<!-") ~> LazyStar Any ~> Lit (js "-->"))
   <|> (Lit (js "<?") ~> LazyStar Any ~> Lit (js "?>"))
   <|> Plus (NoneOf [c_lt]))%rx.

(** The parts of the body of a declaration: text without angle and quote,
    a quoted section, and a nested declaration [<...>] whose body holds no
    right angle and does not start with a quote. *)
Inductive DeclPart : Type :=
| Bare (t : str)
| Quoted (q : char) (t : str)
| Nested (t : str).

Definition print_part (p : DeclPart) : str :=
  match p with
  | Bare t => t
  | Quoted q t => q :: t ++ [q]
  | Nested t => c_lt :: t ++ [c_gt]
  end.

Definition print_parts (l : list DeclPart) : str := flat_map print_part l.

Definition part_ok (p : DeclPart) : bool :=
  match p with
  | Bare t => negb (is_nil t) && none_of [c_lt; c_gt; c_dq; c_sq] t
  | Quoted q t => mem q [c_dq; c_sq] && none_of [q] t
  | Nested t => none_of [c_gt] t && negb (starts_in [c_dq; c_sq] t)
  end.

Definition is_bare (p : DeclPart) : bool :=
  match p with Bare _ => true | _ => false end.

(** No two bare texts in a row. *)
Fixpoint bare_apart (l : list DeclPart) : bool :=
  match l with
  | [] => true
  | p :: rest =>
      negb (is_bare p && match rest with q :: _ => is_bare q | [] => false end)
      && bare_apart rest
  end.

Definition parts_ok (l : list DeclPart) : bool := forallb part_ok l && bare_apart l.

(** The parts of a usual prolog: text without left angle (white space, a
    byte order mark), a processing instruction (the XML declaration), and a
    declaration [<!...>] (a document type declaration, a comment) whose body
    is made of the parts above. *)
Inductive Item : Type :=
| Blank (t : str)
| Pi (t : str)
| Decl (parts : list DeclPart).

Definition print_item (i : Item) : str :=
  match i with
  | Blank t => t
  | Pi t => js "<?" ++ t ++ js "?>"
  | Decl parts => js "<!" ++ print_parts parts ++ js ">"
  end.

Definition print_items (l : list Item) : str := flat_map print_item l.

Definition item_ok (i : Item) : bool :=
  match i with
  | Blank t => negb (is_nil t) && none_of [c_lt] t
  | Pi t => ends_first (js "?>") t
  | Decl parts => parts_ok parts
  end.

Definition is_blank (i : Item) : bool :=
  match i with Blank _ => true | _ => false end.

(** No two texts in a row. *)
Fixpoint blanks_apart (l : list Item) : bool :=
  match l with
  | [] => true
  | i :: rest =>
      negb (is_blank i && match rest with j :: _ => is_blank j | [] => false end)
      && blanks_apart rest
  end.

Definition items_ok (l : list Item) : bool := forallb item_ok l && blanks_apart l.

(** Where the prolog scan stops: at the end of the document, or at a left
    angle that starts neither a declaration nor a processing instruction. *)
Definition prolog_stop (s : str) : bool :=
  match s with
  | [] => true
  | c :: r => char_eqb c c_lt && negb (starts_in [c_bang; c_quest] r)
  end.

(** The text a numeric or predefined reference stands for. *)
Definition char_ref_value (ref : str) : option str :=
  if is_char (char_at ref 0) c_hash then
    match numeric_code ref with
    | Some code => if valid_code_point code then Some (fromCodePoint code) else None
    | None => None
    end
  else map_get PREDEFINED ref.

(** A piece of character data: plain text or a reference [&ref;]. *)
Inductive Piece : Type :=
| Plain (t : str)
| Ref (ref : str).

Definition print_piece (p : Piece) : str :=
  match p with Plain t => t | Ref ref => reference ref end.

Definition print_pieces (l : list Piece) : str := flat_map print_piece l.

(** The text a piece stands for. *)
Definition decode_piece (p : Piece) : str :=
  match p with
  | Plain t => t
  | Ref ref => match char_ref_value ref with Some v => v | None => [] end
  end.

Definition decode (l : list Piece) : str := flat_map decode_piece l.

(** A piece of character data where the characters of [stop] end the plain
    text: non-empty plain text without them, or a numeric or predefined
    reference with a value. *)
Definition piece_ok (stop : list char) (p : Piece) : bool :=
  match p with
  | Plain t => negb (is_nil t) && none_of stop t
  | Ref ref => negb (is_nil ref) && none_of [c_semi] ref
               && match char_ref_value ref with Some _ => true | None => false end
  end.

Definition is_plain (p : Piece) : bool :=
  match p with Plain _ => true | Ref _ => false end.

(** No two plain texts in a row. *)
Fixpoint plain_apart (l : list Piece) : bool :=
  match l with
  | [] => true
  | p :: rest =>
      negb (is_plain p && match rest with q :: _ => is_plain q | [] => false end)
      && plain_apart rest
  end.

Definition pieces_ok (stop : list char) (l : list Piece) : bool :=
  forallb (piece_ok stop) l && plain_apart l.

(** [junk] does not go on with a digit of radix [R]. *)
Definition no_digit (R : N) (junk : str) : bool :=
  match junk with [] => true | c :: _ => negb (is_digit R c) end.

(** [s] starts with the hexadecimal marker of [parseInt], 0x or 0X. *)
Definition hex_marked (s : str) : bool :=
  match s with
  | c0 :: c1 :: _ => char_eqb c0 (ch "0") && (char_eqb c1 (ch "x") || char_eqb c1 (ch "X"))
  | _ => false
  end.

(** After a left angle, [r] gives no name: it is empty or starts with white
    space or a right angle, or with a slash that no name follows. *)
Definition nameless (r : str) : bool :=
  match r with
  | [] => true
  | c :: r' => mem c [c_gt; c_sp; c_tab; c_cr; c_lf]
               || (char_eqb c c_slash && stops_at name_stop r')
  end.

(** The state with the table taken away. *)
Definition without_defs (s : State) : State :=
  mkState None (src s) (pos s) (lit s) (end_ s) (stack s) (names s) (text s)
          (active s) (loop s) (trace s).

Definition outcome_map (f : State -> State) (o : Outcome) : Outcome :=
  match o with
  | Resolved s => Resolved (f s)
  | Rejected s => Rejected (f s)
  | Pending s => Pending (f s)
  end.

(** The text being read holds no ampersand and no frame is pending. *)
Definition amp_free (s : State) : Prop :=
  none_of [c_amp] (src s) = true /\ stack s = [].

(** ** Example inputs *)

Definition end_tag_example : State := start (js "</a  x>y") None.

(** The document and the table of the reparsing test. *)
Definition doc_reparse : str :=
  js "<a a=" ++ c_dq :: js "[&b;]" ++ c_dq :: js ">[&b;]</a>".

Definition defs_reparse : Map :=
  [(js "b", c_dq :: js "&c;" ++ [c_dq]);
   (js "c", js "(<d e=" ++ c_dq :: js "f" ++ c_dq :: js "/>)")].

(** The same document with the replacement text written in place of the
    top-level reference. *)
Definition doc_inline : str :=
  js "<a a=" ++ c_dq :: js "[&b;]" ++ c_dq :: js ">["
     ++ c_dq :: js "(<d e=" ++ c_dq :: js "f" ++ c_dq :: js "/>)" ++ c_dq :: js "]</a>".

(** The reparsing test five rounds in: the reference in the attribute
    value has just been expanded. *)
Definition in_expansion : State :=
  match steps 5 (start doc_reparse (Some defs_reparse)) with
  | Some s => s
  | None => start [] None
  end.

(** Two entities that refer to each other, and the read four rounds in:
    both are being expanded. *)
Definition doc_cycle : str := js "<r>&a;</r>".

Definition defs_cycle : Map := [(js "a", js "x&b;y"); (js "b", js "&a;")].

Definition in_cycle : State :=
  match steps 5 (start doc_cycle (Some defs_cycle)) with
  | Some s => s
  | None => start [] None
  end.

(** A replacement text with an ampersand that starts no reference, referred
    to in an attribute value, and the read five rounds in: the text before
    the ampersand has been read. *)
Definition doc_ampersand : str := js "<a b='&e;'/>".

Definition defs_ampersand : Map := [(js "e", js "x & y")].

Definition at_ampersand : State :=
  match steps 5 (start doc_ampersand (Some defs_ampersand)) with
  | Some s => s
  | None => start [] None
  end.

(** A prolog comment with a right angle and, further on, markup in it. *)
Definition doc_comment : str := js "<!-- > <b> --><a/>".

(** A start tag with an attribute given twice, and the state that reads it. *)
Definition attrs_twice : list Attr :=
  [mkAttr (js " ") (js "x") c_sq (js "1");
   mkAttr (js " ") (js "y") c_dq (js "2");
   mkAttr [c_lf] (js "x") c_sq (js "3")].

Definition doc_twice : str := print (Element (js "a") attrs_twice (js " ") [] []).

(** A small document: an element with an attribute, text, a comment, a
    CDATA section and a void child. *)
Definition doc_small : list Node :=
  [Element (js "a") [mkAttr (js " ") (js "k") c_dq (js "v")] []
     [Chars (js "t"); Comment (js " c "); CData (js "<&>");
      Void (js "b") [] (js " "); Instruction (js "pi")]
     (js " ")].

(** The run of the example of the text hook, and the state that is about
    to read it. *)
Definition run_merged : list Node :=
  [Chars (js "b"); Comment (js "x"); Chars (js "c"); Instruction (js "y");
   Chars (js "d"); CData (js "e"); Chars (js "f")].

Definition doc_merged : str := js "<a>b<!--x-->c<?y?>d<![CDATA[e]]>f</a>".

Definition after_open : State :=
  match steps 2 (start doc_merged None) with
  | Some s => s
  | None => start [] None
  end.

(** *** Inputs of the further properties *)

(** The state [n] rounds into the read of [source] under the table [d]. *)
Definition after (n : nat) (source : str) (d : option Map) : State :=
  match steps n (start source d) with
  | Some s => s
  | None => start [] None
  end.

(** Before a reference to a name that nothing defines. *)
Definition at_unknown : State := after 2 (js "<a>&nbsp;</a>") None.

(** Before a predefined reference, under a table that binds its name. *)
Definition at_predefined : State :=
  after 2 (js "<a>&amp;</a>") (Some [(js "amp", js "X")]).

(** Before an ampersand that no semicolon follows. *)
Definition at_dangling : State := after 3 (js "<a>x & y</a>") None.

(** Before a reference to plain text. *)
Definition at_plain : State := after 2 (js "<a>&e;</a>") (Some [(js "e", js "xy")]).

(** A replacement text with markup and both quotes, and the state before
    the reference to it in an attribute value. *)
Definition value_markup : str := c_lt :: c_dq :: js "'>".

Definition at_value : State :=
  after 3 (js "<a b='&e;'>") (Some [(js "e", value_markup)]).

(** In the attribute list, before an attribute whose value has no quote. *)
Definition at_unquoted : State := after 2 (js "<a b=c>") None.

(** After a tag name that ends the document. *)
Definition at_open_end : State := after 1 (js "<a") None.

(** A replacement text that stops inside an attribute value, and the state
    before the reference to it. *)
Definition defs_cut : Map := [(js "x", js "<d e=" ++ c_dq :: js "f")].

Definition at_cut : State := after 2 (js "<a>&x;</a>") (Some defs_cut).

(** A table without markup, with a reference in a replacement text. *)
Definition doc_values : str := js "<a b='&e;'>&e;</a>".

Definition defs_values : Map := [(js "e", js "x&f;y"); (js "f", js "z")].

(** A usual prolog: a byte order mark, the XML declaration, a document
    type declaration with a system identifier and an entity declaration,
    and a comment, each on its line. *)
Definition prolog_usual : list Item :=
  [Blank [65279%N]; Pi (js "xml version='1.0'"); Blank [c_lf];
   Decl [Bare (js "DOCTYPE a SYSTEM "); Quoted c_dq (js "a.dtd"); Bare (js " [ ");
         Nested (js "!ENTITY e 'v'"); Bare (js " ]")];
   Blank [c_lf]; Decl [Bare (js "-- c --")]; Blank [c_lf]].

(** What may follow the last tag. *)
Definition tail_small : list Node :=
  [Chars [c_lf]; Comment (js " x "); Instruction (js "y")].

(** Character data with a predefined and a numeric reference, and the
    state before it. *)
Definition pieces_text : list Piece :=
  [Plain (js "1 "); Ref (js "lt"); Plain (js " 2 "); Ref (js "#38"); Plain (js " 3")].

Definition at_text : State := after 2 (js "<a>1 &lt; 2 &#38; 3</a>") None.

(** An attribute value with references, and the state before it. *)
Definition pieces_value : list Piece :=
  [Ref (js "quot"); Plain (js "x"); Ref (js "#x26")].

Definition at_quoted : State := after 3 (js "<a b='&quot;x&#x26;'>") None.

(** Before a left angle that white space follows. *)
Definition at_less : State := after 3 (js "<a>1 < 2</a>") None.

(** In the attribute list, before an attribute without value that another
    attribute follows. *)
Definition at_names : State := after 2 (js "<input disabled name='x'>") None.

(** A replacement text with markup, as a tree, and the state before the
    reference to it. *)
Definition nodes_inline : list Node :=
  [Chars (js "("); Void (js "d") [mkAttr (js " ") (js "e") c_dq (js "f")] [];
   Chars (js ")")].

Definition at_markup : State :=
  after 3 (js "<a>[&c;]</a>") (Some [(js "c", print_all nodes_inline)]).

(** Before a section that is no CDATA section. *)
Definition at_section : State := after 2 (js "<a><![INCLUDE[b]]></a>") None.

(* ================================================================== *)
(** * Part II. Properties                                              *)
(* ================================================================== *)

(** ** Tactics *)

Ltac break_match :=
  match goal with
  | |- context [match ?x with _ => _ end] => destruct x eqn:?
  | H : context [match ?x with _ => _ end] |- _ => destruct x eqn:?
  end.

(** Decide the comparisons of known characters. *)
Ltac eval_chars :=
  repeat match goal with
  | |- context [char_eqb ?a ?b] =>
      let v := eval vm_compute in (char_eqb a b) in
      match v with
      | true => change (char_eqb a b) with true
      | false => change (char_eqb a b) with false
      end
  end.

(** Write the named characters as character literals. *)
Ltac unname_chars :=
  unfold c_lt, c_gt, c_amp, c_semi, c_slash, c_bang, c_quest, c_lbrack, c_eq,
    c_hash, c_x in *.

(** ** Strings *)

Lemma char_eqb_eq (a b : char) : char_eqb a b = true <-> a = b.
Proof. apply N.eqb_eq. Qed.

Lemma char_eqb_refl (a : char) : char_eqb a a = true.
Proof. apply N.eqb_refl. Qed.

Lemma char_eqb_neq (a b : char) : char_eqb a b = false <-> a <> b.
Proof. apply N.eqb_neq. Qed.

Lemma str_eqb_eq (a b : str) : str_eqb a b = true <-> a = b.
Proof.
  revert b; induction a as [|x a IH]; intros [|y b]; simpl; split; intro H;
    try reflexivity; try discriminate.
  - apply andb_true_iff in H as [Hx Hab].
    apply char_eqb_eq in Hx. apply IH in Hab. congruence.
  - injection H as -> ->. rewrite char_eqb_refl. simpl. now apply IH.
Qed.

Lemma str_eqb_refl (a : str) : str_eqb a a = true.
Proof. now apply str_eqb_eq. Qed.

Lemma str_eqb_neq (a b : str) : str_eqb a b = false <-> a <> b.
Proof.
  split; intro H.
  - intro E. apply str_eqb_eq in E. congruence.
  - destruct (str_eqb a b) eqn:E; [|reflexivity].
    apply str_eqb_eq in E. contradiction.
Qed.

Lemma strip_app (p s r : str) : strip p s = Some r -> s = p ++ r.
Proof.
  revert s; induction p as [|x p IH]; intros s H; simpl in *.
  - now injection H as ->.
  - destruct s as [|y s]; [discriminate|].
    destruct (char_eqb y x) eqn:E; [|discriminate].
    apply char_eqb_eq in E. subst y. simpl. f_equal. now apply IH.
Qed.

Lemma strip_prefix (p r : str) : strip p (p ++ r) = Some r.
Proof.
  induction p as [|x p IH]; simpl; [reflexivity|].
  now rewrite char_eqb_refl.
Qed.

Lemma rel_index_nat (len n : nat) : rel_index len (Z.of_nat n) = Nat.min n len.
Proof.
  unfold rel_index. destruct (Z.of_nat n <? 0)%Z eqn:E.
  - apply Z.ltb_lt in E. lia.
  - now rewrite Nat2Z.id.
Qed.

Lemma substring_spec (s : str) (a b : nat) :
  a <= b -> b <= length s -> substring s a b = firstn (b - a) (skipn a s).
Proof.
  intros Hab Hb. unfold substring, slice. rewrite !rel_index_nat.
  now rewrite !Nat.min_l by lia.
Qed.

Lemma slice_from_nat (s : str) (n : nat) : slice_from s (Z.of_nat n) = skipn n s.
Proof.
  unfold slice_from. rewrite rel_index_nat.
  destruct (Nat.le_ge_cases n (length s)) as [H|H].
  - now rewrite Nat.min_l.
  - rewrite Nat.min_r by assumption.
    now rewrite !skipn_all2 by lia.
Qed.

(** ** The matcher consumes a prefix of its input *)

Section MatcherSound.

Variable m : str -> cont -> option str.
Hypothesis m_sound : forall s k res,
  m s k = Some res -> exists p s', s = p ++ s' /\ k s' = Some res.

Lemma star_greedy_sound (fuel : nat) : forall s k res,
  star_greedy m fuel s k = Some res -> exists p s', s = p ++ s' /\ k s' = Some res.
Proof.
  induction fuel as [|f IH]; intros s k res H; simpl in H.
  - exists [], s. auto.
  - destruct (m s (progress s (fun s' => star_greedy m f s' k))) as [r|] eqn:E.
    + injection H as ->. apply m_sound in E as (p & s' & -> & E).
      unfold progress in E. destruct (length s' <? length (p ++ s')); [|discriminate].
      apply IH in E as (p' & s'' & -> & E).
      exists (p ++ p'), s''. now rewrite app_assoc.
    + exists [], s. auto.
Qed.

Lemma star_lazy_sound (fuel : nat) : forall s k res,
  star_lazy m fuel s k = Some res -> exists p s', s = p ++ s' /\ k s' = Some res.
Proof.
  induction fuel as [|f IH]; intros s k res H; simpl in H.
  - exists [], s. auto.
  - destruct (k s) as [r|] eqn:E.
    + injection H as ->. exists [], s. auto.
    + apply m_sound in H as (p & s' & -> & H).
      unfold progress in H. destruct (length s' <? length (p ++ s')); [|discriminate].
      apply IH in H as (p' & s'' & -> & H).
      exists (p ++ p'), s''. now rewrite app_assoc.
Qed.

End MatcherSound.

Lemma rx_match_sound (r : regex) : forall s k res,
  rx_match r s k = Some res ->
  exists p s', s = p ++ s' /\ k s' = Some res /\ (nullable r = false -> p <> []).
Proof.
  induction r as [l| |cs|cs|a IHa b IHb|a IHa b IHb|a IHa|a IHa];
    intros s k res H; simpl in H.
  - destruct (strip l s) as [s'|] eqn:E; [|discriminate].
    apply strip_app in E. exists l, s'. repeat split; auto.
    simpl. destruct l; [discriminate|]. intros _; discriminate.
  - destruct s as [|c s']; [discriminate|].
    exists [c], s'. repeat split; auto. intros _; discriminate.
  - destruct s as [|c s']; [discriminate|].
    destruct (mem c cs); [|discriminate].
    exists [c], s'. repeat split; auto. intros _; discriminate.
  - destruct s as [|c s']; [discriminate|].
    destruct (mem c cs); [discriminate|].
    exists [c], s'. repeat split; auto. intros _; discriminate.
  - apply IHa in H as (p1 & s1 & -> & H & Ha).
    apply IHb in H as (p2 & s2 & -> & H & Hb).
    exists (p1 ++ p2), s2. rewrite app_assoc. repeat split; auto.
    simpl. intros Hn Hp. apply app_eq_nil in Hp as [-> ->].
    apply andb_false_iff in Hn as [Hn|Hn]; [now apply Ha|now apply Hb].
  - simpl. destruct (rx_match a s k) as [r|] eqn:E.
    + injection H as ->. apply IHa in E as (p & s' & -> & E & Ha).
      exists p, s'. repeat split; auto.
      intros Hn. apply orb_false_iff in Hn as [Hn _]. auto.
    + apply IHb in H as (p & s' & -> & E' & Hb).
      exists p, s'. repeat split; auto.
      intros Hn. apply orb_false_iff in Hn as [_ Hn]. auto.
  - apply star_greedy_sound in H.
    + destruct H as (p & s' & -> & H). exists p, s'. repeat split; auto.
      simpl; discriminate.
    + intros s0 k0 r0 H0. apply IHa in H0 as (p & s' & -> & H0 & _). eauto.
  - apply star_lazy_sound in H.
    + destruct H as (p & s' & -> & H). exists p, s'. repeat split; auto.
      simpl; discriminate.
    + intros s0 k0 r0 H0. apply IHa in H0 as (p & s' & -> & H0 & _). eauto.
Qed.

(** A successful test moves [lastIndex] forward over the token it matched. *)
Lemma regexp_test_token (rx : regex) (source : str) (i p : nat) :
  regexp_test rx source i = Some p ->
  exists tok rest,
    skipn i source = tok ++ rest /\ p = i + length tok /\ p <= length source
    /\ substring source i p = tok /\ (nullable rx = false -> tok <> []).
Proof.
  unfold regexp_test. intros H.
  destruct (length source <? i) eqn:Hi; [discriminate|].
  apply Nat.ltb_ge in Hi.
  destruct (rx_match rx (skipn i source) (fun r => Some r)) as [rest|] eqn:E;
    [|discriminate].
  injection H as <-.
  apply rx_match_sound in E as (tok & s' & Hs & Hk & Hn). injection Hk as ->.
  assert (Hlen : length source = i + (length tok + length rest)).
  { rewrite <- (firstn_skipn i source) at 1.
    rewrite length_app, firstn_length_le by assumption.
    now rewrite Hs, length_app. }
  exists tok, rest. repeat split; auto; try lia.
  rewrite substring_spec by lia.
  replace (length source - length rest - i) with (length tok) by lia.
  rewrite Hs. rewrite firstn_app, Nat.sub_diag, firstn_all. simpl.
  now rewrite app_nil_r.
Qed.


(** ** The state after the small operations *)

Lemma flush_trace (s : State) : trace (flush s) = trace s ++ flushed (text s).
Proof. unfold flush, flushed. destruct (text s); simpl; [now rewrite app_nil_r|reflexivity]. Qed.

Lemma flush_other (s : State) :
  src (flush s) = src s /\ pos (flush s) = pos s /\ stack (flush s) = stack s
  /\ names (flush s) = names s /\ active (flush s) = active s
  /\ loop (flush s) = loop s /\ text (flush s) = [] /\ defs (flush s) = defs s
  /\ lit (flush s) = lit s /\ end_ (flush s) = end_ s.
Proof. unfold flush. destruct (text s); simpl; repeat split. Qed.

(** [expand] leaves the two stacks alone or pushes one element on each. *)
Lemma expand_pushes (ref : str) (s : State) :
  (stack (expand ref s) = stack s /\ names (expand ref s) = names s)
  \/ (stack (expand ref s) = mkFrame (src s) (pos s) (lit s) (end_ s) :: stack s
      /\ names (expand ref s) = ref :: names s).
Proof.
  unfold expand. repeat break_match; simpl; auto.
Qed.

(** [back] pops one element off each. *)
Lemma back_pops (s s' : State) :
  back s = Some s' -> exists f, stack s = f :: stack s' /\ names s' = tl (names s).
Proof.
  unfold back. destruct (stack s) as [|f rest]; [discriminate|].
  intros H. injection H as <-. simpl. eauto.
Qed.

Lemma expand_lockstep (ref : str) (s : State) : lockstep s -> lockstep (expand ref s).
Proof.
  unfold lockstep. intros H.
  destruct (expand_pushes ref s) as [[-> ->]|[-> ->]]; simpl; lia.
Qed.

Lemma flush_lockstep (s : State) : lockstep s -> lockstep (flush s).
Proof.
  unfold lockstep. destruct (flush_other s) as (_ & _ & -> & -> & _). auto.
Qed.

Lemma no_match_lockstep (s s' : State) : no_match s = Some s' -> lockstep s -> lockstep s'.
Proof.
  unfold no_match, lockstep. intros Hs Hl. destruct (stack s) as [|f rest] eqn:E.
  - injection Hs as <-. simpl. now rewrite E.
  - apply back_pops in Hs as (f' & Hst & ->). rewrite E in Hst.
    injection Hst as _ <-. simpl in Hl.
    destruct (names s); simpl in *; lia.
Qed.

Lemma top_token_lockstep (tok : str) (s : State) : lockstep s -> lockstep (top_token tok s).
Proof.
  intros H. unfold top_token.
  repeat break_match; try (now apply expand_lockstep); try assumption;
    try (apply flush_lockstep in H; exact H).
Qed.

Lemma attlist_token_lockstep (tag : str) (attrs : Map) (tok : str) (s : State) :
  lockstep s -> lockstep (attlist_token tag attrs tok s).
Proof.
  intros H. unfold attlist_token. repeat break_match; assumption.
Qed.

Lemma literal_token_lockstep (tag : str) (attrs : Map) (attr tok : str) (s : State) :
  lockstep s -> lockstep (literal_token tag attrs attr tok s).
Proof.
  intros H. unfold literal_token.
  repeat break_match; try (now apply expand_lockstep); assumption.
Qed.

Lemma step_lockstep (s s' : State) : step s = Some s' -> lockstep s -> lockstep s'.
Proof.
  intros Hs Hl. unfold step in Hs.
  destruct (loop s).
  - destruct (regexp_test PRIMARY (src s) (pos s)) as [p|].
    + injection Hs as <-. now apply top_token_lockstep.
    + eapply no_match_lockstep; eassumption.
  - destruct (regexp_test ATTLIST (src s) (pos s)) as [p|]; injection Hs as <-.
    + now apply attlist_token_lockstep.
    + assumption.
  - destruct (lit s) as [l|]; [|discriminate].
    destruct (regexp_test (literal_rx l) (src s) (pos s)) as [p|].
    + injection Hs as <-. now apply literal_token_lockstep.
    + eapply no_match_lockstep; eassumption.
Qed.

Lemma run_lockstep (n : nat) : forall s,
  lockstep s -> lockstep (outcome_state (run n s)).
Proof.
  induction n as [|n IH]; intros s H; simpl.
  - destruct (active s); simpl; assumption.
  - destruct (active s); [|simpl; assumption].
    destruct (step s) as [s'|] eqn:E; [|simpl; assumption].
    apply IH. eapply step_lockstep; eassumption.
Qed.

(** C8: whatever the document and the table, after any number of rounds of
    the loops (so before and after every token, every push and every pop)
    the frame stack and the name stack of [fast_xml] have the same length;
    [expand] pushes on both or on none, and [back] pops both. *)
Theorem stack_and_names_in_lockstep (source : str) (d : option Map) (n : nat) :
  (let s := outcome_state (run n (start source d)) in
   length (stack s) = length (names s))
  /\ (forall ref s,
        (stack (expand ref s) = stack s /\ names (expand ref s) = names s)
        \/ (stack (expand ref s) = mkFrame (src s) (pos s) (lit s) (end_ s) :: stack s
            /\ names (expand ref s) = ref :: names s))
  /\ (forall s s', back s = Some s' ->
        exists f, stack s = f :: stack s' /\ names s' = tl (names s)).
Proof.
  split; [|split].
  - apply run_lockstep. reflexivity.
  - apply expand_pushes.
  - apply back_pops.
Qed.

Lemma stack_and_names_in_lockstep_witness :
  exists f, stack in_expansion = f :: stack (start doc_reparse (Some defs_reparse))
            /\ names (start doc_reparse (Some defs_reparse)) = tl (names in_expansion).
Proof.
  assert (E : back in_expansion
              = Some (set_lit (Some DQ_ATTR) (Some [c_dq])
                        (set_loop (InLiteral (js "a") [] (js "a"))
                           (set_text [ch "["]
                              (set_pos 10 (start doc_reparse (Some defs_reparse)))))))
    by (vm_compute; reflexivity).
  exact (proj2 (proj2 (stack_and_names_in_lockstep doc_reparse (Some defs_reparse) 0))
           in_expansion _ E).
Defined.

(** ** Numeric references (C2) *)

Lemma slice_reference (ref : str) : slice (reference ref) 1 (-1) = ref.
Proof.
  unfold slice, reference, rel_index. cbn [Z.ltb Z.compare].
  cbn [length]. rewrite length_app. cbn [length].
  replace (Nat.min (Z.to_nat 1) (S (length ref + 1))) with 1 by lia.
  replace (Z.to_nat (Z.max (Z.of_nat (S (length ref + 1)) + -1) 0)) with (S (length ref)) by lia.
  replace (S (length ref) - 1) with (length ref) by lia.
  cbn [skipn]. rewrite firstn_app, Nat.sub_diag, firstn_all. cbn [firstn].
  apply app_nil_r.
Qed.

Lemma top_token_reference (ref : str) (s : State) :
  top_token (reference ref) s = expand ref s.
Proof.
  unfold top_token.
  change (is_char (char_at (reference ref) 0) c_lt) with false.
  change (is_char (char_at (reference ref) 0) c_amp) with true.
  cbv iota. now rewrite slice_reference.
Qed.

Lemma literal_token_reference (tag : str) (attrs : Map) (attr ref : str) (s : State) :
  is_end (reference ref) (end_ s) = false ->
  literal_token tag attrs attr (reference ref) s = expand ref s.
Proof.
  intros H. unfold literal_token. rewrite H.
  change (is_char (char_at (reference ref) 0) c_amp) with true.
  cbv iota. now rewrite slice_reference.
Qed.

Lemma run_inactive (n : nat) (s : State) : active s = false -> run n s = Resolved s.
Proof. intros H. destruct n; simpl; now rewrite H. Qed.

Lemma expand_numeric (ref : str) (s : State) :
  is_char (char_at ref 0) c_hash = true ->
  match numeric_code ref with
  | Some code => if valid_code_point code
                 then expand ref s = set_text (text s ++ fromCodePoint code) s
                 else expand ref s = set_active false s
  | None => expand ref s = set_active false s
  end.
Proof.
  intros H. unfold expand. rewrite H.
  destruct (numeric_code ref) as [code|]; [|reflexivity].
  destruct (valid_code_point code); reflexivity.
Qed.

(** C2 as the specification words it fails: [&#xD800;] parses to a
    surrogate, which is no scalar value, and is appended all the same. *)
Lemma surrogate_reference_is_appended : ~ scalar_value_reading.
Proof.
  intros H. specialize (H (js "#xD800") (start [] None) eq_refl).
  vm_compute in H. discriminate H.
Qed.

(** C2 (amended): a numeric reference [&ref;], at top level or in a
    literal, whose parsed value is a code point ([0 <= code < 0x110000],
    surrogates included) appends that character to the text buffer and
    changes nothing else; any other one (out of range, negative, not a
    number) clears [active], after which no round runs and no hook fires.
    [&#38;] and [&#x26;] are the character [&]; [&#x110000;] ends the read. *)
Theorem numeric_reference_expansion (ref : str) (s : State) :
  is_char (char_at ref 0) c_hash = true ->
  match numeric_code ref with
  | Some code => if valid_code_point code
                 then expand ref s = set_text (text s ++ fromCodePoint code) s
                 else expand ref s = set_active false s
  | None => expand ref s = set_active false s
  end
  /\ top_token (reference ref) s = expand ref s
  /\ (forall tag attrs attr,
        is_end (reference ref) (end_ s) = false ->
        literal_token tag attrs attr (reference ref) s = expand ref s)
  /\ (forall n, run n (set_active false s) = Resolved (set_active false s))
  /\ (numeric_code (js "#38") = Some 38%Z /\ numeric_code (js "#x26") = Some 38%Z
      /\ fromCodePoint 38 = js "&")
  /\ (numeric_code (js "#x110000") = Some 1114112%Z
      /\ valid_code_point 1114112 = false
      /\ hooks (js "<a>&#x110000;</a><b/>") None = [head []; otag (js "a") []]).
Proof.
  intros H. split; [now apply expand_numeric|].
  split; [apply top_token_reference|].
  split; [intros; now apply literal_token_reference|].
  split; [intros n; now apply run_inactive|].
  split; [repeat split|]; vm_compute; repeat split.
Qed.

Lemma numeric_reference_expansion_witness :
  expand (js "#38") (start [] None)
  = set_text (text (start [] None) ++ js "&") (start [] None).
Proof.
  assert (E : is_char (char_at (js "#38") 0) c_hash = true) by (vm_compute; reflexivity).
  pose proof (proj1 (numeric_reference_expansion (js "#38") (start [] None) E)) as H.
  rewrite H. vm_compute. reflexivity.
Defined.

(** ** End tags (C7) *)

Lemma find_char_spec (c : char) (s : str) :
  match find_char c s with
  | Some e => nth_error s e = Some c /\ forall i, i < e -> nth_error s i <> Some c
  | None => forall i, nth_error s i <> Some c
  end.
Proof.
  induction s as [|x s IH]; simpl.
  - intros [|i]; discriminate.
  - destruct (char_eqb x c) eqn:E.
    + apply char_eqb_eq in E. subst x. split; [reflexivity|]. intros i Hi. lia.
    + apply char_eqb_neq in E. destruct (find_char c s) as [e|].
      * destruct IH as [He Hlt]. split; [exact He|].
        intros [|i] Hi; simpl; [congruence|]. apply Hlt. lia.
      * intros [|i]; simpl; [congruence|]. apply IH.
Qed.

Lemma indexOf_spec (s : str) (c : char) (from : nat) :
  match indexOf s c from with
  | Some e => from <= e /\ nth_error s e = Some c
              /\ forall i, from <= i < e -> nth_error s i <> Some c
  | None => forall i, from <= i -> nth_error s i <> Some c
  end.
Proof.
  unfold indexOf. pose proof (find_char_spec c (skipn from s)) as H.
  destruct (find_char c (skipn from s)) as [e|].
  - destruct H as [He Hlt]. rewrite nth_error_skipn in He.
    split; [lia|]. split; [exact He|].
    intros i Hi. specialize (Hlt (i - from)). rewrite nth_error_skipn in Hlt.
    replace (from + (i - from)) with i in Hlt by lia. apply Hlt. lia.
  - intros i Hi. specialize (H (i - from)). rewrite nth_error_skipn in H.
    now replace (from + (i - from)) with i in H by lia.
Qed.

(** C7: a round of the top-level loop whose token starts with the two
    characters of an end tag first flushes a non-empty text buffer through
    the text hook; then, when the source has no right angle at or after the
    end of the token, it clears [active] and calls nothing more; otherwise it
    calls the ctag hook with the token less its two first characters, stays
    active and moves the cursor just past the first such right angle,
    whatever stands between the name and it. *)
Theorem end_tag_round (s : State) (p : nat) :
  loop s = TopLevel ->
  regexp_test PRIMARY (src s) (pos s) = Some p ->
  char_at (substring (src s) (pos s) p) 0 = Some c_lt ->
  char_at (substring (src s) (pos s) p) 1 = Some c_slash ->
  exists s',
    step s = Some s'
    /\ substring (src s) (pos s) p
       = c_lt :: c_slash :: slice_from (substring (src s) (pos s) p) 2
    /\ text s' = [] /\ src s' = src s /\ stack s' = stack s /\ names s' = names s
    /\ loop s' = TopLevel
    /\ match indexOf (src s) c_gt p with
       | None =>
           (forall i, p <= i -> nth_error (src s) i <> Some c_gt)
           /\ trace s' = trace s ++ flushed (text s)
           /\ active s' = false
       | Some e =>
           (p <= e /\ nth_error (src s) e = Some c_gt
            /\ forall i, p <= i < e -> nth_error (src s) i <> Some c_gt)
           /\ trace s' = trace s ++ flushed (text s)
                         ++ [ctag (slice_from (substring (src s) (pos s) p) 2)]
           /\ active s' = active s
           /\ pos s' = e + 1
       end.
Proof.
  intros Hloop Htest H0 H1.
  unfold step. rewrite Hloop, Htest.
  set (tok := substring (src s) (pos s) p) in *.
  eexists. split; [reflexivity|].
  split.
  { destruct tok as [|a [|b tok']]; try discriminate.
    simpl in H0, H1. injection H0 as ->. injection H1 as ->. reflexivity. }
  unfold top_token. rewrite H0, H1.
  change (is_char (Some c_lt) c_lt) with true.
  change (is_char (Some c_slash) c_slash) with true. cbv iota.
  destruct (flush_other (set_pos p s)) as (Hsrc & Hpos & Hst & Hnm & Hact & Hlp & Htx & _).
  rewrite Hsrc, Hpos. cbn [src pos set_pos].
  pose proof (indexOf_spec (src s) c_gt p) as Hidx.
  destruct (indexOf (src s) c_gt p) as [e|]; cbn -[flush];
    rewrite ?Htx, ?Hsrc, ?Hst, ?Hnm, ?Hlp, ?Hact, ?flush_trace; cbn;
    repeat split; try tauto; try apply Hidx.
  now rewrite <- app_assoc.
Qed.

Lemma end_tag_round_witness :
  exists s', step end_tag_example = Some s' /\ pos s' = 7
             /\ trace s' = [head []; ctag (js "a")].
Proof.
  assert (E1 : loop end_tag_example = TopLevel) by (vm_compute; reflexivity).
  assert (E2 : regexp_test PRIMARY (src end_tag_example) (pos end_tag_example) = Some 3)
    by (vm_compute; reflexivity).
  assert (E3 : char_at (substring (src end_tag_example) (pos end_tag_example) 3) 0
               = Some c_lt) by (vm_compute; reflexivity).
  assert (E4 : char_at (substring (src end_tag_example) (pos end_tag_example) 3) 1
               = Some c_slash) by (vm_compute; reflexivity).
  destruct (end_tag_round end_tag_example E1 E2 E3 E4)
    as (s' & Hstep & _ & _ & _ & _ & _ & _ & H).
  exists s'. split; [exact Hstep|].
  assert (E5 : indexOf (src end_tag_example) c_gt 3 = Some 6) by (vm_compute; reflexivity).
  rewrite E5 in H. destruct H as (_ & Htr & _ & Hpos).
  split; [exact Hpos|]. rewrite Htr. vm_compute. reflexivity.
Defined.

(** ** The expansion grammar in a literal (C9) *)

Lemma star_greedy_total (m : str -> cont -> option str) (fuel : nat) (s : str) :
  star_greedy m fuel s (fun r => Some r) <> None.
Proof.
  destruct fuel; simpl; [discriminate|].
  destruct (m s _); discriminate.
Qed.

Lemma mem_cons (c x : char) (cs : list char) : mem c (x :: cs) = char_eqb c x || mem c cs.
Proof. reflexivity. Qed.

Lemma mem_nil (c : char) : mem c [] = false.
Proof. reflexivity. Qed.

Lemma rx_attr_stuck (source : str) (i : nat) :
  regexp_test (literal_rx RX_ATTR) source i = None ->
  length source <= i \/ nth_error source i = Some c_amp.
Proof.
  unfold regexp_test. intros H.
  destruct (length source <? i) eqn:Hi; [apply Nat.ltb_lt in Hi; lia|].
  rewrite <- (Nat.add_0_r i), <- nth_error_skipn.
  destruct (skipn i source) as [|c rest] eqn:E.
  - left. apply (f_equal (@length _)) in E. rewrite length_skipn in E.
    simpl in E. apply Nat.ltb_ge in Hi. lia.
  - right. simpl. destruct (char_eqb c c_amp) eqn:Ec.
    + apply char_eqb_eq in Ec. now subst.
    + exfalso. revert H. cbn [literal_rx rx_match Plus js list_ascii_of_string map strip].
      rewrite mem_cons, mem_nil. unname_chars. rewrite Ec. cbn [orb].
      destruct (star_greedy _ _ _ _) eqn:Es; [discriminate|].
      now apply star_greedy_total in Es.
Qed.

Lemma expand_lit_stack (ref : str) (s : State) :
  (lit (expand ref s) = lit s /\ stack (expand ref s) = stack s)
  \/ (lit (expand ref s) = Some RX_ATTR
      /\ stack (expand ref s) = mkFrame (src s) (pos s) (lit s) (end_ s) :: stack s).
Proof.
  unfold expand. repeat break_match; simpl; auto.
Qed.

Lemma expand_expanding (ref : str) (s : State) :
  frames_expanding (lit s) (stack s) ->
  frames_expanding (lit (expand ref s)) (stack (expand ref s)).
Proof.
  intros H. destruct (expand_lit_stack ref s) as [[-> ->]|[-> ->]]; exact H.
Qed.

Lemma frames_expanding_attr (l : option Literal) (frames : list Frame) (l' : Literal) :
  l' <> RX_ATTR -> frames_expanding l frames -> frames_expanding (Some l') frames.
Proof.
  intros Hl H. destruct frames; [|exact H]. simpl. congruence.
Qed.

Lemma no_match_expanding (s s' : State) :
  no_match s = Some s' -> frames_expanding (lit s) (stack s) ->
  frames_expanding (lit s') (stack s').
Proof.
  unfold no_match, back. destruct (stack s) as [|f rest] eqn:E; intros H Hf.
  - injection H as <-. simpl. now rewrite E.
  - injection H as <-. exact Hf.
Qed.

Lemma step_expanding (s s' : State) :
  step s = Some s' -> frames_expanding (lit s) (stack s) ->
  frames_expanding (lit s') (stack s').
Proof.
  intros Hs Hf. unfold step in Hs. destruct (loop s).
  - destruct (regexp_test PRIMARY (src s) (pos s)) as [p|].
    + injection Hs as <-. unfold top_token.
      repeat break_match; try (now apply expand_expanding); try exact Hf.
      all: destruct (flush_other (set_pos p s)) as (_ & _ & Hst & _ & _ & _ & _ & _ & Hl & _);
        cbn [lit stack set_active set_pos emit set_loop]; rewrite ?Hst, ?Hl; exact Hf.
    + eapply no_match_expanding; eassumption.
  - destruct (regexp_test ATTLIST (src s) (pos s)) as [p|]; injection Hs as <-.
    + unfold attlist_token. repeat break_match; try exact Hf.
      all: cbn [lit stack set_loop set_lit set_pos];
        eapply frames_expanding_attr; [discriminate|exact Hf].
    + exact Hf.
  - destruct (lit s) as [l|] eqn:El; [|discriminate].
    destruct (regexp_test (literal_rx l) (src s) (pos s)) as [p|].
    + injection Hs as <-. unfold literal_token.
      repeat break_match; try exact Hf.
      all: try (apply expand_expanding; cbn [lit stack set_pos]; rewrite El; exact Hf).
      all: cbn [lit stack set_pos set_text set_loop]; rewrite El; exact Hf.
    + eapply no_match_expanding; [eassumption|]. rewrite El. exact Hf.
Qed.

Lemma steps_expanding (n : nat) : forall s s',
  steps n s = Some s' -> frames_expanding (lit s) (stack s) ->
  frames_expanding (lit s') (stack s').
Proof.
  induction n as [|n IH]; intros s s' H Hf; simpl in H.
  - now injection H as <-.
  - destruct (active s); [|discriminate].
    destruct (step s) as [s1|] eqn:E; [|discriminate].
    eapply IH; [eassumption|]. eapply step_expanding; eassumption.
Qed.

Lemma expand_loop (ref : str) (s : State) : loop (expand ref s) = loop s.
Proof. unfold expand. repeat break_match; reflexivity. Qed.

(** C9 as the specification words it fails: in the value of [b] the
    replacement text of [e] is read up to its ampersand, which starts no
    reference; no token matches there and the frame is popped with the rest
    of the replacement text unread, so that the frame ends before its text
    is exhausted (and the attribute gets the text read so far). *)
Lemma frame_pops_at_ampersand : ~ frames_end_at_exhaustion.
Proof.
  intros H.
  assert (E1 : steps 5 (start doc_ampersand (Some defs_ampersand)) = Some at_ampersand)
    by (vm_compute; reflexivity).
  assert (E2 : loop at_ampersand = InLiteral (js "a") [] (js "b"))
    by (vm_compute; reflexivity).
  assert (E3 : lit at_ampersand = Some RX_ATTR) by (vm_compute; reflexivity).
  assert (E4 : end_ at_ampersand = Some []) by (vm_compute; reflexivity).
  assert (E5 : exists s', step at_ampersand = Some s' /\ back at_ampersand = Some s')
    by (vm_compute; eexists; split; reflexivity).
  destruct E5 as (s' & Hs & Hb).
  specialize (H _ _ _ _ _ _ _ _ E1 E2 E3 E4 Hs Hb).
  assert (E6 : src at_ampersand = js "x & y" /\ pos at_ampersand = 2)
    by (vm_compute; split; reflexivity).
  destruct E6 as [E6 E7]. rewrite E6, E7 in H. cbn in H. lia.
Qed.

(** C9 (amended): in a literal read under the expansion grammar with the
    empty delimiter, in any state a read can reach, every token is non-empty
    and so differs from the delimiter: the round expands a reference or
    buffers the token and never commits the attribute, the loop staying the
    literal loop of the same attribute.  The frame is left only when no
    token matches, at the end of the replacement text or at an ampersand
    that starts no reference, and then by [back]. *)
Theorem expansion_literal_never_commits
  (source : str) (d : option Map) (n : nat) (s : State)
  (tag : str) (attrs : Map) (attr : str) :
  steps n (start source d) = Some s ->
  loop s = InLiteral tag attrs attr -> lit s = Some RX_ATTR -> end_ s = Some [] ->
  (forall s', step s = Some s' -> loop s' = InLiteral tag attrs attr)
  /\ match regexp_test (literal_rx RX_ATTR) (src s) (pos s) with
     | Some p =>
         let tok := substring (src s) (pos s) p in
         tok <> [] /\ is_end tok (end_ s) = false
         /\ step s = Some (if is_char (char_at tok 0) c_amp
                           then expand (slice tok 1 (-1)) (set_pos p s)
                           else set_text (text s ++ tok) (set_pos p s))
     | None =>
         (length (src s) <= pos s \/ nth_error (src s) (pos s) = Some c_amp)
         /\ exists s', step s = Some s' /\ back s = Some s'
     end.
Proof.
  intros Hsteps Hloop Hlit Hend.
  assert (Hstack : stack s <> []).
  { apply steps_expanding in Hsteps; [|simpl; discriminate].
    intros E. rewrite E, Hlit in Hsteps. simpl in Hsteps. congruence. }
  assert (Hstep : step s
    = match regexp_test (literal_rx RX_ATTR) (src s) (pos s) with
      | Some p => Some (literal_token tag attrs attr (substring (src s) (pos s) p) (set_pos p s))
      | None => no_match s
      end).
  { unfold step. now rewrite Hloop, Hlit. }
  destruct (regexp_test (literal_rx RX_ATTR) (src s) (pos s)) as [p|] eqn:Et.
  - apply regexp_test_token in Et as (tok & rest & _ & _ & _ & Htok & Hne).
    specialize (Hne eq_refl). rewrite Htok in *. cbv zeta.
    assert (Hie : is_end tok (end_ s) = false).
    { rewrite Hend. simpl. apply str_eqb_neq. exact Hne. }
    assert (Hlt : literal_token tag attrs attr tok (set_pos p s)
      = if is_char (char_at tok 0) c_amp
        then expand (slice tok 1 (-1)) (set_pos p s)
        else set_text (text s ++ tok) (set_pos p s)).
    { unfold literal_token. cbn [end_ set_pos]. now rewrite Hie. }
    rewrite Hlt in Hstep. repeat split; try assumption.
    intros s' Hs'. rewrite Hstep in Hs'. injection Hs' as <-.
    destruct (is_char _ c_amp); [rewrite expand_loop|]; exact Hloop.
  - unfold no_match in Hstep. destruct (stack s) as [|f frames] eqn:Es; [congruence|].
    split; [|split].
    + intros s' Hs'. rewrite Hstep in Hs'. unfold back in Hs'. rewrite Es in Hs'.
      injection Hs' as <-. exact Hloop.
    + now apply rx_attr_stuck.
    + unfold back in *. rewrite Es in *. eexists. split; [exact Hstep|reflexivity].
Qed.

Lemma expansion_literal_never_commits_witness :
  (forall s', step in_expansion = Some s' -> loop s' = InLiteral (js "a") [] (js "a"))
  /\ step in_expansion
     = Some (set_text [ch "["; c_dq] (set_pos 1 in_expansion)).
Proof.
  assert (E1 : steps 5 (start doc_reparse (Some defs_reparse)) = Some in_expansion)
    by (vm_compute; reflexivity).
  assert (E2 : loop in_expansion = InLiteral (js "a") [] (js "a"))
    by (vm_compute; reflexivity).
  assert (E3 : lit in_expansion = Some RX_ATTR) by (vm_compute; reflexivity).
  assert (E4 : end_ in_expansion = Some []) by (vm_compute; reflexivity).
  pose proof (expansion_literal_never_commits _ _ _ E1 E2 E3 E4) as [H1 H2].
  split; [exact H1|].
  assert (E5 : regexp_test (literal_rx RX_ATTR) (src in_expansion) (pos in_expansion)
               = Some 1) by (vm_compute; reflexivity).
  rewrite E5 in H2. cbv zeta in H2. destruct H2 as (_ & _ & H2).
  rewrite H2. f_equal.
Defined.

(** ** Termination (C3) *)

Lemma map_get_In (m : Map) (k v : str) : map_get m k = Some v -> In (k, v) m.
Proof.
  induction m as [|[k' v'] m IH]; simpl; [discriminate|].
  destruct (str_eqb k' k) eqn:E.
  - apply str_eqb_eq in E. subst k'. intros H. injection H as ->. now left.
  - intros H. right. now apply IH.
Qed.

Lemma includes_In (l : list str) (x : str) : includes l x = true <-> In x l.
Proof.
  unfold includes. rewrite existsb_exists. split.
  - intros (y & Hy & E). apply str_eqb_eq in E. now subst.
  - intros H. exists x. split; [exact H|apply str_eqb_refl].
Qed.

Lemma max_len_source (source : str) (d : option Map) : length source <= max_len source d.
Proof.
  unfold max_len. induction (defs_list d) as [|kv m IH]; simpl; lia.
Qed.

Lemma max_len_value (source : str) (d : option Map) (k v : str) :
  In (k, v) (defs_list d) -> length v <= max_len source d.
Proof.
  unfold max_len. induction (defs_list d) as [|kv m IH]; simpl; [tauto|].
  intros [->|H]; simpl; [lia|]. apply IH in H. lia.
Qed.

Section Weight.

Variables (B D : nat) (d : option Map).
Hypothesis B_pos : 0 < B.
Hypothesis B_values : forall k v, In (k, v) (defs_list d) -> length v + 2 <= B.
Hypothesis D_keys : D = length (defs_list d).

Lemma pow_B_pos (e : nat) : 0 < B ^ e.
Proof. apply Nat.neq_0_lt_0. apply Nat.pow_nonzero. lia. Qed.

Lemma guarded_depth (s : State) : guarded d s -> length (stack s) <= D.
Proof.
  intros (_ & Hnd & Hincl & Hl). rewrite Hl, D_keys.
  apply NoDup_incl_length in Hincl; [|exact Hnd].
  unfold keys in Hincl. now rewrite length_map in Hincl.
Qed.

(** Reading on in the same text does not add weight. *)
Lemma weight_le (s s' : State) :
  src s' = src s -> stack s' = stack s -> pos s <= pos s' ->
  weight B D s' <= weight B D s.
Proof.
  intros Hsrc Hst Hpos. unfold weight, unread. rewrite Hsrc, Hst. cbn [texts_weight].
  apply Nat.add_le_mono_r. apply Nat.mul_le_mono_r. lia.
Qed.

(** A token read takes off the weight of one character at least. *)
Lemma weight_set_pos (s : State) (p : nat) :
  pos s < p -> p <= length (src s) ->
  weight B D (set_pos p s) + B ^ (D - length (stack s)) <= weight B D s.
Proof.
  intros Hlt Hle. unfold weight, unread. cbn [src pos stack set_pos texts_weight].
  set (X := B ^ (D - length (stack s))).
  set (W := texts_weight B _ _).
  assert ((length (src s) - p + 1) * X + X <= (length (src s) - pos s + 1) * X); [|lia].
  replace ((length (src s) - p + 1) * X + X) with ((length (src s) - p + 2) * X) by lia.
  apply Nat.mul_le_mono_r. lia.
Qed.

Lemma guarded_same (s s' : State) :
  defs s' = defs s -> names s' = names s -> stack s' = stack s ->
  guarded d s -> guarded d s'.
Proof.
  unfold guarded, lockstep. intros -> -> ->. auto.
Qed.

Lemma expand_guarded (ref : str) (s : State) :
  guarded d s ->
  guarded d (expand ref s)
  /\ weight B D (expand ref s) < weight B D s + B ^ (D - length (stack s)).
Proof.
  intros G. pose proof (pow_B_pos (D - length (stack s))) as HX.
  assert (Hsame : forall s', defs s' = defs s -> names s' = names s ->
            stack s' = stack s -> src s' = src s -> pos s' = pos s ->
            guarded d s' /\ weight B D s' < weight B D s + B ^ (D - length (stack s))).
  { intros s' H1 H2 H3 H4 H5. split; [now apply (@guarded_same s s')|].
    pose proof (@weight_le s s' H4 H3). lia. }
  unfold expand.
  destruct (is_char (char_at ref 0) c_hash).
  { destruct (numeric_code ref) as [code|]; [destruct (valid_code_point code)|];
      apply Hsame; reflexivity. }
  destruct (map_get PREDEFINED ref); [apply Hsame; reflexivity|].
  destruct (includes (names s) ref) eqn:Einc; [apply Hsame; reflexivity|].
  destruct (defs_get s ref) as [replacement|] eqn:Eget; [|apply Hsame; reflexivity].
  destruct G as (Hd & Hnd & Hincl & Hl).
  assert (Hin : In (ref, replacement) (defs_list d)).
  { unfold defs_get in Eget. rewrite Hd in Eget. destruct d; [|discriminate].
    now apply map_get_In. }
  assert (G' : guarded d (mkState (defs s) replacement 0 (Some RX_ATTR) (Some [])
                 (mkFrame (src s) (pos s) (lit s) (end_ s) :: stack s)
                 (ref :: names s) (text s) (active s) (loop s) (trace s))).
  { unfold guarded, lockstep. cbn. repeat split; auto.
    - constructor; [|exact Hnd]. intros Hc. apply includes_In in Hc. congruence.
    - intros x [<-|Hx]; [|now apply Hincl].
      unfold keys. now apply (in_map fst) in Hin. }
  split; [exact G'|].
  apply guarded_depth in G'. cbn [stack length] in G'.
  unfold weight, unread. cbn [src pos stack f_src f_pos length map texts_weight].
  replace (D - length (stack s)) with (S (D - S (length (stack s)))) by lia.
  set (e := D - S (length (stack s))).
  set (W := (length (src s) - pos s + 1) * B ^ S e + texts_weight B (S (S e)) _).
  apply B_values in Hin. pose proof (pow_B_pos e) as He.
  cbn [Nat.pow].
  assert ((length replacement - 0 + 1) * B ^ e < B * B ^ e); [|lia].
  apply Nat.mul_lt_mono_pos_r; lia.
Qed.

Lemma back_guarded (s s' : State) :
  guarded d s -> back s = Some s' ->
  guarded d s' /\ weight B D s' < weight B D s.
Proof.
  intros G H. pose proof (guarded_depth G) as Hdepth.
  destruct G as (Hd & Hnd & Hincl & Hl).
  unfold back in H. destruct (stack s) as [|f rest] eqn:Es; [discriminate|].
  injection H as <-. split.
  - unfold guarded, lockstep in *. cbn. rewrite Es in Hl. cbn in Hl.
    destruct (names s) as [|x nm]; [discriminate|]. cbn in *.
    repeat split; auto.
    + now inversion Hnd.
    + intros y Hy. apply Hincl. now right.
  - unfold weight, unread. cbn [src pos stack]. rewrite Es.
    cbn [length map texts_weight] in *.
    replace (D - length rest) with (S (D - S (length rest))) by lia.
    pose proof (pow_B_pos (D - S (length rest))). nia.
Qed.

Lemma same_guarded (s s' : State) :
  defs s' = defs s -> names s' = names s -> stack s' = stack s ->
  src s' = src s -> pos s <= pos s' -> guarded d s ->
  guarded d s' /\ weight B D s' < weight B D s + B ^ (D - length (stack s)).
Proof.
  intros H1 H2 H3 H4 H5 G. split; [now apply (@guarded_same s s')|].
  pose proof (@weight_le s s' H4 H3 H5).
  pose proof (pow_B_pos (D - length (stack s))). lia.
Qed.

Lemma top_token_guarded (tok : str) (s : State) :
  guarded d s ->
  guarded d (top_token tok s)
  /\ weight B D (top_token tok s) < weight B D s + B ^ (D - length (stack s)).
Proof.
  intros G. unfold top_token.
  destruct (flush_other s) as (Hsrc & Hpos & Hst & Hnm & _ & _ & _ & Hdf & _).
  destruct (is_char (char_at tok 0) c_lt).
  - destruct (is_char (char_at tok 1) c_slash).
    + rewrite Hsrc, Hpos.
      pose proof (indexOf_spec (src s) c_gt (pos s)) as Hi.
      destruct (indexOf (src s) c_gt (pos s)) as [e|].
      * apply same_guarded; cbn -[flush]; rewrite ?Hsrc, ?Hpos, ?Hst, ?Hnm, ?Hdf; auto. lia.
      * apply same_guarded; cbn -[flush]; rewrite ?Hsrc, ?Hpos, ?Hst, ?Hnm, ?Hdf; auto.
    + destruct (is_char (char_at tok 1) c_bang && is_char (char_at tok 2) c_lbrack).
      * apply same_guarded; cbn; auto.
      * destruct (negb (is_char (char_at tok 1) c_bang)
                  && negb (is_char (char_at tok 1) c_quest)).
        -- apply same_guarded; cbn -[flush]; rewrite ?Hsrc, ?Hpos, ?Hst, ?Hnm, ?Hdf; auto.
        -- apply same_guarded; auto.
  - destruct (is_char (char_at tok 0) c_amp).
    + now apply expand_guarded.
    + apply same_guarded; cbn; auto.
Qed.

Lemma attlist_token_guarded (tag : str) (attrs : Map) (tok : str) (s : State) :
  guarded d s ->
  guarded d (attlist_token tag attrs tok s)
  /\ weight B D (attlist_token tag attrs tok s)
     < weight B D s + B ^ (D - length (stack s)).
Proof.
  intros G. unfold attlist_token.
  repeat break_match; apply same_guarded; cbn; auto.
Qed.

Lemma literal_token_guarded (tag : str) (attrs : Map) (attr tok : str) (s : State) :
  guarded d s ->
  guarded d (literal_token tag attrs attr tok s)
  /\ weight B D (literal_token tag attrs attr tok s)
     < weight B D s + B ^ (D - length (stack s)).
Proof.
  intros G. unfold literal_token.
  repeat break_match; try (now apply expand_guarded); apply same_guarded; cbn; auto.
Qed.

Lemma no_match_guarded (s s' : State) :
  guarded d s -> no_match s = Some s' ->
  guarded d s' /\ (active s' = false \/ weight B D s' < weight B D s).
Proof.
  intros G H. unfold no_match in H. destruct (stack s) eqn:Es.
  - injection H as <-. split; [|now left].
    revert G. apply guarded_same; reflexivity.
  - destruct (back_guarded G H). auto.
Qed.

(** A round keeps the guard and, unless it ends the read, takes weight off. *)
Lemma step_guarded (s s' : State) :
  guarded d s -> step s = Some s' ->
  guarded d s' /\ (active s' = false \/ weight B D s' < weight B D s).
Proof.
  intros G H.
  assert (Htok : forall rx p (f : State -> State),
    nullable rx = false ->
    regexp_test rx (src s) (pos s) = Some p ->
    (forall s1, guarded d s1 ->
       guarded d (f s1) /\ weight B D (f s1) < weight B D s1 + B ^ (D - length (stack s1))) ->
    guarded d (f (set_pos p s)) /\ weight B D (f (set_pos p s)) < weight B D s).
  { intros rx p f Hn Ht Hf.
    apply regexp_test_token in Ht as (tok & rest & _ & Hp & Hle & _ & Hne).
    specialize (Hne Hn).
    assert (pos s < p) by (destruct tok; [congruence|simpl in Hp; lia]).
    pose proof (@weight_set_pos s p H0 Hle) as Hw.
    destruct (Hf (set_pos p s)) as [G1 Hw1];
      [revert G; apply guarded_same; reflexivity|].
    split; [exact G1|]. cbn [stack set_pos] in Hw1. lia. }
  unfold step in H. destruct (loop s).
  - destruct (regexp_test PRIMARY (src s) (pos s)) as [p|] eqn:Et.
    + injection H as <-.
      destruct (Htok PRIMARY p (top_token (substring (src s) (pos s) p)) eq_refl Et);
        [intros; now apply top_token_guarded|auto].
    + now apply no_match_guarded.
  - destruct (regexp_test ATTLIST (src s) (pos s)) as [p|] eqn:Et; injection H as <-.
    + destruct (Htok ATTLIST p (attlist_token tag attrs (substring (src s) (pos s) p))
                  eq_refl Et); [intros; now apply attlist_token_guarded|auto].
    + split; [|now left]. revert G. apply guarded_same; reflexivity.
  - destruct (lit s) as [l|]; [|discriminate].
    destruct (regexp_test (literal_rx l) (src s) (pos s)) as [p|] eqn:Et.
    + injection H as <-.
      destruct (Htok (literal_rx l) p
                  (literal_token tag attrs attr (substring (src s) (pos s) p)))
        as [G1 Hw1]; auto.
      * now destruct l.
      * intros; now apply literal_token_guarded.
    + now apply no_match_guarded.
Qed.

(** With more fuel than weight the run comes to its end. *)
Lemma run_ends (n : nat) : forall s,
  guarded d s -> weight B D s < n ->
  exists f, run n s = Resolved f \/ run n s = Rejected f.
Proof.
  induction n as [|n IH]; intros s G Hw; [lia|].
  simpl. destruct (active s) eqn:Ea; [|eauto].
  destruct (step s) as [s'|] eqn:Es; [|eauto].
  destruct (step_guarded G Es) as [G' [Hi|Hw']].
  - exists s'. left. now apply run_inactive.
  - apply IH; [exact G'|lia].
Qed.

End Weight.

Lemma start_guarded (source : str) (d : option Map) : guarded d (start source d).
Proof.
  unfold guarded, lockstep. cbn. repeat split; [constructor|].
  intros x [].
Qed.

Lemma start_weight (source : str) (d : option Map) :
  weight (max_len source d + 2) (length (defs_list d)) (start source d)
  < fuel_bound source d.
Proof.
  unfold weight, unread, fuel_bound. cbn [start src pos stack length map texts_weight].
  rewrite Nat.sub_0_r, Nat.add_0_r. apply Nat.lt_succ_r.
  apply Nat.mul_le_mono_r. lia.
Qed.

Lemma run_more (n : nat) : forall s m,
  n <= m ->
  (forall f, run n s = Resolved f -> run m s = Resolved f)
  /\ (forall f, run n s = Rejected f -> run m s = Rejected f).
Proof.
  induction n as [|n IH]; intros s m Hm.
  - simpl. destruct (active s) eqn:Ea.
    + split; discriminate.
    + split; intros f H; [|discriminate]. now rewrite run_inactive.
  - destruct m as [|m]; [lia|]. simpl. destruct (active s); [|auto].
    destruct (step s) as [s'|]; [|auto]. apply IH. lia.
Qed.

Lemma fast_xml_ends (source : str) (d : option Map) (n : nat) :
  fuel_bound source d <= n ->
  exists f, fast_xml_fuel n source d = Resolved f \/ fast_xml_fuel n source d = Rejected f.
Proof.
  intros Hn. unfold fast_xml_fuel.
  apply (@run_ends (max_len source d + 2) (length (defs_list d)) d); try lia.
  - intros k v Hin. apply (max_len_value source) in Hin. lia.
  - apply start_guarded.
  - pose proof (start_weight source d). lia.
Qed.

Lemma expand_guard (ref : str) (s : State) :
  is_char (char_at ref 0) c_hash = false ->
  map_get PREDEFINED ref = None ->
  includes (names s) ref = true ->
  expand ref s = s.
Proof.
  intros H1 H2 H3. unfold expand. now rewrite H1, H2, H3.
Qed.

(** C3: [fast_xml] ends on every document and every table: run for
    [fuel_bound] rounds or more it resolves or rejects, and with the same
    outcome whatever the extra fuel.  A reference to a name that is on the
    guard stack, so any reference that closes a cycle, changes nothing in
    [expand] (no frame, no text), and the round that reads it, at top level
    or in a literal, only moves the cursor past it. *)
Theorem fast_xml_terminates :
  (forall source d n,
     fuel_bound source d <= n ->
     fast_xml_fuel n source d = fast_xml source d
     /\ exists f, fast_xml source d = Resolved f \/ fast_xml source d = Rejected f)
  /\ (forall ref s,
        is_char (char_at ref 0) c_hash = false ->
        map_get PREDEFINED ref = None ->
        includes (names s) ref = true ->
        expand ref s = s
        /\ (forall p,
              loop s = TopLevel ->
              regexp_test PRIMARY (src s) (pos s) = Some p ->
              substring (src s) (pos s) p = reference ref ->
              step s = Some (set_pos p s))
        /\ (forall tag attrs attr,
              is_end (reference ref) (end_ s) = false ->
              literal_token tag attrs attr (reference ref) s = s)).
Proof.
  split.
  - intros source d n Hn.
    destruct (@fast_xml_ends source d _ (le_n _)) as [f Hf].
    split; [|exists f; exact Hf].
    unfold fast_xml in *. unfold fast_xml_fuel in *.
    destruct (@run_more _ (start source d) _ Hn) as [H1 H2].
    destruct Hf as [Hf|Hf]; rewrite Hf; auto.
  - intros ref s H1 H2 H3. split; [now apply expand_guard|]. split.
    + intros p Hl Ht Htok. unfold step. rewrite Hl, Ht, Htok.
      rewrite top_token_reference. f_equal. now apply expand_guard.
    + intros tag attrs attr He. rewrite literal_token_reference by exact He.
      now apply expand_guard.
Qed.

Lemma fast_xml_terminates_witness :
  (exists f, fast_xml doc_cycle (Some defs_cycle) = Resolved f
             \/ fast_xml doc_cycle (Some defs_cycle) = Rejected f)
  /\ expand (js "a") in_cycle = in_cycle
  /\ step in_cycle = Some (set_pos 3 in_cycle).
Proof.
  destruct fast_xml_terminates as [H1 H2].
  split.
  - exact (proj2 (H1 doc_cycle (Some defs_cycle) _ (le_n _))).
  - assert (Ea : includes (names in_cycle) (js "a") = true) by (vm_compute; reflexivity).
    assert (Eh : is_char (char_at (js "a") 0) c_hash = false) by (vm_compute; reflexivity).
    assert (Ep : map_get PREDEFINED (js "a") = None) by (vm_compute; reflexivity).
    destruct (H2 (js "a") in_cycle Eh Ep Ea) as (He & Hs & _).
    split; [exact He|]. apply Hs; vm_compute; reflexivity.
Defined.

(** ** The reparsing example (C1) *)

(** C1: for the table b = (quote)&c;(quote), c = (<d e=(quote)f(quote)/>)
    and the document <a a=(quote)[&b;](quote)>[&b;]</a> the read resolves
    after the hook calls head(empty), otag(a, {a: [(quote)(<d
    e=(quote)f(quote)/>)(quote)]}), text([(quote)(), otag(d, {e: f}),
    ctag(d), text()(quote)]), ctag(a), in this order: at top level the
    replacement is read as markup, with the very calls of the document that
    has the replacement text written in place of the reference, and in the
    attribute value it is literal text with its own references expanded. *)
Theorem reparse_example :
  (exists s, fast_xml doc_reparse (Some defs_reparse) = Resolved s)
  /\ hooks doc_reparse (Some defs_reparse)
     = [head [];
        otag (js "a")
          [(js "a",
            js "[" ++ c_dq :: js "(<d e=" ++ c_dq :: js "f" ++ c_dq :: js "/>)"
               ++ c_dq :: js "]")];
        text_ (js "[" ++ c_dq :: js "(");
        otag (js "d") [(js "e", js "f")];
        ctag (js "d");
        text_ (js ")" ++ c_dq :: js "]");
        ctag (js "a")]
  /\ hooks doc_inline (Some defs_reparse) = hooks doc_reparse (Some defs_reparse).
Proof.
  split; [|split].
  - eexists. vm_compute. reflexivity.
  - vm_compute. reflexivity.
  - vm_compute. reflexivity.
Qed.

(** ** The prolog (C6) *)

Lemma texts_apart_snoc (evs : list Event) (e : Event) :
  texts_apart (evs ++ [e])
  = texts_apart evs && nonempty_text e && negb (ends_with_text evs && is_text e).
Proof.
  induction evs as [|a evs IH]; simpl.
  - destruct (nonempty_text e), (is_text e); reflexivity.
  - rewrite IH. destruct evs as [|b evs]; simpl.
    + destruct (nonempty_text a), (is_text a), (nonempty_text e), (is_text e); reflexivity.
    + destruct (nonempty_text a), (is_text a), (is_text b); simpl; reflexivity.
Qed.

Lemma ends_with_text_snoc (evs : list Event) (e : Event) :
  ends_with_text (evs ++ [e]) = is_text e.
Proof.
  induction evs as [|a evs IH]; simpl; [reflexivity|].
  rewrite IH. destruct (evs ++ [e]) eqn:E; [|reflexivity].
  now destruct evs.
Qed.

Lemma expand_trace (ref : str) (s : State) : trace (expand ref s) = trace s.
Proof. unfold expand. repeat break_match; reflexivity. Qed.

(** What a round adds to the trace. *)
Lemma step_emits (s s' : State) :
  step s = Some s' ->
  (trace s' = trace s /\ (loop s = TopLevel \/ loop s' <> TopLevel))
  \/ (loop s = TopLevel
      /\ exists tag, trace s' = (trace s ++ flushed (text s)) ++ [ctag tag])
  \/ (loop s = TopLevel /\ trace s' = trace s ++ flushed (text s)
      /\ (active s' = false \/ loop s' <> TopLevel))
  \/ (exists tag attrs,
        trace s' = trace s ++ [otag tag attrs]
        \/ trace s' = (trace s ++ [otag tag attrs]) ++ [ctag tag]).
Proof.
  intros H. unfold step in H. destruct (loop s) eqn:El.
  - destruct (regexp_test PRIMARY (src s) (pos s)) as [p|].
    + injection H as <-. unfold top_token.
      destruct (flush_other (set_pos p s)) as (_ & _ & _ & _ & _ & Hlp & _).
      pose proof (flush_trace (set_pos p s)) as Hft. cbn [trace text set_pos] in Hft.
      destruct (is_char _ c_lt).
      * destruct (is_char _ c_slash).
        { destruct (indexOf _ _ _).
          - right. left. split; [reflexivity|]. eexists.
            cbn -[flush]. rewrite Hft. reflexivity.
          - right. right. left. split; [reflexivity|].
            cbn -[flush]. rewrite Hft. auto. }
        destruct (_ && _); [left; split; [reflexivity|now left]|].
        destruct (_ && _); [|left; split; [reflexivity|now left]].
        right. right. left. split; [reflexivity|].
        cbn -[flush]. rewrite Hft. split; [reflexivity|]. right. discriminate.
      * destruct (is_char _ c_amp).
        { left. rewrite expand_trace. split; [reflexivity|now left]. }
        left. split; [reflexivity|now left].
    + left. unfold no_match, back in H. destruct (stack s); injection H as <-; auto.
  - destruct (regexp_test ATTLIST (src s) (pos s)) as [p|]; injection H as <-.
    + unfold attlist_token. destruct (_ || _).
      * right. right. right. exists tag, attrs.
        destruct (negb _); [right|left]; reflexivity.
      * left. destruct (is_char _ c_eq); cbn; rewrite ?El; split; auto;
          right; discriminate.
    + left. cbn. rewrite El. split; [reflexivity|]. right. discriminate.
  - destruct (lit s) as [l|]; [|discriminate].
    destruct (regexp_test (literal_rx l) (src s) (pos s)) as [p|].
    + injection H as <-. unfold literal_token. left.
      destruct (is_end _ _); [cbn; split; [reflexivity|right; discriminate]|].
      destruct (is_char _ c_amp).
      * rewrite expand_trace, expand_loop. cbn. rewrite El.
        split; [reflexivity|right; discriminate].
      * cbn. rewrite El. split; [reflexivity|right; discriminate].
    + left. unfold no_match, back in H.
      destruct (stack s); injection H as <-; cbn; rewrite El;
        (split; [reflexivity|right; discriminate]).
Qed.

Lemma flushed_apart (evs : list Event) (t : str) :
  texts_apart evs = true -> ends_with_text evs = false ->
  texts_apart (evs ++ flushed t) = true.
Proof.
  intros H1 H2. destruct t as [|c t]; simpl; [now rewrite app_nil_r|].
  rewrite texts_apart_snoc, H1, H2. reflexivity.
Qed.

Lemma hd_error_app (A : Type) (a b : list A) (x : A) :
  hd_error a = Some x -> hd_error (a ++ b) = Some x.
Proof. destruct a; [discriminate|auto]. Qed.

Lemma step_hooks_in_order (h : str) (s s' : State) :
  active s = true -> hooks_in_order h s -> step s = Some s' -> hooks_in_order h s'.
Proof.
  intros Ha (Hhd & Hf & Hta & Hend) Hs.
  assert (Hnt : loop s = TopLevel -> ends_with_text (trace s) = false).
  { intros Hl. destruct (ends_with_text (trace s)); [|reflexivity].
    destruct (Hend eq_refl); congruence. }
  destruct (@step_emits s s' Hs)
    as [[Ht Hl]|[(Hl & tag & Ht)|[(Hl & Ht & Hal)|(tag & attrs & [Ht|Ht])]]];
    unfold hooks_in_order; rewrite Ht.
  - repeat split; auto. intros He. destruct Hl as [Hl|Hl]; [|now right].
    rewrite (Hnt Hl) in He. discriminate.
  - repeat split.
    + now rewrite <- app_assoc; apply hd_error_app.
    + rewrite !filter_app, Hf. destruct (text s); reflexivity.
    + rewrite texts_apart_snoc, flushed_apart; auto. simpl. now rewrite andb_false_r.
    + rewrite ends_with_text_snoc. discriminate.
  - repeat split; auto.
    + now apply hd_error_app.
    + rewrite !filter_app, Hf. destruct (text s); reflexivity.
    + apply flushed_apart; auto.
  - repeat split.
    + now apply hd_error_app.
    + rewrite !filter_app, Hf. reflexivity.
    + rewrite texts_apart_snoc, Hta. simpl. now rewrite andb_false_r.
    + rewrite ends_with_text_snoc. discriminate.
  - repeat split.
    + now rewrite <- app_assoc; apply hd_error_app.
    + rewrite !filter_app, Hf. reflexivity.
    + rewrite !texts_apart_snoc, Hta. simpl. now rewrite !andb_false_r.
    + rewrite ends_with_text_snoc. discriminate.
Qed.

Lemma run_hooks_in_order (h : str) (n : nat) : forall s,
  hooks_in_order h s -> hooks_in_order h (outcome_state (run n s)).
Proof.
  induction n as [|n IH]; intros s H; simpl.
  - destruct (active s); exact H.
  - destruct (active s) eqn:Ea; [|exact H].
    destruct (step s) as [s'|] eqn:Es; [|exact H].
    apply IH. eapply step_hooks_in_order; eassumption.
Qed.

Lemma start_hooks_in_order (source : str) (d : option Map) :
  hooks_in_order (substring source 0 (prolog_end source)) (start source d).
Proof.
  unfold hooks_in_order. cbn. repeat split; auto.
Qed.

(** The prolog of a document that starts with a tag is empty. *)
Lemma prolog_end_tag (c : char) (rest : str) :
  mem c [c_bang; c_quest] = false -> prolog_end (c_lt :: c :: rest) = 0.
Proof.
  rewrite !mem_cons, mem_nil. intros H.
  apply orb_false_iff in H as [Hb H]. apply orb_false_iff in H as [Hq _].
  unfold prolog_end, regexp_test. cbn [length Nat.ltb Nat.leb skipn].
  unfold PROLOG. cbn [rx_match length star_greedy].
  cbn [rx_match js list_ascii_of_string map strip Plus].
  unname_chars. rewrite Hb, Hq. eval_chars. cbv iota.
  rewrite mem_cons. eval_chars. cbn [orb].
  now rewrite Nat.sub_diag.
Qed.

(** The head hook is called once, first, with the text before
    [prolog_end], and with the empty string when the document starts with
    a tag. *)
Lemma head_called_once_first (source : str) (d : option Map) (n : nat) :
  let evs := trace (outcome_state (run n (start source d))) in
  hd_error evs = Some (head (substring source 0 (prolog_end source)))
  /\ filter is_head evs = [head (substring source 0 (prolog_end source))].
Proof.
  destruct (@run_hooks_in_order _ n _ (start_hooks_in_order source d)) as (H1 & H2 & _).
  split; assumption.
Qed.

Lemma has_sub_eq (pat s : str) :
  has_sub pat s = match strip pat s with
                  | Some _ => true
                  | None => match s with [] => false | _ :: s' => has_sub pat s' end
                  end.
Proof. destruct s; reflexivity. Qed.

Lemma occurs_has_sub (pat s : str) : occurs pat s -> has_sub pat s = true.
Proof.
  intros (a & b & ->). induction a as [|x a IH]; rewrite has_sub_eq.
  - cbn [app]. now rewrite strip_prefix.
  - cbn [app]. destruct (strip pat (x :: a ++ pat ++ b)); [reflexivity|exact IH].
Qed.

(** C6 at a failing input: the comment that opens [doc_comment] is
    ignorable content, 14 characters long, yet the scan stops after 7, at
    the markup inside the comment: the head hook gets the 7 characters and
    the reader goes on to call hooks for the commented-out tag. *)
Theorem prolog_stops_in_comment :
  doc_comment = js "<!-- > <b> -->" ++ js "<a/>"
  /\ ignorables (js "<!-- > <b> -->")
  /\ prolog_end doc_comment = 7
  /\ hooks doc_comment None
     = [head (js "<!-- > "); otag (js "b") []; text_ (js " -->");
        otag (js "a") []; ctag (js "a")]
  /\ ~ longest_ignorable_prefix doc_comment
        (substring doc_comment 0 (prolog_end doc_comment)).
Proof.
  assert (Hign : ignorables (js "<!-- > <b> -->")).
  { change (js "<!-- > <b> -->") with ((js "<!--" ++ js " > <b> " ++ js "-->") ++ []).
    constructor; [|constructor]. apply ignorable_comment.
    intros H. apply occurs_has_sub in H. vm_compute in H. discriminate. }
  split; [reflexivity|]. split; [exact Hign|].
  split; [vm_compute; reflexivity|]. split; [vm_compute; reflexivity|].
  intros (_ & _ & Hmax).
  specialize (Hmax (js "<!-- > <b> -->") (js "<a/>") eq_refl Hign).
  vm_compute in Hmax. lia.
Qed.

(** ** The matcher on well-formed tokens *)

Lemma star_none_of (cs : list char) (k : cont) (rest : str) :
  stops_at cs rest = true -> k rest <> None ->
  forall xs fuel,
    none_of cs xs = true -> length (xs ++ rest) <= fuel ->
    star_greedy (rx_match (NoneOf cs)) fuel (xs ++ rest) k = k rest.
Proof.
  intros Hstop Hk. induction xs as [|c xs IH]; intros fuel Hrun Hfuel.
  - cbn [app]. destruct fuel as [|f]; [reflexivity|]. cbn [star_greedy rx_match].
    destruct rest as [|c r]; [reflexivity|]. cbn [stops_at] in Hstop. now rewrite Hstop.
  - cbn [app] in *. destruct fuel as [|f]; [cbn in Hfuel; lia|].
    cbn [none_of forallb] in Hrun. apply andb_true_iff in Hrun as [Hc Hrun].
    apply negb_true_iff in Hc.
    cbn [star_greedy rx_match]. rewrite Hc. unfold progress at 1.
    replace (length (xs ++ rest) <? length (c :: xs ++ rest)) with true
      by (symmetry; apply Nat.ltb_lt; cbn; lia).
    rewrite IH by (auto; cbn in Hfuel; lia).
    destruct (k rest); [reflexivity|congruence].
Qed.

Lemma plus_none_of (cs : list char) (k : cont) (xs rest : str) :
  xs <> [] -> none_of cs xs = true -> stops_at cs rest = true -> k rest <> None ->
  rx_match (Plus (NoneOf cs)) (xs ++ rest) k = k rest.
Proof.
  intros Hne Hrun Hstop Hk. destruct xs as [|c xs]; [congruence|].
  cbn [none_of forallb] in Hrun. apply andb_true_iff in Hrun as [Hc Hrun].
  apply negb_true_iff in Hc.
  unfold Plus. cbn [rx_match app]. rewrite Hc.
  now apply star_none_of.
Qed.

Lemma plus_none_of_fail (cs : list char) (k : cont) (s : str) :
  stops_at cs s = true -> rx_match (Plus (NoneOf cs)) s k = None.
Proof.
  intros H. unfold Plus. cbn [rx_match]. destruct s as [|c s]; [reflexivity|].
  cbn [stops_at] in H. now rewrite H.
Qed.

Lemma star_one_of (cs : list char) (k : cont) (rest : str) :
  starts_in cs rest = false -> k rest <> None ->
  forall xs fuel,
    all_of cs xs = true -> length (xs ++ rest) <= fuel ->
    star_greedy (rx_match (OneOf cs)) fuel (xs ++ rest) k = k rest.
Proof.
  intros Hstop Hk. induction xs as [|c xs IH]; intros fuel Hrun Hfuel.
  - cbn [app]. destruct fuel as [|f]; [reflexivity|]. cbn [star_greedy rx_match].
    destruct rest as [|c r]; [reflexivity|]. cbn [starts_in] in Hstop. now rewrite Hstop.
  - cbn [app] in *. destruct fuel as [|f]; [cbn in Hfuel; lia|].
    cbn [all_of forallb] in Hrun. apply andb_true_iff in Hrun as [Hc Hrun].
    cbn [star_greedy rx_match]. rewrite Hc. unfold progress at 1.
    replace (length (xs ++ rest) <? length (c :: xs ++ rest)) with true
      by (symmetry; apply Nat.ltb_lt; cbn; lia).
    rewrite IH by (auto; cbn in Hfuel; lia).
    destruct (k rest); [reflexivity|congruence].
Qed.

Lemma plus_one_of (cs : list char) (k : cont) (xs rest : str) :
  xs <> [] -> all_of cs xs = true -> starts_in cs rest = false -> k rest <> None ->
  rx_match (Plus (OneOf cs)) (xs ++ rest) k = k rest.
Proof.
  intros Hne Hrun Hstop Hk. destruct xs as [|c xs]; [congruence|].
  cbn [all_of forallb] in Hrun. apply andb_true_iff in Hrun as [Hc Hrun].
  unfold Plus. cbn [rx_match app]. rewrite Hc.
  now apply star_one_of.
Qed.

Lemma plus_one_of_fail (cs : list char) (k : cont) (s : str) :
  starts_in cs s = false -> rx_match (Plus (OneOf cs)) s k = None.
Proof.
  intros H. unfold Plus. cbn [rx_match]. destruct s as [|c s]; [reflexivity|].
  cbn [starts_in] in H. now rewrite H.
Qed.

Lemma strip_app_none (pat x rest : str) :
  strip pat x = None -> length pat <= length x -> strip pat (x ++ rest) = None.
Proof.
  revert x. induction pat as [|a pat IH]; intros x H Hlen; [discriminate|].
  destruct x as [|b x]; [cbn in Hlen; lia|]. cbn [strip app] in *.
  destruct (char_eqb b a); [|reflexivity]. apply IH; [exact H|cbn in Hlen; lia].
Qed.

Lemma ends_first_spec (pat body rest : str) (i : nat) :
  ends_first pat body = true -> i < length body ->
  strip pat (skipn i (body ++ pat ++ rest)) = None.
Proof.
  intros H Hi. unfold ends_first in H. rewrite forallb_forall in H.
  specialize (H i). rewrite in_seq in H. specialize (H ltac:(lia)).
  destruct (strip pat (skipn i (body ++ pat))) eqn:E; [discriminate|].
  rewrite app_assoc. rewrite skipn_app.
  replace (i - length (body ++ pat)) with 0 by (rewrite length_app; lia).
  cbn [skipn]. apply strip_app_none; [exact E|].
  rewrite length_skipn, length_app. lia.
Qed.

Lemma rx_match_lit (l s : str) (k : cont) :
  rx_match (Lit l) s k = match strip l s with Some s' => k s' | None => None end.
Proof. reflexivity. Qed.

Lemma lazy_until (pat : str) (k : cont) (rest : str) :
  k rest <> None ->
  forall body fuel,
    (forall i, i < length body -> strip pat (skipn i (body ++ pat ++ rest)) = None) ->
    length (body ++ pat ++ rest) <= fuel ->
    star_lazy (rx_match Any) fuel (body ++ pat ++ rest)
              (fun s => rx_match (Lit pat) s k) = k rest.
Proof.
  intros Hk. induction body as [|c body IH]; intros fuel Hno Hfuel.
  - cbn [app]. assert (E : rx_match (Lit pat) (pat ++ rest) k = k rest).
    { cbn [rx_match]. now rewrite strip_prefix. }
    destruct fuel as [|f]; cbn [star_lazy]; rewrite E; [reflexivity|].
    destruct (k rest); [reflexivity|congruence].
  - destruct fuel as [|f]; [cbn in Hfuel; lia|].
    cbn [star_lazy]. pose proof (Hno 0 ltac:(cbn; lia)) as H0. cbn [skipn app] in H0.
    rewrite rx_match_lit. cbn [app]. rewrite H0. cbn [rx_match]. unfold progress at 1.
    replace (length (body ++ pat ++ rest) <? length (c :: body ++ pat ++ rest)) with true
      by (symmetry; apply Nat.ltb_lt; cbn; lia).
    apply IH.
    + intros i Hi. apply (Hno (S i)). cbn. lia.
    + cbn in Hfuel. lia.
Qed.

Lemma rx_match_alt (a b : regex) (s : str) (k : cont) :
  rx_match (a <|> b) s k
  = match rx_match a s k with Some r => Some r | None => rx_match b s k end.
Proof. reflexivity. Qed.

Lemma rx_match_seq (a b : regex) (s : str) (k : cont) :
  rx_match (a ~> b) s k = rx_match a s (fun s' => rx_match b s' k).
Proof. reflexivity. Qed.

Lemma lit_seq_fail (l : str) (r : regex) (s : str) (k : cont) :
  strip l s = None -> rx_match (Lit l ~> r) s k = None.
Proof. intros H. rewrite rx_match_seq, rx_match_lit. now rewrite H. Qed.

Lemma lit_seq_pass (l : str) (r : regex) (s : str) (k : cont) :
  rx_match (Lit l ~> r) (l ++ s) k = rx_match r s k.
Proof. rewrite rx_match_seq, rx_match_lit. now rewrite strip_prefix. Qed.

Lemma mem_false_cons (c x : char) (cs : list char) :
  mem c (x :: cs) = false -> char_eqb c x = false /\ mem c cs = false.
Proof. rewrite mem_cons. apply orb_false_iff. Qed.

(** Split the facts on the first character of a checked string. *)
Ltac split_mem :=
  repeat match goal with
  | H : mem _ (_ :: _) = false |- _ =>
      apply mem_false_cons in H; destruct H as [? H]
  | H : mem _ [] = false |- _ => clear H
  end.

(** A literal prefix that the text does not start with. *)
Ltac strip_none :=
  cbn [js list_ascii_of_string map strip app]; unname_chars; eval_chars;
  repeat match goal with
  | H : char_eqb ?c ?x = false |- context [char_eqb ?c ?x] => rewrite H
  end;
  eval_chars; reflexivity.

Lemma primary_text (xs rest : str) :
  xs <> [] -> none_of [c_lt; c_amp] xs = true -> stops_at [c_lt; c_amp] rest = true ->
  rx_match PRIMARY (xs ++ rest) (fun r => Some r) = Some rest.
Proof.
  intros Hne Hxs Hrest. unfold PRIMARY. rewrite !rx_match_alt.
  assert (Hc : match xs with c :: _ => mem c [c_lt; c_amp] = false | [] => True end).
  { destruct xs as [|c xs]; [exact I|]. cbn [none_of forallb] in Hxs.
    apply andb_true_iff in Hxs as [Hc _]. now apply negb_true_iff in Hc. }
  destruct xs as [|c xs]; [congruence|]. split_mem.
  rewrite !lit_seq_fail by strip_none.
  apply plus_none_of; auto. discriminate.
Qed.

Lemma name_ok_first (tag : str) :
  name_ok tag = true ->
  exists c tag', tag = c :: tag' /\ mem c name_stop = false
                 /\ mem c [c_bang; c_quest] = false /\ none_of name_stop tag = true.
Proof.
  unfold name_ok. intros H. apply andb_true_iff in H as [H H3].
  apply andb_true_iff in H as [H1 H2].
  destruct tag as [|c tag']; [discriminate|]. exists c, tag'.
  cbn [stops_at] in H3. apply negb_true_iff in H3.
  pose proof H2 as H2'. cbn [none_of forallb] in H2'.
  apply andb_true_iff in H2' as [Hc _]. apply negb_true_iff in Hc. auto.
Qed.

Lemma primary_open (tag rest : str) :
  name_ok tag = true -> stops_at name_stop rest = true ->
  rx_match PRIMARY (c_lt :: tag ++ rest) (fun r => Some r) = Some rest.
Proof.
  intros Hn Hrest. apply name_ok_first in Hn as (c & tag' & -> & Hs & Hb & Hall).
  unfold PRIMARY, name_stop in *. rewrite !rx_match_alt. split_mem.
  rewrite !lit_seq_fail by strip_none.
  change (c_lt :: (c :: tag') ++ rest) with (js "<" ++ (c :: tag') ++ rest).
  rewrite lit_seq_pass. unfold Opt. rewrite rx_match_seq, rx_match_alt.
  rewrite (rx_match_lit (js "/")).
  replace (strip (js "/") ((c :: tag') ++ rest)) with (@None str) by (symmetry; strip_none).
  rewrite rx_match_lit. cbn [strip].
  rewrite plus_none_of; [reflexivity|discriminate|assumption|assumption|discriminate].
Qed.

Lemma primary_close (tag rest : str) :
  name_ok tag = true -> stops_at name_stop rest = true ->
  rx_match PRIMARY (c_lt :: c_slash :: tag ++ rest) (fun r => Some r) = Some rest.
Proof.
  intros Hn Hrest. apply name_ok_first in Hn as (c & tag' & -> & Hs & Hb & Hall).
  unfold PRIMARY. rewrite !rx_match_alt.
  rewrite !lit_seq_fail by strip_none.
  change (c_lt :: c_slash :: (c :: tag') ++ rest)
    with (js "<" ++ js "/" ++ (c :: tag') ++ rest).
  rewrite lit_seq_pass. unfold Opt. rewrite rx_match_seq, rx_match_alt.
  rewrite (rx_match_lit (js "/")), strip_prefix.
  rewrite plus_none_of; [reflexivity|discriminate|assumption|assumption|discriminate].
Qed.

Lemma primary_eof : rx_match PRIMARY [] (fun r => Some r) = None.
Proof. reflexivity. Qed.

Lemma lazy_token (pat body rest : str) :
  (forall i, i < length body -> strip pat (skipn i (body ++ pat ++ rest)) = None) ->
  rx_match (LazyStar Any ~> Lit pat) (body ++ pat ++ rest) (fun r => Some r) = Some rest.
Proof.
  intros H. rewrite rx_match_seq. cbn [rx_match].
  change (fun s' => match strip pat s' with Some s'0 => Some s'0 | None => None end)
    with (fun s' => rx_match (Lit pat) s' (fun r => Some r)).
  apply (@lazy_until pat (fun r => Some r) rest); [discriminate|exact H|lia].
Qed.

Lemma primary_cdata (t rest : str) :
  ends_first (js "]]>") t = true ->
  rx_match PRIMARY (js "<![CDATA[" ++ t ++ js "]]>" ++ rest) (fun r => Some r) = Some rest.
Proof.
  intros Ht. unfold PRIMARY. rewrite !rx_match_alt.
  rewrite lit_seq_fail by strip_none.
  change (js "<![CDATA[" ++ t ++ js "]]>" ++ rest)
    with (js "<![" ++ (js "CDATA[" ++ t) ++ js "]]>" ++ rest).
  rewrite lit_seq_pass. rewrite lazy_token; [reflexivity|].
  intros i Hi.
  do 6 (destruct i as [|i]; [strip_none|]).
  refine (@ends_first_spec (js "]]>") t rest i Ht _).
  rewrite length_app in Hi. cbn in Hi. lia.
Qed.

Lemma primary_comment (t rest : str) :
  ends_first (js "-->") (c_dash :: t) = true ->
  rx_match PRIMARY (js "<!--" ++ t ++ js "-->" ++ rest) (fun r => Some r) = Some rest.
Proof.
  intros Ht. unfold PRIMARY. rewrite !rx_match_alt.
  rewrite !lit_seq_fail by strip_none.
  change (js "<!--" ++ t ++ js "-->" ++ rest)
    with (js "<!-" ++ (c_dash :: t) ++ js "-->" ++ rest).
  rewrite lit_seq_pass. rewrite lazy_token; [reflexivity|].
  intros i Hi. now apply ends_first_spec.
Qed.

Lemma primary_instruction (t rest : str) :
  ends_first (js "?>") t = true ->
  rx_match PRIMARY (js "<?" ++ t ++ js "?>" ++ rest) (fun r => Some r) = Some rest.
Proof.
  intros Ht. unfold PRIMARY. rewrite !rx_match_alt.
  rewrite !lit_seq_fail by strip_none.
  rewrite lit_seq_pass. rewrite lazy_token; [reflexivity|].
  intros i Hi. now apply ends_first_spec.
Qed.

Lemma ws_char_cases (c : char) :
  mem c ws_chars = true -> c = c_sp \/ c = c_tab \/ c = c_cr \/ c = c_lf.
Proof.
  unfold ws_chars. rewrite !mem_cons, mem_nil, !orb_true_iff, !char_eqb_eq.
  intuition discriminate.
Qed.

Lemma attlist_space (xs rest : str) :
  xs <> [] -> all_of ws_chars xs = true -> starts_in ws_chars rest = false ->
  rx_match ATTLIST (xs ++ rest) (fun r => Some r) = Some rest.
Proof.
  intros Hne Hxs Hrest. unfold ATTLIST. rewrite !rx_match_alt.
  assert (Halt : rx_match (Opt (Lit (js "/")) ~> Lit (js ">")) (xs ++ rest)
                 (fun r => Some r) = None).
  { destruct xs as [|c xs]; [congruence|]. cbn [all_of forallb] in Hxs.
    apply andb_true_iff in Hxs as [Hc _].
    unfold Opt. rewrite rx_match_seq, rx_match_alt, !rx_match_lit.
    apply ws_char_cases in Hc as [-> | [-> | [-> | ->]]]; reflexivity. }
  rewrite Halt.
  rewrite plus_one_of; [reflexivity|assumption|assumption|assumption|discriminate].
Qed.

Lemma attr_name_ok_first (nm : str) :
  attr_name_ok nm = true ->
  exists c nm', nm = c :: nm' /\ mem c (c_slash :: c_gt :: ws_chars) = false
                /\ none_of [c_eq] nm = true.
Proof.
  unfold attr_name_ok. intros H. apply andb_true_iff in H as [H H3].
  apply andb_true_iff in H as [H1 H2].
  destruct nm as [|c nm']; [discriminate|]. exists c, nm'.
  cbn [stops_at] in H3. apply negb_true_iff in H3. auto.
Qed.

Lemma attlist_head (nm : str) (q : char) (rest : str) :
  attr_name_ok nm = true -> mem q [c_dq; c_sq] = true ->
  rx_match ATTLIST (nm ++ c_eq :: q :: rest) (fun r => Some r) = Some rest.
Proof.
  intros Hn Hq. apply attr_name_ok_first in Hn as (c & nm' & -> & Hc & Hall).
  unfold ATTLIST. rewrite !rx_match_alt.
  pose proof Hc as Hws. unfold ws_chars in Hc. split_mem.
  assert (Halt : rx_match (Opt (Lit (js "/")) ~> Lit (js ">"))
                 ((c :: nm') ++ c_eq :: q :: rest) (fun r => Some r) = None).
  { unfold Opt. rewrite rx_match_seq, rx_match_alt, !rx_match_lit.
    cbn [js list_ascii_of_string map strip app]. unname_chars.
    rewrite H1. cbn [rx_match strip]. now rewrite H2. }
  rewrite Halt.
  rewrite plus_one_of_fail.
  2:{ cbn [app starts_in]. exact Hws. }
  rewrite rx_match_seq.
  rewrite plus_none_of; try assumption; try discriminate.
  - rewrite rx_match_seq, rx_match_lit.
    change (c_eq :: q :: rest) with (js "=" ++ q :: rest). rewrite strip_prefix.
    cbn [rx_match]. now rewrite Hq.
  - reflexivity.
  - rewrite rx_match_seq, rx_match_lit.
    change (c_eq :: q :: rest) with (js "=" ++ q :: rest). rewrite strip_prefix.
    cbn [rx_match]. rewrite Hq. discriminate.
Qed.

Lemma attlist_gt (rest : str) :
  rx_match ATTLIST (c_gt :: rest) (fun r => Some r) = Some rest.
Proof. reflexivity. Qed.

Lemma attlist_void (rest : str) :
  rx_match ATTLIST (c_slash :: c_gt :: rest) (fun r => Some r) = Some rest.
Proof. reflexivity. Qed.

Lemma quote_cases (q : char) : mem q [c_dq; c_sq] = true -> q = c_dq \/ q = c_sq.
Proof.
  rewrite !mem_cons, mem_nil, !orb_true_iff, !char_eqb_eq. intuition discriminate.
Qed.

Lemma literal_run (q : char) (xs rest : str) :
  mem q [c_dq; c_sq] = true -> xs <> [] -> none_of [q; c_amp] xs = true ->
  rx_match (literal_rx (literal_of q)) (xs ++ q :: rest) (fun r => Some r)
  = Some (q :: rest).
Proof.
  intros Hq Hne Hxs. destruct xs as [|c xs]; [congruence|].
  pose proof Hxs as Hc. cbn [none_of forallb] in Hc.
  apply andb_true_iff in Hc as [Hc _]. apply negb_true_iff in Hc.
  apply quote_cases in Hq as [-> | ->];
    change (literal_of c_dq) with DQ_ATTR; change (literal_of c_sq) with SQ_ATTR;
    cbn [literal_rx]; rewrite !rx_match_alt; split_mem;
    rewrite lit_seq_fail by strip_none;
    rewrite rx_match_lit;
    match goal with |- context [strip ?l ?s] =>
      replace (strip l s) with (@None str) by (symmetry; strip_none) end;
    (rewrite plus_none_of; [reflexivity|discriminate|assumption| |discriminate]);
    cbn [stops_at]; rewrite mem_cons, char_eqb_refl; reflexivity.
Qed.

Lemma literal_quote (q : char) (rest : str) :
  mem q [c_dq; c_sq] = true ->
  rx_match (literal_rx (literal_of q)) (q :: rest) (fun r => Some r) = Some rest.
Proof.
  intros Hq. apply quote_cases in Hq as [-> | ->]; reflexivity.
Qed.

(** ** Rounds on well-formed tokens *)

Lemma test_ahead (rx : regex) (s : State) (tok rest : str) :
  tok <> [] -> ahead s = tok ++ rest ->
  rx_match rx (tok ++ rest) (fun r => Some r) = Some rest ->
  regexp_test rx (src s) (pos s) = Some (length (src s) - length rest)
  /\ substring (src s) (pos s) (length (src s) - length rest) = tok
  /\ skipn (length (src s) - length rest) (src s) = rest.
Proof.
  unfold ahead. intros Hne Ha Hm.
  assert (Hlen : length (src s) - pos s = length tok + length rest).
  { rewrite <- length_skipn, Ha, length_app. reflexivity. }
  assert (Htok : 0 < length tok) by (destruct tok; [congruence|cbn; lia]).
  assert (Hp : length (src s) - length rest = pos s + length tok) by lia.
  unfold regexp_test.
  replace (length (src s) <? pos s) with false by (symmetry; apply Nat.ltb_ge; lia).
  rewrite Ha, Hm. split; [reflexivity|]. rewrite Hp. split.
  - rewrite substring_spec by lia.
    replace (pos s + length tok - pos s) with (length tok) by lia.
    rewrite Ha, firstn_app, Nat.sub_diag, firstn_all. cbn. apply app_nil_r.
  - rewrite Nat.add_comm, <- skipn_skipn, Ha, skipn_app, Nat.sub_diag, skipn_all.
    reflexivity.
Qed.

Lemma moves_set_pos (s : State) (rest : str) :
  skipn (length (src s) - length rest) (src s) = rest ->
  moves s (set_pos (length (src s) - length rest) s) rest.
Proof. intros H. unfold moves, ahead. cbn. auto 10. Qed.

Lemma moves_same (s s1 s2 : State) (rest : str) :
  moves s s1 rest ->
  src s2 = src s1 -> pos s2 = pos s1 -> defs s2 = defs s1 -> stack s2 = stack s1 ->
  names s2 = names s1 -> active s2 = active s1 ->
  moves s s2 rest.
Proof.
  unfold moves, ahead. intros (H1 & H2 & H3 & H4 & H5 & H6) E1 E2 E3 E4 E5 E6.
  rewrite E1, E2, E3, E4, E5, E6. auto 10.
Qed.

Lemma step_text (s : State) (xs rest : str) :
  loop s = TopLevel -> ahead s = xs ++ rest ->
  xs <> [] -> none_of [c_lt; c_amp] xs = true -> stops_at [c_lt; c_amp] rest = true ->
  exists s', step s = Some s' /\ moves s s' rest /\ loop s' = TopLevel
             /\ text s' = text s ++ xs /\ trace s' = trace s.
Proof.
  intros Hl Ha Hne Hxs Hrest.
  destruct (@test_ahead PRIMARY s xs rest Hne Ha (@primary_text xs rest Hne Hxs Hrest))
    as (Ht & Htok & Hskip).
  unfold step. rewrite Hl, Ht, Htok. eexists. split; [reflexivity|].
  unfold top_token. destruct xs as [|c xs]; [congruence|].
  cbn [none_of forallb] in Hxs. apply andb_true_iff in Hxs as [Hc _].
  apply negb_true_iff in Hc. split_mem.
  cbn [char_at nth_error is_char]. rewrite H, H0.
  repeat split; try reflexivity; try assumption.
Qed.

Lemma slice_cdata (t : str) : slice (js "<![CDATA[" ++ t ++ js "]]>") 9 (-3) = t.
Proof.
  unfold slice, rel_index. cbn [Z.ltb Z.compare].
  rewrite !length_app. cbn [js list_ascii_of_string map length].
  replace (Nat.min (Z.to_nat 9) (9 + (length t + 3))) with 9 by lia.
  replace (Z.to_nat (Z.max (Z.of_nat (9 + (length t + 3)) + -3) 0)) with (9 + length t) by lia.
  replace (9 + length t - 9) with (length t) by lia.
  cbn [skipn app]. rewrite firstn_app, Nat.sub_diag, firstn_all. cbn. apply app_nil_r.
Qed.

Lemma at_last2 (xs : str) (a b : char) : at_ (xs ++ [a; b]) (-2) = Some a.
Proof.
  unfold at_. cbn [Z.ltb Z.compare]. rewrite length_app. cbn [length].
  replace (Z.of_nat (length xs + 2) + -2 <? 0)%Z with false by (symmetry; apply Z.ltb_ge; lia).
  replace (Z.to_nat (Z.of_nat (length xs + 2) + -2)) with (length xs + 0) by lia.
  now rewrite nth_error_app2, Nat.add_comm, Nat.add_sub by lia.
Qed.

Lemma at_last1 (xs : str) (a b : char) : at_ (xs ++ [a; b]) (-1) = Some b.
Proof.
  unfold at_. cbn [Z.ltb Z.compare]. rewrite length_app. cbn [length].
  replace (Z.of_nat (length xs + 2) + -1 <? 0)%Z with false by (symmetry; apply Z.ltb_ge; lia).
  replace (Z.to_nat (Z.of_nat (length xs + 2) + -1)) with (length xs + 1) by lia.
  now rewrite nth_error_app2, Nat.add_comm, Nat.add_sub by lia.
Qed.

Lemma slice_drop2 (xs : str) (a b : char) : slice (xs ++ [a; b]) 0 (-2) = xs.
Proof.
  unfold slice, rel_index. cbn [Z.ltb Z.compare]. rewrite length_app. cbn [length].
  replace (Nat.min (Z.to_nat 0) (length xs + 2)) with 0 by lia.
  replace (Z.to_nat (Z.max (Z.of_nat (length xs + 2) + -2) 0)) with (length xs) by lia.
  rewrite Nat.sub_0_r. cbn [skipn]. rewrite firstn_app, Nat.sub_diag, firstn_all. cbn.
  apply app_nil_r.
Qed.

Lemma at_In (xs : str) (i : Z) (c : char) : at_ xs i = Some c -> In c xs.
Proof.
  unfold at_. destruct (_ <? 0)%Z; [discriminate|]. apply nth_error_In.
Qed.

Lemma step_cdata (s : State) (t rest : str) :
  loop s = TopLevel -> ahead s = (js "<![CDATA[" ++ t ++ js "]]>") ++ rest ->
  ends_first (js "]]>") t = true ->
  exists s', step s = Some s' /\ moves s s' rest /\ loop s' = TopLevel
             /\ text s' = text s ++ t /\ trace s' = trace s.
Proof.
  intros Hl Ha Ht.
  destruct (@test_ahead PRIMARY s (js "<![CDATA[" ++ t ++ js "]]>") rest) as (Hr & Htok & Hskip);
    [discriminate|exact Ha| |].
  { rewrite <- !app_assoc. now apply primary_cdata. }
  unfold step. rewrite Hl, Hr, Htok. eexists. split; [reflexivity|].
  unfold top_token.
  change (is_char (char_at (js "<![CDATA[" ++ t ++ js "]]>") 0) c_lt) with true.
  change (is_char (char_at (js "<![CDATA[" ++ t ++ js "]]>") 1) c_slash) with false.
  change (is_char (char_at (js "<![CDATA[" ++ t ++ js "]]>") 1) c_bang) with true.
  change (is_char (char_at (js "<![CDATA[" ++ t ++ js "]]>") 2) c_lbrack) with true.
  cbv iota. cbn [andb]. rewrite slice_cdata.
  repeat split; try reflexivity; try assumption.
Qed.

Lemma step_comment (s : State) (t rest : str) :
  loop s = TopLevel -> ahead s = (js "<!--" ++ t ++ js "-->") ++ rest ->
  ends_first (js "-->") (c_dash :: t) = true ->
  exists s', step s = Some s' /\ moves s s' rest /\ loop s' = TopLevel
             /\ text s' = text s /\ trace s' = trace s.
Proof.
  intros Hl Ha Ht.
  destruct (@test_ahead PRIMARY s (js "<!--" ++ t ++ js "-->") rest) as (Hr & Htok & Hskip);
    [discriminate|exact Ha| |].
  { rewrite <- !app_assoc. now apply primary_comment. }
  unfold step. rewrite Hl, Hr, Htok. eexists. split; [reflexivity|].
  unfold top_token.
  change (is_char (char_at (js "<!--" ++ t ++ js "-->") 0) c_lt) with true.
  change (is_char (char_at (js "<!--" ++ t ++ js "-->") 1) c_slash) with false.
  change (is_char (char_at (js "<!--" ++ t ++ js "-->") 1) c_bang) with true.
  change (is_char (char_at (js "<!--" ++ t ++ js "-->") 2) c_lbrack) with false.
  cbv iota. cbn [andb negb].
  repeat split; try reflexivity; try assumption.
Qed.

Lemma step_instruction (s : State) (t rest : str) :
  loop s = TopLevel -> ahead s = (js "<?" ++ t ++ js "?>") ++ rest ->
  ends_first (js "?>") t = true ->
  exists s', step s = Some s' /\ moves s s' rest /\ loop s' = TopLevel
             /\ text s' = text s /\ trace s' = trace s.
Proof.
  intros Hl Ha Ht.
  destruct (@test_ahead PRIMARY s (js "<?" ++ t ++ js "?>") rest) as (Hr & Htok & Hskip);
    [discriminate|exact Ha| |].
  { rewrite <- !app_assoc. now apply primary_instruction. }
  unfold step. rewrite Hl, Hr, Htok. eexists. split; [reflexivity|].
  unfold top_token.
  change (is_char (char_at (js "<?" ++ t ++ js "?>") 0) c_lt) with true.
  change (is_char (char_at (js "<?" ++ t ++ js "?>") 1) c_slash) with false.
  change (is_char (char_at (js "<?" ++ t ++ js "?>") 1) c_bang) with false.
  change (is_char (char_at (js "<?" ++ t ++ js "?>") 1) c_quest) with true.
  cbv iota. cbn [andb negb].
  repeat split; try reflexivity; try assumption.
Qed.

Lemma moves_flush (s s1 : State) (rest : str) :
  moves s s1 rest -> moves s (flush s1) rest.
Proof.
  intros H. destruct (flush_other s1) as (H1 & H2 & H3 & H4 & H5 & _ & _ & H8 & _).
  eapply moves_same; [exact H|..]; assumption.
Qed.

Lemma step_open (s : State) (tag rest : str) :
  loop s = TopLevel -> ahead s = (c_lt :: tag) ++ rest ->
  name_ok tag = true -> stops_at name_stop rest = true ->
  exists s', step s = Some s' /\ moves s s' rest /\ loop s' = AttList tag []
             /\ text s' = [] /\ trace s' = trace s ++ flushed (text s).
Proof.
  intros Hl Ha Hn Hrest.
  destruct (@test_ahead PRIMARY s (c_lt :: tag) rest) as (Hr & Htok & Hskip);
    [discriminate|exact Ha| |].
  { now apply primary_open. }
  unfold step. rewrite Hl, Hr, Htok. eexists. split; [reflexivity|].
  apply name_ok_first in Hn as (c & tag' & -> & Hs & Hb & _).
  unfold top_token, name_stop in *. split_mem.
  cbn [char_at nth_error is_char]. rewrite H1, H, H0. eval_chars. cbn [andb negb].
  change (slice_from (c_lt :: c :: tag') 1) with (c :: tag').
  destruct (flush_other (set_pos (length (src s) - length rest) s))
    as (_ & _ & _ & _ & _ & _ & Htx & _).
  split; [|split; [reflexivity|split; [exact Htx|]]].
  - eapply moves_same; [apply moves_flush, moves_set_pos; exact Hskip|..]; reflexivity.
  - cbn -[flush]. now rewrite flush_trace.
Qed.

Lemma find_char_app (c : char) (xs rest : str) :
  none_of [c] xs = true -> find_char c (xs ++ c :: rest) = Some (length xs).
Proof.
  induction xs as [|x xs IH]; intros H; cbn [app find_char length].
  - now rewrite char_eqb_refl.
  - cbn [none_of forallb] in H. apply andb_true_iff in H as [Hx H].
    apply negb_true_iff in Hx. rewrite mem_cons, mem_nil, orb_false_r in Hx.
    fold (none_of [c] xs) in H. rewrite Hx, IH by exact H. reflexivity.
Qed.

Lemma skipn_app_cons (xs : str) (c : char) (rest : str) :
  skipn (S (length xs)) (xs ++ c :: rest) = rest.
Proof. induction xs as [|x xs IH]; [reflexivity|exact IH]. Qed.

Lemma step_close (s : State) (tag closing rest : str) :
  loop s = TopLevel -> ahead s = (c_lt :: c_slash :: tag) ++ closing ++ c_gt :: rest ->
  name_ok tag = true -> none_of [c_gt] closing = true ->
  stops_at name_stop closing = true ->
  exists s', step s = Some s' /\ moves s s' rest /\ loop s' = TopLevel
             /\ text s' = [] /\ trace s' = trace s ++ flushed (text s) ++ [ctag tag].
Proof.
  intros Hl Ha Hn Hcl Hstop.
  destruct (@test_ahead PRIMARY s (c_lt :: c_slash :: tag) (closing ++ c_gt :: rest))
    as (Hr & Htok & Hskip); [discriminate|exact Ha| |].
  { apply primary_close; [exact Hn|]. destruct closing; [reflexivity|exact Hstop]. }
  unfold step. rewrite Hl, Hr, Htok. eexists. split; [reflexivity|].
  unfold top_token. cbn [char_at nth_error is_char]. eval_chars. cbv iota.
  set (p := length (src s) - length (closing ++ c_gt :: rest)) in *.
  destruct (flush_other (set_pos p s)) as (Hsrc & Hpos & Hst & Hnm & Hac & Hlp & Htx & Hdf & _).
  rewrite Hsrc, Hpos. cbn [src pos set_pos].
  unfold indexOf. rewrite Hskip, find_char_app by exact Hcl.
  change (slice_from (c_lt :: c_slash :: tag) 2) with tag.
  split; [|split; [|split]].
  - unfold moves, ahead. cbn -[flush]. rewrite Hsrc, Hst, Hnm, Hac, Hdf. cbn.
    repeat split.
    replace (p + length closing + 1) with (S (length closing) + p) by lia.
    rewrite <- skipn_skipn, Hskip. apply skipn_app_cons.
  - cbn -[flush]. rewrite Hlp. exact Hl.
  - cbn -[flush]. exact Htx.
  - cbn -[flush]. rewrite flush_trace. cbn. now rewrite <- app_assoc.
Qed.

Lemma ws_not_eq (c : char) : mem c ws_chars = true -> char_eqb c c_eq = false.
Proof. intros H. apply ws_char_cases in H as [-> | [-> | [-> | ->]]]; reflexivity. Qed.

Lemma step_space (s : State) (tag : str) (m : Map) (xs rest : str) :
  loop s = AttList tag m -> ahead s = xs ++ rest ->
  xs <> [] -> all_of ws_chars xs = true -> starts_in ws_chars rest = false ->
  exists s', step s = Some s' /\ moves s s' rest /\ loop s' = AttList tag m
             /\ text s' = text s /\ trace s' = trace s.
Proof.
  intros Hl Ha Hne Hxs Hrest.
  destruct (@test_ahead ATTLIST s xs rest Hne Ha) as (Hr & Htok & Hskip).
  { now apply attlist_space. }
  unfold step. rewrite Hl, Hr, Htok. eexists. split; [reflexivity|].
  unfold attlist_token.
  assert (E1 : str_eqb xs (js "/>") || str_eqb xs (js ">") = false).
  { destruct xs as [|c xs]; [congruence|]. cbn [all_of forallb] in Hxs.
    apply andb_true_iff in Hxs as [Hc _].
    apply ws_char_cases in Hc as [-> | [-> | [-> | ->]]]; reflexivity. }
  assert (E2 : is_char (at_ xs (-2)) c_eq = false).
  { destruct (at_ xs (-2)) as [c|] eqn:E; [|reflexivity]. apply at_In in E.
    unfold all_of in Hxs. rewrite forallb_forall in Hxs. cbn [is_char].
    apply ws_not_eq. now apply Hxs. }
  rewrite E1, E2. repeat split; try reflexivity; try assumption.
Qed.

Lemma step_head (s : State) (tag : str) (m : Map) (nm : str) (q : char) (rest : str) :
  loop s = AttList tag m -> ahead s = (nm ++ [c_eq; q]) ++ rest ->
  attr_name_ok nm = true -> mem q [c_dq; c_sq] = true ->
  exists s', step s = Some s' /\ moves s s' rest /\ loop s' = InLiteral tag m nm
             /\ lit s' = Some (literal_of q) /\ end_ s' = Some [q]
             /\ text s' = text s /\ trace s' = trace s.
Proof.
  intros Hl Ha Hn Hq.
  destruct (@test_ahead ATTLIST s (nm ++ [c_eq; q]) rest) as (Hr & Htok & Hskip);
    [now destruct nm|exact Ha| |].
  { rewrite <- app_assoc. now apply attlist_head. }
  unfold step. rewrite Hl, Hr, Htok. eexists. split; [reflexivity|].
  unfold attlist_token.
  assert (E1 : str_eqb (nm ++ [c_eq; q]) (js "/>") || str_eqb (nm ++ [c_eq; q]) (js ">")
               = false).
  { apply attr_name_ok_first in Hn as (c & nm' & -> & Hc & _). split_mem.
    cbn [app js list_ascii_of_string map str_eqb]. unname_chars. now rewrite H, H0. }
  rewrite E1, at_last2, at_last1, slice_drop2. cbn [is_char]. rewrite char_eqb_refl.
  repeat split; try reflexivity; try assumption.
Qed.

Lemma step_gt (s : State) (tag : str) (m : Map) (rest : str) :
  loop s = AttList tag m -> ahead s = [c_gt] ++ rest ->
  exists s', step s = Some s' /\ moves s s' rest /\ loop s' = TopLevel
             /\ text s' = text s /\ trace s' = trace s ++ [otag tag m].
Proof.
  intros Hl Ha.
  destruct (@test_ahead ATTLIST s [c_gt] rest) as (Hr & Htok & Hskip);
    [discriminate|exact Ha|reflexivity|].
  unfold step. rewrite Hl, Hr, Htok. eexists. split; [reflexivity|].
  repeat split; try reflexivity; try assumption.
Qed.

Lemma step_void (s : State) (tag : str) (m : Map) (rest : str) :
  loop s = AttList tag m -> ahead s = [c_slash; c_gt] ++ rest ->
  exists s', step s = Some s' /\ moves s s' rest /\ loop s' = TopLevel
             /\ text s' = text s /\ trace s' = trace s ++ [otag tag m; ctag tag].
Proof.
  intros Hl Ha.
  destruct (@test_ahead ATTLIST s [c_slash; c_gt] rest) as (Hr & Htok & Hskip);
    [discriminate|exact Ha|reflexivity|].
  unfold step. rewrite Hl, Hr, Htok. eexists. split; [reflexivity|].
  unfold attlist_token.
  change (str_eqb [c_slash; c_gt] (js "/>") || str_eqb [c_slash; c_gt] (js ">")) with true.
  change (negb (str_eqb [c_slash; c_gt] (js ">"))) with true. cbv iota.
  repeat split; try reflexivity; try assumption.
  cbn. now rewrite <- app_assoc.
Qed.

Lemma step_value (s : State) (tag : str) (m : Map) (nm : str) (q : char) (xs rest : str) :
  loop s = InLiteral tag m nm -> lit s = Some (literal_of q) -> end_ s = Some [q] ->
  ahead s = xs ++ q :: rest ->
  mem q [c_dq; c_sq] = true -> xs <> [] -> none_of [q; c_amp] xs = true ->
  exists s', step s = Some s' /\ moves s s' (q :: rest) /\ loop s' = InLiteral tag m nm
             /\ lit s' = Some (literal_of q) /\ end_ s' = Some [q]
             /\ text s' = text s ++ xs /\ trace s' = trace s.
Proof.
  intros Hl Hlit Hend Ha Hq Hne Hxs.
  destruct (@test_ahead (literal_rx (literal_of q)) s xs (q :: rest) Hne Ha)
    as (Hr & Htok & Hskip).
  { now apply literal_run. }
  unfold step. rewrite Hl, Hlit, Hr, Htok. eexists. split; [reflexivity|].
  unfold literal_token. cbn [end_ set_pos]. rewrite Hend.
  destruct xs as [|c xs]; [congruence|].
  cbn [none_of forallb] in Hxs. apply andb_true_iff in Hxs as [Hc _].
  apply negb_true_iff in Hc. split_mem.
  cbn [is_end str_eqb char_at nth_error is_char]. rewrite H, H0. cbn [andb].
  repeat split; try reflexivity; try assumption.
Qed.

Lemma step_quote (s : State) (tag : str) (m : Map) (nm : str) (q : char) (rest : str) :
  loop s = InLiteral tag m nm -> lit s = Some (literal_of q) -> end_ s = Some [q] ->
  ahead s = [q] ++ rest -> mem q [c_dq; c_sq] = true ->
  exists s', step s = Some s' /\ moves s s' rest
             /\ loop s' = AttList tag (map_set m nm (text s))
             /\ text s' = [] /\ trace s' = trace s.
Proof.
  intros Hl Hlit Hend Ha Hq.
  destruct (@test_ahead (literal_rx (literal_of q)) s [q] rest) as (Hr & Htok & Hskip);
    [discriminate|exact Ha| |].
  { now apply literal_quote. }
  unfold step. rewrite Hl, Hlit, Hr, Htok. eexists. split; [reflexivity|].
  unfold literal_token. cbn [end_ set_pos]. rewrite Hend.
  cbn [is_end]. rewrite str_eqb_refl.
  repeat split; try reflexivity; try assumption.
Qed.

(** ** Reading tags *)

Lemma reads_refl (s : State) : reads s s.
Proof. exists 0. reflexivity. Qed.

Lemma steps_add (n m : nat) : forall s s1 s2,
  steps n s = Some s1 -> steps m s1 = Some s2 -> steps (n + m) s = Some s2.
Proof.
  induction n as [|n IH]; intros s s1 s2 H1 H2; cbn [steps Nat.add] in *.
  - now injection H1 as ->.
  - destruct (active s); [|discriminate].
    destruct (step s) as [s'|]; [|discriminate]. eapply IH; eassumption.
Qed.

Lemma reads_trans (s s1 s2 : State) : reads s s1 -> reads s1 s2 -> reads s s2.
Proof. intros [n Hn] [m Hm]. exists (n + m). eapply steps_add; eassumption. Qed.

Lemma reads_step (s s' : State) : active s = true -> step s = Some s' -> reads s s'.
Proof. intros Ha Hs. exists 1. cbn. now rewrite Ha, Hs. Qed.

Lemma moves_trans (s s1 s2 : State) (r1 r2 : str) :
  moves s s1 r1 -> moves s1 s2 r2 -> moves s s2 r2.
Proof.
  unfold moves. intros (A1 & A2 & A3 & A4 & A5 & A6) (B1 & B2 & B3 & B4 & B5 & B6).
  repeat split; congruence.
Qed.

Lemma moves_active (s s' : State) (r : str) : moves s s' r -> active s' = active s.
Proof. intros H. apply H. Qed.

Lemma moves_ahead (s s' : State) (r : str) : moves s s' r -> ahead s' = r.
Proof. intros H. apply H. Qed.

Lemma attr_ok_parts (a : Attr) :
  attr_ok a = true ->
  a_space a <> [] /\ all_of ws_chars (a_space a) = true
  /\ attr_name_ok (a_name a) = true /\ mem (a_quote a) [c_dq; c_sq] = true
  /\ none_of [a_quote a; c_amp] (a_value a) = true.
Proof.
  unfold attr_ok. rewrite !andb_true_iff, negb_true_iff.
  intros ((((H1 & H2) & H3) & H4) & H5). repeat split; auto.
  now destruct (a_space a).
Qed.

Lemma attr_name_not_ws (nm rest : str) :
  attr_name_ok nm = true -> starts_in ws_chars (nm ++ rest) = false.
Proof.
  intros H. apply attr_name_ok_first in H as (c & nm' & -> & Hc & _).
  cbn [app starts_in]. apply mem_false_cons in Hc as [_ Hc].
  now apply mem_false_cons in Hc as [_ Hc].
Qed.

(** Write the appends of a printed text to the right. *)
Ltac norm_app := repeat first [rewrite <- app_assoc | progress cbn [app]].
Ltac norm_app_in H :=
  repeat first [rewrite <- app_assoc in H | progress cbn [app] in H].

(** An attribute, from the white space before it to its closing quote. *)
Lemma read_attr (s : State) (tag : str) (m : Map) (a : Attr) (rest : str) :
  active s = true -> loop s = AttList tag m -> text s = [] ->
  attr_ok a = true -> ahead s = print_attr a ++ rest ->
  exists s', reads s s' /\ moves s s' rest
             /\ loop s' = AttList tag (map_set m (a_name a) (a_value a))
             /\ text s' = [] /\ trace s' = trace s.
Proof.
  intros Hact Hl Htx Hok Ha.
  apply attr_ok_parts in Hok as (Hsp & Hws & Hnm & Hq & Hv).
  unfold print_attr in Ha. norm_app_in Ha.
  destruct (@step_space s tag m (a_space a) _ Hl Ha Hsp Hws)
    as (s1 & S1 & M1 & L1 & T1 & R1); [now apply attr_name_not_ws|].
  assert (A1 : ahead s1 = (a_name a ++ [c_eq; a_quote a]) ++ a_value a ++ a_quote a :: rest).
  { rewrite (moves_ahead M1). norm_app. reflexivity. }
  destruct (@step_head s1 tag m (a_name a) (a_quote a) _ L1 A1 Hnm Hq)
    as (s2 & S2 & M2 & L2 & Lit2 & E2 & T2 & R2).
  assert (Act1 : active s1 = true) by (rewrite (moves_active M1); exact Hact).
  assert (Act2 : active s2 = true) by (rewrite (moves_active M2); exact Act1).
  assert (R12 : reads s s2).
  { eapply reads_trans; [apply reads_step; eassumption|apply reads_step; eassumption]. }
  destruct (a_value a) as [|v0 v] eqn:Ev.
  - destruct (@step_quote s2 tag m (a_name a) (a_quote a) rest L2 Lit2 E2 (moves_ahead M2) Hq)
      as (s3 & S3 & M3 & L3 & T3 & R3).
    exists s3. split; [eapply reads_trans; [exact R12|now apply reads_step]|].
    split; [eapply moves_trans; [eapply moves_trans|]; eassumption|].
    split; [rewrite L3, T2, T1, Htx; reflexivity|].
    split; [exact T3|congruence].
  - destruct (@step_value s2 tag m (a_name a) (a_quote a) (v0 :: v) rest L2 Lit2 E2
                (moves_ahead M2) Hq ltac:(discriminate) Hv)
      as (s3 & S3 & M3 & L3 & Lit3 & E3 & T3 & R3).
    assert (Act3 : active s3 = true) by (rewrite (moves_active M3); exact Act2).
    destruct (@step_quote s3 tag m (a_name a) (a_quote a) rest L3 Lit3 E3 (moves_ahead M3) Hq)
      as (s4 & S4 & M4 & L4 & T4 & R4).
    exists s4.
    split; [eapply reads_trans; [exact R12|];
            eapply reads_trans; apply reads_step; eassumption|].
    split; [eapply moves_trans; [eapply moves_trans; [eapply moves_trans|]|]; eassumption|].
    split; [rewrite L4, T3, T2, T1, Htx; reflexivity|].
    split; [exact T4|congruence].
Qed.

Lemma read_attrs (tag : str) (l : list Attr) : forall (s : State) (m : Map) (rest : str),
  active s = true -> loop s = AttList tag m -> text s = [] ->
  forallb attr_ok l = true -> ahead s = print_attrs l ++ rest ->
  exists s', reads s s' /\ moves s s' rest /\ loop s' = AttList tag (attrs_map l m)
             /\ text s' = [] /\ trace s' = trace s.
Proof.
  induction l as [|a l IH]; intros s m rest Hact Hl Htx Hok Ha.
  - exists s. split; [apply reads_refl|]. unfold moves. cbn in *. auto 10.
  - cbn [forallb] in Hok. apply andb_true_iff in Hok as [Hoka Hokl].
    cbn [print_attrs flat_map] in Ha. rewrite <- app_assoc in Ha.
    destruct (@read_attr s tag m a _ Hact Hl Htx Hoka Ha) as (s1 & R1 & M1 & L1 & T1 & Tr1).
    destruct (IH s1 _ rest ltac:(rewrite (moves_active M1); exact Hact) L1 T1 Hokl
                (moves_ahead M1)) as (s2 & R2 & M2 & L2 & T2 & Tr2).
    exists s2. split; [eapply reads_trans; eassumption|].
    split; [eapply moves_trans; eassumption|].
    split; [exact L2|]. split; [exact T2|congruence].
Qed.

Lemma ws_in_name_stop (c : char) : mem c ws_chars = true -> mem c name_stop = true.
Proof. intros H. apply ws_char_cases in H as [-> | [-> | [-> | ->]]]; reflexivity. Qed.

Lemma ws_not_terminator (c : char) :
  mem c [c_slash; c_gt] = true -> mem c ws_chars = false.
Proof.
  intros H. rewrite !mem_cons, mem_nil, !orb_true_iff, !char_eqb_eq in H.
  destruct H as [-> | [-> | H]]; try reflexivity. discriminate.
Qed.

Lemma tag_rest_stops (l : list Attr) (sp rest : str) :
  forallb attr_ok l = true -> all_of ws_chars sp = true ->
  starts_in [c_slash; c_gt] rest = true ->
  stops_at name_stop (print_attrs l ++ sp ++ rest) = true.
Proof.
  intros Hl Hsp Hrest. destruct l as [|a l].
  - cbn [print_attrs flat_map app]. destruct sp as [|c sp].
    + destruct rest as [|c rest]; [discriminate|]. cbn [app stops_at starts_in] in *.
      rewrite !mem_cons, mem_nil, !orb_true_iff, !char_eqb_eq in Hrest.
      destruct Hrest as [-> | [-> | Hrest]]; try reflexivity. discriminate.
    + cbn [all_of forallb] in Hsp. apply andb_true_iff in Hsp as [Hc _].
      cbn [app stops_at]. now apply ws_in_name_stop.
  - cbn [forallb] in Hl. apply andb_true_iff in Hl as [Ha _].
    apply attr_ok_parts in Ha as (Hne & Hws & _).
    cbn [print_attrs flat_map]. unfold print_attr.
    destruct (a_space a) as [|c sp']; [congruence|].
    cbn [all_of forallb] in Hws. apply andb_true_iff in Hws as [Hc _].
    cbn [app stops_at]. now apply ws_in_name_stop.
Qed.

(** A start tag up to its terminator: the name, the attributes and the
    white space after them. *)
Lemma read_tag_head (s : State) (tag : str) (l : list Attr) (sp rest : str) :
  active s = true -> loop s = TopLevel ->
  name_ok tag = true -> forallb attr_ok l = true -> all_of ws_chars sp = true ->
  starts_in [c_slash; c_gt] rest = true ->
  ahead s = (c_lt :: tag) ++ print_attrs l ++ sp ++ rest ->
  exists s', reads s s' /\ moves s s' rest /\ loop s' = AttList tag (attrs_map l [])
             /\ text s' = [] /\ trace s' = trace s ++ flushed (text s).
Proof.
  intros Hact Hl Hn Hok Hsp Hrest Ha.
  destruct (@step_open s tag _ Hl Ha Hn (tag_rest_stops l sp rest Hok Hsp Hrest))
    as (s1 & S1 & M1 & L1 & T1 & R1).
  assert (Act1 : active s1 = true) by (rewrite (moves_active M1); exact Hact).
  destruct (@read_attrs tag l s1 [] _ Act1 L1 T1 Hok (moves_ahead M1))
    as (s2 & R2 & M2 & L2 & T2 & Tr2).
  assert (Act2 : active s2 = true) by (rewrite (moves_active M2); exact Act1).
  assert (R02 : reads s s2).
  { eapply reads_trans; [apply reads_step; eassumption|exact R2]. }
  destruct sp as [|c sp].
  - exists s2. split; [exact R02|]. split; [eapply moves_trans; eassumption|].
    split; [exact L2|]. split; [exact T2|congruence].
  - destruct (@step_space s2 tag (attrs_map l []) (c :: sp) rest L2 (moves_ahead M2)
                ltac:(discriminate) Hsp) as (s3 & S3 & M3 & L3 & T3 & R3).
    { destruct rest as [|r rest]; [reflexivity|]. cbn [starts_in] in *.
      now apply ws_not_terminator. }
    exists s3. split; [eapply reads_trans; [exact R02|now apply reads_step]|].
    split; [eapply moves_trans; [eapply moves_trans|]; eassumption|].
    split; [exact L3|]. split; congruence.
Qed.

Lemma read_start_tag (s : State) (tag : str) (l : list Attr) (sp rest : str) :
  active s = true -> loop s = TopLevel ->
  name_ok tag = true -> forallb attr_ok l = true -> all_of ws_chars sp = true ->
  ahead s = (c_lt :: tag) ++ print_attrs l ++ sp ++ c_gt :: rest ->
  exists s', reads s s' /\ moves s s' rest /\ loop s' = TopLevel
             /\ text s' = []
             /\ trace s' = trace s ++ flushed (text s) ++ [otag tag (attrs_map l [])].
Proof.
  intros Hact Hl Hn Hok Hsp Ha.
  destruct (@read_tag_head s tag l sp (c_gt :: rest) Hact Hl Hn Hok Hsp eq_refl Ha)
    as (s1 & R1 & M1 & L1 & T1 & Tr1).
  destruct (@step_gt s1 tag _ rest L1 (moves_ahead M1)) as (s2 & S2 & M2 & L2 & T2 & Tr2).
  exists s2.
  split; [eapply reads_trans; [exact R1|apply reads_step; [|exact S2]]|].
  { rewrite (moves_active M1). exact Hact. }
  split; [eapply moves_trans; eassumption|].
  split; [exact L2|]. split; [congruence|].
  rewrite Tr2, Tr1. now rewrite <- app_assoc.
Qed.

Lemma read_void_tag (s : State) (tag : str) (l : list Attr) (sp rest : str) :
  active s = true -> loop s = TopLevel ->
  name_ok tag = true -> forallb attr_ok l = true -> all_of ws_chars sp = true ->
  ahead s = (c_lt :: tag) ++ print_attrs l ++ sp ++ c_slash :: c_gt :: rest ->
  exists s', reads s s' /\ moves s s' rest /\ loop s' = TopLevel
             /\ text s' = []
             /\ trace s' = trace s ++ flushed (text s)
                           ++ [otag tag (attrs_map l []); ctag tag].
Proof.
  intros Hact Hl Hn Hok Hsp Ha.
  destruct (@read_tag_head s tag l sp (c_slash :: c_gt :: rest) Hact Hl Hn Hok Hsp eq_refl Ha)
    as (s1 & R1 & M1 & L1 & T1 & Tr1).
  destruct (@step_void s1 tag _ rest L1 (moves_ahead M1)) as (s2 & S2 & M2 & L2 & T2 & Tr2).
  exists s2.
  split; [eapply reads_trans; [exact R1|apply reads_step; [|exact S2]]|].
  { rewrite (moves_active M1). exact Hact. }
  split; [eapply moves_trans; eassumption|].
  split; [exact L2|]. split; [congruence|].
  rewrite Tr2, Tr1. now rewrite <- app_assoc.
Qed.

(** ** Reading trees *)

Lemma events_fold (l : list Node) : forall (e : list Event) (a : str),
  fold_left (fun r c => let r' := events c (snd r) in (fst r ++ fst r', snd r')) l (e, a)
  = (e ++ fst (events_all l a), snd (events_all l a)).
Proof.
  unfold events_all. induction l as [|c l IH]; intros e a; cbn [fold_left].
  - cbn. now rewrite app_nil_r.
  - cbn [fst snd]. rewrite IH. rewrite (IH ([] ++ fst (events c a))).
    cbn [fst snd app]. now rewrite app_assoc.
Qed.

Lemma events_all_cons (n : Node) (l : list Node) (acc : str) :
  events_all (n :: l) acc
  = (fst (events n acc) ++ fst (events_all l (snd (events n acc))),
     snd (events_all l (snd (events n acc)))).
Proof.
  unfold events_all at 1. cbn [fold_left fst snd]. rewrite events_fold. reflexivity.
Qed.

Lemma events_element (tag : str) (attrs : list Attr) (sp : str) (ch : list Node)
  (cl acc : str) :
  events (Element tag attrs sp ch cl) acc
  = (flushed acc ++ otag tag (attrs_map attrs []) :: fst (events_all ch [])
       ++ flushed (snd (events_all ch [])) ++ [ctag tag], []).
Proof. reflexivity. Qed.

Lemma print_starts_lt (n : Node) : is_chars n = false -> exists r, print n = c_lt :: r.
Proof. destruct n; intros H; try discriminate; cbn; eauto. Qed.

Lemma nodes_ok_cons (n : Node) (l : list Node) :
  nodes_ok (n :: l) = true ->
  node_ok n = true /\ nodes_ok l = true
  /\ (is_chars n = true -> stops_at [c_lt] (print_all l) = true \/ l = []).
Proof.
  unfold nodes_ok. cbn [forallb chars_apart]. rewrite !andb_true_iff, negb_true_iff.
  intros ((Hn & Hl) & (Hadj & Hap)). repeat split; auto.
  intros Hc. rewrite Hc in Hadj. destruct l as [|m l]; [now right|left].
  cbn [andb] in Hadj. destruct (print_starts_lt m Hadj) as [r Hr].
  cbn [print_all flat_map]. rewrite Hr. reflexivity.
Qed.

Lemma after_text_stops (l : list Node) (rest : str) :
  stops_at [c_lt] (print_all l) = true \/ l = [] ->
  stops_at [c_lt] rest = true ->
  stops_at [c_lt; c_amp] (print_all l ++ rest) = true.
Proof.
  assert (H : forall x, stops_at [c_lt] x = true -> stops_at [c_lt; c_amp] x = true).
  { intros [|c x]; [reflexivity|]. cbn [stops_at]. rewrite !mem_cons, mem_nil.
    intros E. apply orb_true_iff in E as [E|E]; [now rewrite E|discriminate]. }
  intros [Hl| ->] Hr.
  - destruct (print_all l) as [|c x] eqn:E.
    + cbn [app]. now apply H.
    + cbn [app]. apply H in Hl. exact Hl.
  - cbn. now apply H.
Qed.

Lemma size_pos (n : Node) : 0 < size n.
Proof. destruct n; cbn; lia. Qed.

(** The reader calls the hooks of a well-formed sequence of nodes, and is
    left with its pending text. *)
Lemma read_nodes (k : nat) : forall (l : list Node),
  size_all l <= k -> nodes_ok l = true ->
  forall (s : State) (rest : str),
    active s = true -> loop s = TopLevel ->
    ahead s = print_all l ++ rest -> stops_at [c_lt] rest = true ->
    exists s', reads s s' /\ moves s s' rest /\ loop s' = TopLevel
               /\ text s' = snd (events_all l (text s))
               /\ trace s' = trace s ++ fst (events_all l (text s)).
Proof.
  induction k as [|k IH]; intros l Hsize Hok s rest Hact Hl Ha Hrest.
  - destruct l as [|n l].
    + exists s. split; [apply reads_refl|]. unfold moves. cbn in *.
      rewrite app_nil_r. auto 10.
    + pose proof (size_pos n). cbn in Hsize. lia.
  - destruct l as [|n l].
    + exists s. split; [apply reads_refl|]. unfold moves. cbn in *.
      rewrite app_nil_r. auto 10.
    + apply nodes_ok_cons in Hok as (Hn & Hokl & Hadj).
      cbn [size_all fold_right] in Hsize. fold (size_all l) in Hsize.
      pose proof (size_pos n) as Hpos.
      cbn [print_all flat_map] in Ha. fold (print_all l) in Ha.
      rewrite <- app_assoc in Ha. rewrite events_all_cons.
      assert (Hcont : forall s1 acc evs,
        reads s s1 -> moves s s1 (print_all l ++ rest) -> loop s1 = TopLevel ->
        text s1 = acc -> trace s1 = trace s ++ evs ->
        exists s', reads s s' /\ moves s s' rest /\ loop s' = TopLevel
                   /\ text s' = snd (events_all l acc)
                   /\ trace s' = trace s ++ evs ++ fst (events_all l acc)).
      { intros s1 acc evs R1 M1 L1 T1 Tr1.
        destruct (IH l ltac:(lia) Hokl s1 rest) as (s2 & R2 & M2 & L2 & T2 & Tr2);
          [rewrite (moves_active M1); exact Hact|exact L1|exact (moves_ahead M1)|exact Hrest|].
        exists s2. split; [eapply reads_trans; eassumption|].
        split; [eapply moves_trans; eassumption|]. split; [exact L2|].
        rewrite T2, Tr2, Tr1, T1. split; [reflexivity|now rewrite app_assoc]. }
      destruct n as [t|t|t|t|tag attrs sp ch cl|tag attrs sp].
      * cbn [node_ok] in Hn. apply andb_true_iff in Hn as [Hne Ht].
        destruct (@step_text s t _ Hl Ha) as (s1 & S1 & M1 & L1 & T1 & Tr1);
          [now destruct t|exact Ht|apply after_text_stops; auto|].
        destruct (Hcont s1 (text s ++ t) []) as (s' & R & M & L & T & Tr);
          [now apply reads_step|exact M1|exact L1|exact T1|now rewrite app_nil_r|].
        exists s'. cbn [events fst snd app] in *. auto.
      * cbn [node_ok] in Hn.
        destruct (@step_cdata s t _ Hl Ha Hn) as (s1 & S1 & M1 & L1 & T1 & Tr1).
        destruct (Hcont s1 (text s ++ t) []) as (s' & R & M & L & T & Tr);
          [now apply reads_step|exact M1|exact L1|exact T1|now rewrite app_nil_r|].
        exists s'. cbn [events fst snd app] in *. auto.
      * cbn [node_ok] in Hn.
        destruct (@step_comment s t _ Hl Ha Hn) as (s1 & S1 & M1 & L1 & T1 & Tr1).
        destruct (Hcont s1 (text s) []) as (s' & R & M & L & T & Tr);
          [now apply reads_step|exact M1|exact L1|exact T1|now rewrite app_nil_r|].
        exists s'. cbn [events fst snd app] in *. auto.
      * cbn [node_ok] in Hn.
        destruct (@step_instruction s t _ Hl Ha Hn) as (s1 & S1 & M1 & L1 & T1 & Tr1).
        destruct (Hcont s1 (text s) []) as (s' & R & M & L & T & Tr);
          [now apply reads_step|exact M1|exact L1|exact T1|now rewrite app_nil_r|].
        exists s'. cbn [events fst snd app] in *. auto.
      * cbn [node_ok] in Hn. rewrite !andb_true_iff in Hn.
        destruct Hn as ((((((Hname & Hattrs) & Hsp) & Hch) & Hap) & Hcl) & Hstop).
        cbn [print] in Ha. fold (print_all ch) in Ha. norm_app_in Ha.
        destruct (@read_start_tag s tag attrs sp _ Hact Hl Hname Hattrs Hsp Ha)
          as (s1 & R1 & M1 & L1 & T1 & Tr1).
        assert (Act1 : active s1 = true) by (rewrite (moves_active M1); exact Hact).
        cbn [size] in Hsize. fold (size_all ch) in Hsize.
        destruct (IH ch ltac:(lia) ltac:(unfold nodes_ok; now rewrite Hch, Hap) s1
                    _ Act1 L1 (moves_ahead M1) eq_refl)
          as (s2 & R2 & M2 & L2 & T2 & Tr2).
        assert (Act2 : active s2 = true) by (rewrite (moves_active M2); exact Act1).
        destruct (@step_close s2 tag cl (print_all l ++ rest) L2 (moves_ahead M2)
                    Hname Hcl Hstop) as (s3 & S3 & M3 & L3 & T3 & Tr3).
        destruct (Hcont s3 []
                    (flushed (text s) ++ otag tag (attrs_map attrs [])
                       :: fst (events_all ch []) ++ flushed (snd (events_all ch []))
                       ++ [ctag tag]))
          as (s' & R & M & L & T & Tr).
        { eapply reads_trans; [exact R1|]. eapply reads_trans; [exact R2|].
          now apply reads_step. }
        { eapply moves_trans; [eapply moves_trans|]; eassumption. }
        { exact L3. }
        { exact T3. }
        { rewrite Tr3, Tr2, Tr1, T2, T1. norm_app. reflexivity. }
        exists s'. rewrite events_element. cbn [fst snd]. auto.
      * cbn [node_ok] in Hn. rewrite !andb_true_iff in Hn.
        destruct Hn as ((Hname & Hattrs) & Hsp).
        cbn [print] in Ha. norm_app_in Ha.
        destruct (@read_void_tag s tag attrs sp _ Hact Hl Hname Hattrs Hsp Ha)
          as (s1 & R1 & M1 & L1 & T1 & Tr1).
        destruct (Hcont s1 [] (flushed (text s) ++ [otag tag (attrs_map attrs []); ctag tag]))
          as (s' & R & M & L & T & Tr); auto.
        exists s'. cbn [events fst snd]. auto.
Qed.

(** ** Documents (C4) *)

Lemma steps_run (n : nat) : forall s s' m,
  steps n s = Some s' -> run (n + m) s = run m s'.
Proof.
  induction n as [|n IH]; intros s s' m H; cbn [steps Nat.add] in *.
  - now injection H as ->.
  - cbn [run]. destruct (active s); [|discriminate].
    destruct (step s) as [s1|]; [|discriminate]. now apply IH.
Qed.

(** A read that resolves with some fuel resolves so with the fuel of
    [fast_xml]. *)
Lemma fast_xml_resolved (source : str) (d : option Map) (n : nat) (f : State) :
  run n (start source d) = Resolved f -> fast_xml source d = Resolved f.
Proof.
  intros H. unfold fast_xml, fast_xml_fuel.
  destruct (Nat.le_ge_cases n (fuel_bound source d)) as [Hle|Hge].
  - now apply (proj1 (@run_more n (start source d) _ Hle)).
  - destruct (@fast_xml_ends source d _ (le_n _)) as [f' [Hf|Hf]];
      unfold fast_xml_fuel in Hf.
    + pose proof (proj1 (@run_more _ (start source d) n Hge) _ Hf). congruence.
    + pose proof (proj2 (@run_more _ (start source d) n Hge) _ Hf). congruence.
Qed.

Lemma step_eof (s : State) :
  loop s = TopLevel -> ahead s = [] -> stack s = [] ->
  step s = Some (set_active false s).
Proof.
  intros Hl Ha Hs. unfold step, regexp_test. rewrite Hl.
  unfold ahead in Ha. rewrite Ha, primary_eof.
  destruct (length (src s) <? pos s); unfold no_match; now rewrite Hs.
Qed.

Lemma print_tag_first (n : Node) (l : list Node) (rest : str) :
  is_tag n = true -> node_ok n = true ->
  exists c r, print_all (n :: l) ++ rest = c_lt :: c :: r
              /\ mem c [c_bang; c_quest] = false.
Proof.
  intros Ht Hn. destruct n as [t|t|t|t|tag attrs sp ch cl|tag attrs sp]; try discriminate;
    cbn [node_ok] in Hn; rewrite !andb_true_iff in Hn.
  - destruct Hn as ((((((Hname & _) & _) & _) & _) & _) & _).
    apply name_ok_first in Hname as (c & tag' & -> & _ & Hb & _).
    exists c. eexists. split; [|exact Hb]. cbn [print_all flat_map print app]. reflexivity.
  - destruct Hn as ((Hname & _) & _).
    apply name_ok_first in Hname as (c & tag' & -> & _ & Hb & _).
    exists c. eexists. split; [|exact Hb]. cbn [print_all flat_map print app]. reflexivity.
Qed.

(** The read of a printed tree resolves after the calls of the tree. *)
Lemma read_document (l : list Node) (d : option Map) :
  nodes_ok l = true -> starts_with_tag l = true ->
  exists s', fast_xml (print_all l) d = Resolved s'
             /\ trace s' = head [] :: fst (events_all l []).
Proof.
  intros Hok Htag.
  assert (Hp : prolog_end (print_all l) = 0).
  { destruct l as [|n l]; [discriminate|]. cbn [starts_with_tag] in Htag.
    apply nodes_ok_cons in Hok as (Hn & _).
    destruct (@print_tag_first n l [] Htag Hn) as (c & r & E & Hc).
    rewrite app_nil_r in E. rewrite E. now apply prolog_end_tag. }
  assert (E0 : start (print_all l) d
               = mkState d (print_all l) 0 None None [] [] [] true TopLevel [head []]).
  { unfold start. rewrite Hp. reflexivity. }
  remember (start (print_all l) d) as s0 eqn:Es0.
  assert (A0 : ahead s0 = print_all l ++ []).
  { rewrite E0. unfold ahead. cbn. now rewrite app_nil_r. }
  assert (Act0 : active s0 = true) by (rewrite E0; reflexivity).
  assert (L0 : loop s0 = TopLevel) by (rewrite E0; reflexivity).
  destruct (@read_nodes (size_all l) l (le_n _) Hok s0 [] Act0 L0 A0 eq_refl)
    as (s1 & [n R] & M & L & T & Tr).
  assert (Hs : step s1 = Some (set_active false s1)).
  { apply step_eof; [exact L|exact (moves_ahead M)|].
    destruct M as (_ & _ & _ & -> & _). now rewrite E0. }
  exists (set_active false s1). split.
  - apply (@fast_xml_resolved _ _ (n + 1)). rewrite <- Es0.
    rewrite (@steps_run n s0 s1 1 R). cbn [run].
    rewrite (moves_active M), Hs, Act0. reflexivity.
  - cbn [trace set_active]. rewrite Tr, E0. reflexivity.
Qed.

(** The calls of a tree are well nested. *)
Lemma events_nested (k : nat) : forall (l : list Node),
  size_all l <= k ->
  forall (acc : str) (tail : list Event) (open : list str),
    well_nested (fst (events_all l acc) ++ tail) open = well_nested tail open.
Proof.
  assert (Hfl : forall t tail open, well_nested (flushed t ++ tail) open = well_nested tail open).
  { intros [|c t] tail open; reflexivity. }
  induction k as [|k IH]; intros l Hsize acc tail open.
  - destruct l as [|n l]; [reflexivity|]. pose proof (size_pos n). cbn in Hsize. lia.
  - destruct l as [|n l]; [reflexivity|].
    cbn [size_all fold_right] in Hsize. fold (size_all l) in Hsize.
    pose proof (size_pos n) as Hpos.
    rewrite events_all_cons. cbn [fst]. rewrite <- app_assoc.
    destruct n as [t|t|t|t|tag attrs sp ch cl|tag attrs sp].
    + cbn [events fst snd app]. apply IH. lia.
    + cbn [events fst snd app]. apply IH. lia.
    + cbn [events fst snd app]. apply IH. lia.
    + cbn [events fst snd app]. apply IH. lia.
    + rewrite events_element. cbn [fst snd].
      cbn [size] in Hsize. fold (size_all ch) in Hsize.
      rewrite <- app_assoc, Hfl. cbn [app well_nested].
      rewrite <- !app_assoc, (IH ch) by lia. rewrite Hfl.
      cbn [app well_nested]. rewrite str_eqb_refl. cbn [andb]. apply IH. lia.
    + cbn [events fst snd]. rewrite <- app_assoc, Hfl. cbn [app well_nested].
      rewrite str_eqb_refl. cbn [andb]. apply IH. lia.
Qed.

(** Documents that start with a tag: for every well-formed document
    without references, printed from such a tree, the read resolves, its
    hook calls are exactly the calls of the tree in document order, and the
    otag and ctag calls are well nested: every ctag carries, character for
    character, the name of the last opened tag that is not closed yet. *)
Theorem tags_well_nested (l : list Node) (d : option Map) :
  nodes_ok l = true -> starts_with_tag l = true ->
  (exists s', fast_xml (print_all l) d = Resolved s')
  /\ hooks (print_all l) d = head [] :: fst (events_all l [])
  /\ well_nested (hooks (print_all l) d) [] = true.
Proof.
  intros Hok Htag. destruct (read_document l d Hok Htag) as (s' & Hr & Htr).
  assert (Hh : hooks (print_all l) d = head [] :: fst (events_all l [])).
  { unfold hooks. rewrite Hr. exact Htr. }
  split; [eauto|]. split; [exact Hh|].
  rewrite Hh. cbn [well_nested].
  rewrite <- (app_nil_r (fst (events_all l []))).
  now rewrite (@events_nested (size_all l) l (le_n _)).
Qed.

Lemma tags_well_nested_witness :
  hooks (print_all doc_small) None
  = [head []; otag (js "a") [(js "k", js "v")]; text_ (js "t<&>");
     otag (js "b") []; ctag (js "b"); ctag (js "a")]
  /\ well_nested (hooks (print_all doc_small) None) [] = true.
Proof.
  assert (H1 : nodes_ok doc_small = true) by (vm_compute; reflexivity).
  assert (H2 : starts_with_tag doc_small = true) by (vm_compute; reflexivity).
  destruct (tags_well_nested doc_small None H1 H2) as (_ & Hh & Hn).
  split; [|exact Hn]. rewrite Hh. vm_compute. reflexivity.
Defined.

(** C4 at a failing input, by the defect of C6: the document is a comment
    followed by one void element, without references or malformed
    constructs, yet the prolog scan stops inside the comment and the reader
    calls otag for the tag written in it, which no ctag closes: the calls
    are not well nested and are not those of the one element. *)
Theorem commented_tag_is_opened :
  doc_comment = js "<!-- > <b> -->" ++ print_all [Void (js "a") [] []]
  /\ hooks doc_comment None
     = [head (js "<!-- > "); otag (js "b") []; text_ (js " -->");
        otag (js "a") []; ctag (js "a")]
  /\ well_nested (hooks doc_comment None) [] = false
  /\ hooks (print_all [Void (js "a") [] []]) None
     = [head []; otag (js "a") []; ctag (js "a")].
Proof.
  split; [reflexivity|].
  split; [vm_compute; reflexivity|].
  split; vm_compute; reflexivity.
Qed.

(** ** Merged text (C5) *)

Lemma events_run (l : list Node) : is_run l = true ->
  forall acc, events_all l acc = ([], acc ++ contents l).
Proof.
  induction l as [|n l IH]; intros Hr acc.
  - cbn. now rewrite app_nil_r.
  - cbn [is_run forallb] in Hr. apply andb_true_iff in Hr as [Hn Hl].
    rewrite events_all_cons.
    destruct n; try discriminate; cbn [events fst snd contents flat_map content app];
      rewrite (IH Hl); cbn [fst snd]; fold (contents l); now rewrite ?app_assoc.
Qed.

Lemma run_texts_apart (source : str) (d : option Map) (n : nat) :
  texts_apart (trace (outcome_state (run n (start source d)))) = true.
Proof.
  destruct (@run_hooks_in_order _ n _ (start_hooks_in_order source d)) as (_ & _ & H & _).
  exact H.
Qed.

(** C5 as the specification words it fails: the text after the last tag
    is a run with a non-empty text and no text call is made for it. *)
Lemma trailing_run_is_dropped : ~ every_run_delivered.
Proof.
  intros H.
  specialize (H [Element (js "a") [] [] [] []] [Chars (js "x")] [] None).
  assert (E : hooks (print_all ([Element (js "a") [] [] [] []] ++ [Chars (js "x")] ++ [])) None
              = [head []; otag (js "a") []; ctag (js "a")]) by (vm_compute; reflexivity).
  rewrite E in H.
  assert (Hin : In (text_ (contents [Chars (js "x")]))
                   [head []; otag (js "a") []; ctag (js "a")]).
  { apply H; try (vm_compute; reflexivity).
    - vm_compute. discriminate.
    - exists [], (Element (js "a") [] [] [] []). split; reflexivity.
    - now right. }
  cbn in Hin. intuition discriminate.
Qed.

(** C5 (amended): a run of text, CDATA sections, comments and processing
    instructions that is read with an empty text buffer and is followed by
    the head of a start tag or by an end tag makes no hook call while it is
    read and leaves the texts of its text and CDATA nodes, in order, in the
    buffer; the round that reads the tag that follows makes exactly one text
    call with that buffer when it is not empty and none when it is, before
    any call for the tag.  (No call is made for a run that ends the
    document.)  In every read the text hook is never called with the empty
    string nor twice in a row. *)
Theorem text_run_delivered :
  (forall (l : list Node) (s : State) (tag rest : str),
     is_run l = true -> nodes_ok l = true ->
     active s = true -> loop s = TopLevel -> text s = [] ->
     name_ok tag = true -> stops_at name_stop rest = true ->
     ahead s = print_all l ++ (c_lt :: tag) ++ rest ->
     exists s1 s2,
       reads s s1 /\ trace s1 = trace s /\ text s1 = contents l
       /\ step s1 = Some s2 /\ text s2 = []
       /\ trace s2 = trace s ++ flushed (contents l))
  /\ (forall (l : list Node) (s : State) (tag closing rest : str),
        is_run l = true -> nodes_ok l = true ->
        active s = true -> loop s = TopLevel -> text s = [] ->
        name_ok tag = true -> none_of [c_gt] closing = true ->
        stops_at name_stop closing = true ->
        ahead s = print_all l ++ (c_lt :: c_slash :: tag) ++ closing ++ c_gt :: rest ->
        exists s1 s2,
          reads s s1 /\ trace s1 = trace s /\ text s1 = contents l
          /\ step s1 = Some s2 /\ text s2 = []
          /\ trace s2 = trace s ++ flushed (contents l) ++ [ctag tag])
  /\ (forall (source : str) (d : option Map) (n : nat),
        texts_apart (trace (outcome_state (run n (start source d)))) = true).
Proof.
  split; [|split].
  - intros l s tag rest Hr Hok Hact Hl Htx Hn Hrest Ha.
    destruct (@read_nodes (size_all l) l (le_n _) Hok s _ Hact Hl Ha eq_refl)
      as (s1 & R & M & L & T & Tr).
    rewrite (events_run l Hr), Htx in T, Tr. cbn [fst snd app] in T, Tr.
    rewrite app_nil_r in Tr.
    destruct (@step_open s1 tag rest L (moves_ahead M) Hn Hrest)
      as (s2 & S2 & M2 & L2 & T2 & Tr2).
    exists s1, s2. repeat split; auto. now rewrite Tr2, Tr, T.
  - intros l s tag closing rest Hr Hok Hact Hl Htx Hn Hcl Hstop Ha.
    destruct (@read_nodes (size_all l) l (le_n _) Hok s _ Hact Hl Ha eq_refl)
      as (s1 & R & M & L & T & Tr).
    rewrite (events_run l Hr), Htx in T, Tr. cbn [fst snd app] in T, Tr.
    rewrite app_nil_r in Tr.
    destruct (@step_close s1 tag closing rest L (moves_ahead M) Hn Hcl Hstop)
      as (s2 & S2 & M2 & L2 & T2 & Tr2).
    exists s1, s2. repeat split; auto. now rewrite Tr2, Tr, T.
  - apply run_texts_apart.
Qed.

Lemma text_run_delivered_witness :
  exists s1 s2,
    reads after_open s1 /\ trace s1 = trace after_open /\ text s1 = js "bcdef"
    /\ step s1 = Some s2 /\ text s2 = []
    /\ trace s2 = [head []; otag (js "a") []; text_ (js "bcdef"); ctag (js "a")].
Proof.
  assert (H1 : is_run run_merged = true) by (vm_compute; reflexivity).
  assert (H2 : nodes_ok run_merged = true) by (vm_compute; reflexivity).
  assert (H3 : active after_open = true) by (vm_compute; reflexivity).
  assert (H4 : loop after_open = TopLevel) by (vm_compute; reflexivity).
  assert (H5 : text after_open = []) by (vm_compute; reflexivity).
  assert (H6 : name_ok (js "a") = true) by (vm_compute; reflexivity).
  assert (H7 : none_of [c_gt] [] = true) by reflexivity.
  assert (H8 : stops_at name_stop [] = true) by reflexivity.
  assert (H9 : ahead after_open
               = print_all run_merged ++ (c_lt :: c_slash :: js "a") ++ [] ++ c_gt :: [])
    by (vm_compute; reflexivity).
  destruct (proj1 (proj2 text_run_delivered) run_merged after_open (js "a") [] []
              H1 H2 H3 H4 H5 H6 H7 H8 H9)
    as (s1 & s2 & R & Tr1 & T1 & S & T2 & Tr2).
  exists s1, s2.
  split; [exact R|]. split; [exact Tr1|].
  split; [rewrite T1; vm_compute; reflexivity|].
  split; [exact S|]. split; [exact T2|].
  rewrite Tr2. vm_compute. reflexivity.
Defined.

(** ** Attributes given more than once (C10) *)

Lemma map_get_set_same (m : Map) (k v : str) : map_get (map_set m k v) k = Some v.
Proof.
  induction m as [|[k' v'] m IH]; cbn [map_set map_get].
  - now rewrite str_eqb_refl.
  - destruct (str_eqb k' k) eqn:E; cbn [map_get]; rewrite E; [reflexivity|exact IH].
Qed.

Lemma map_get_set_other (m : Map) (k v k' : str) :
  k' <> k -> map_get (map_set m k v) k' = map_get m k'.
Proof.
  intros Hne. induction m as [|[k0 v0] m IH]; cbn [map_set map_get].
  - apply not_eq_sym in Hne. apply str_eqb_neq in Hne. now rewrite Hne.
  - destruct (str_eqb k0 k) eqn:E; cbn [map_get].
    + apply str_eqb_eq in E. subst k0.
      apply not_eq_sym in Hne. apply str_eqb_neq in Hne. now rewrite Hne.
    + destruct (str_eqb k0 k'); [reflexivity|exact IH].
Qed.

Lemma map_get_attrs_other (l : list Attr) : forall (m : Map) (k : str),
  (forall b, In b l -> a_name b <> k) ->
  map_get (attrs_map l m) k = map_get m k.
Proof.
  induction l as [|a l IH]; intros m k H; [reflexivity|].
  cbn [attrs_map fold_left]. fold (attrs_map l (map_set m (a_name a) (a_value a))).
  rewrite IH by (intros b Hb; apply H; now right).
  apply map_get_set_other. apply not_eq_sym. apply H. now left.
Qed.

(** The value of the last occurrence wins. *)
Lemma map_get_attrs_last (l1 l2 : list Attr) (a : Attr) (m : Map) :
  (forall b, In b l2 -> a_name b <> a_name a) ->
  map_get (attrs_map (l1 ++ a :: l2) m) (a_name a) = Some (a_value a).
Proof.
  intros H. unfold attrs_map. rewrite fold_left_app. cbn [fold_left].
  fold (attrs_map l1 m).
  fold (attrs_map l2 (map_set (attrs_map l1 m) (a_name a) (a_value a))).
  rewrite map_get_attrs_other by exact H. apply map_get_set_same.
Qed.

Lemma includes_keys (m : Map) (k : str) :
  includes (keys m) k = map_has m k.
Proof.
  unfold map_has. induction m as [|[k' v'] m IH]; [reflexivity|].
  cbn [keys map fst includes existsb map_get].
  destruct (str_eqb k' k) eqn:E.
  - apply str_eqb_eq in E. subst. now rewrite str_eqb_refl.
  - assert (E' : str_eqb k k' = false).
    { apply str_eqb_neq. apply str_eqb_neq in E. congruence. }
    rewrite E'. exact IH.
Qed.

Lemma keys_map_set (m : Map) (k v : str) : keys (map_set m k v) = add_key (keys m) k.
Proof.
  unfold add_key. induction m as [|[k' v'] m IH]; [reflexivity|].
  cbn [map_set keys map fst includes existsb].
  destruct (str_eqb k' k) eqn:E.
  - apply str_eqb_eq in E. subst. now rewrite str_eqb_refl.
  - assert (E' : str_eqb k k' = false).
    { apply str_eqb_neq. apply str_eqb_neq in E. congruence. }
    rewrite E'. cbn [orb keys map fst]. fold (keys (map_set m k v)). rewrite IH.
    fold (keys m). fold (includes (keys m) k).
    destruct (includes (keys m) k); reflexivity.
Qed.

Lemma keys_attrs_map (l : list Attr) : forall (m : Map),
  keys (attrs_map l m) = fold_left add_key (map a_name l) (keys m).
Proof.
  induction l as [|a l IH]; intros m; [reflexivity|].
  cbn [attrs_map fold_left map]. fold (attrs_map l (map_set m (a_name a) (a_value a))).
  now rewrite IH, keys_map_set.
Qed.

Lemma filter_filter (A : Type) (p q : A -> bool) (l : list A) :
  filter p (filter q l) = filter (fun x => q x && p x) l.
Proof.
  induction l as [|x l IH]; [reflexivity|]. cbn [filter].
  destruct (q x); cbn [filter andb]; [destruct (p x)|]; now rewrite IH.
Qed.

Lemma includes_app (ks : list str) (x y : str) :
  includes (ks ++ [x]) y = includes ks y || str_eqb y x.
Proof.
  unfold includes. rewrite existsb_app. cbn. now rewrite orb_false_r.
Qed.

Lemma fold_add_key (l : list str) : forall (ks : list str),
  fold_left add_key l ks = ks ++ filter (fun y => negb (includes ks y)) (first_names l).
Proof.
  induction l as [|x l IH]; intros ks; cbn [fold_left first_names filter].
  - now rewrite app_nil_r.
  - rewrite IH. unfold add_key. rewrite filter_filter.
    destruct (includes ks x) eqn:E; cbn [negb].
    + f_equal. apply filter_ext. intros y.
      destruct (str_eqb y x) eqn:Ey; cbn [negb andb]; [|reflexivity].
      apply str_eqb_eq in Ey. subst. now rewrite E.
    + rewrite <- app_assoc. cbn [app]. do 2 f_equal. apply filter_ext. intros y.
      rewrite includes_app, negb_orb. apply andb_comm.
Qed.

Lemma keys_attrs_first (l : list Attr) :
  keys (attrs_map l []) = first_names (map a_name l).
Proof.
  rewrite keys_attrs_map, fold_add_key. cbn [keys map app].
  rewrite <- (filter_ext (fun _ => true)) by reflexivity.
  induction (first_names (map a_name l)) as [|x r IH]; [reflexivity|].
  cbn [filter]. now rewrite IH.
Qed.

(** C10: a start tag whose attribute list gives a name more than once is
    read like any other: the read goes on, and the otag hook gets the map
    in which every name is bound to the value of its last occurrence and
    stands where it first occurred. *)
Theorem repeated_attribute
  (s : State) (tag : str) (l : list Attr) (sp rest : str) :
  active s = true -> loop s = TopLevel ->
  name_ok tag = true -> forallb attr_ok l = true -> all_of ws_chars sp = true ->
  ahead s = (c_lt :: tag) ++ print_attrs l ++ sp ++ c_gt :: rest ->
  (exists s', reads s s' /\ active s' = true /\ loop s' = TopLevel
              /\ ahead s' = rest
              /\ trace s' = trace s ++ flushed (text s) ++ [otag tag (attrs_map l [])])
  /\ (forall l1 a l2,
        l = l1 ++ a :: l2 -> (forall b, In b l2 -> a_name b <> a_name a) ->
        map_get (attrs_map l []) (a_name a) = Some (a_value a))
  /\ keys (attrs_map l []) = first_names (map a_name l).
Proof.
  intros Hact Hl Hn Hok Hsp Ha. split; [|split].
  - destruct (@read_start_tag s tag l sp rest Hact Hl Hn Hok Hsp Ha)
      as (s' & R & M & L & T & Tr).
    exists s'. repeat split; auto.
    + now rewrite (moves_active M).
    + exact (moves_ahead M).
  - intros l1 a l2 -> H. now apply map_get_attrs_last.
  - apply keys_attrs_first.
Qed.

Lemma repeated_attribute_witness :
  (exists s', reads (start doc_twice None) s' /\ active s' = true
              /\ trace s' = [head []; otag (js "a") [(js "x", js "3"); (js "y", js "2")]])
  /\ map_get (attrs_map attrs_twice []) (js "x") = Some (js "3")
  /\ keys (attrs_map attrs_twice []) = [js "x"; js "y"].
Proof.
  assert (H1 : active (start doc_twice None) = true) by (vm_compute; reflexivity).
  assert (H2 : loop (start doc_twice None) = TopLevel) by (vm_compute; reflexivity).
  assert (H3 : name_ok (js "a") = true) by (vm_compute; reflexivity).
  assert (H4 : forallb attr_ok attrs_twice = true) by (vm_compute; reflexivity).
  assert (H5 : all_of ws_chars (js " ") = true) by (vm_compute; reflexivity).
  assert (H6 : ahead (start doc_twice None)
               = (c_lt :: js "a") ++ print_attrs attrs_twice ++ js " " ++ c_gt :: js "</a>")
    by (vm_compute; reflexivity).
  destruct (@repeated_attribute (start doc_twice None) (js "a") attrs_twice (js " ")
              (js "</a>") H1 H2 H3 H4 H5 H6) as ((s' & R & A & L & Ah & Tr) & Hlast & Hkeys).
  split; [|split].
  - exists s'. split; [exact R|]. split; [exact A|]. rewrite Tr. vm_compute. reflexivity.
  - apply (Hlast [mkAttr (js " ") (js "x") c_sq (js "1");
                  mkAttr (js " ") (js "y") c_dq (js "2")]
                 (mkAttr [c_lf] (js "x") c_sq (js "3")) []); [reflexivity|].
    intros b [].
  - rewrite Hkeys. vm_compute. reflexivity.
Defined.

(* ================================================================== *)
(** * Part III. Further properties                                    *)
(* ================================================================== *)

(** Close a goal on known inputs by evaluation. *)
Ltac by_eval := vm_compute; first [reflexivity | discriminate].

(** ** References *)

(** A greedy run that no shorter run can save. *)
Lemma star_none_of_stuck (cs : list char) (k : cont) (rest : str) :
  stops_at cs rest = true ->
  forall xs fuel,
    none_of cs xs = true ->
    (forall i, i <= length xs -> k (skipn i xs ++ rest) = None) ->
    star_greedy (rx_match (NoneOf cs)) fuel (xs ++ rest) k = None.
Proof.
  intros Hstop. induction xs as [|c xs IH]; intros fuel Hrun Hk.
  - pose proof (Hk 0 (le_n _)) as H0. cbn [skipn app] in *.
    destruct fuel as [|f]; [exact H0|]. cbn [star_greedy rx_match].
    destruct rest as [|c r]; [exact H0|]. cbn [stops_at] in Hstop. now rewrite Hstop.
  - pose proof (Hk 0 (Nat.le_0_l _)) as H0. cbn [skipn] in H0.
    destruct fuel as [|f]; [exact H0|].
    cbn [none_of forallb] in Hrun. apply andb_true_iff in Hrun as [Hc Hrun].
    apply negb_true_iff in Hc.
    cbn [app star_greedy rx_match]. rewrite Hc. unfold progress at 1.
    replace (length (xs ++ rest) <? length (c :: xs ++ rest)) with true
      by (symmetry; apply Nat.ltb_lt; cbn; lia).
    rewrite IH; [exact H0|exact Hrun|].
    intros i Hi. apply (Hk (S i)). cbn. lia.
Qed.

Lemma plus_none_of_stuck (cs : list char) (k : cont) (xs rest : str) :
  none_of cs xs = true -> stops_at cs rest = true ->
  (forall i, 1 <= i <= length xs -> k (skipn i xs ++ rest) = None) ->
  rx_match (Plus (NoneOf cs)) (xs ++ rest) k = None.
Proof.
  intros Hrun Hstop Hk. destruct xs as [|c xs].
  - now apply plus_none_of_fail.
  - cbn [none_of forallb] in Hrun. apply andb_true_iff in Hrun as [Hc Hrun].
    apply negb_true_iff in Hc.
    unfold Plus. cbn [rx_match app]. rewrite Hc.
    apply star_none_of_stuck; auto.
    intros i Hi. apply (Hk (S i)). cbn. lia.
Qed.

Lemma none_of_skipn (cs : list char) (xs : str) (i : nat) :
  none_of cs xs = true -> none_of cs (skipn i xs) = true.
Proof.
  unfold none_of. rewrite !forallb_forall. intros H x Hx. apply H.
  rewrite <- (firstn_skipn i xs). apply in_or_app. now right.
Qed.

Lemma none_of_stops (cs : list char) (xs : str) (c : char) :
  none_of cs xs = true -> mem c cs = true -> strip [c] xs = None.
Proof.
  intros H Hc. destruct xs as [|x xs]; [reflexivity|].
  cbn [none_of forallb] in H. apply andb_true_iff in H as [Hx _].
  apply negb_true_iff in Hx. cbn [strip].
  destruct (char_eqb x c) eqn:E; [|reflexivity].
  apply char_eqb_eq in E. congruence.
Qed.

Lemma reference_match (ref rest : str) :
  ref <> [] -> none_of [c_semi] ref = true ->
  rx_match reference_rx (reference ref ++ rest) (fun r => Some r) = Some rest.
Proof.
  intros Hne Hr. unfold reference_rx, reference.
  change ((c_amp :: ref ++ [c_semi]) ++ rest) with (js "&" ++ (ref ++ [c_semi]) ++ rest).
  rewrite lit_seq_pass, rx_match_seq, <- app_assoc.
  assert (E : rx_match (Lit (js ";")) ([c_semi] ++ rest) (fun r => Some r) = Some rest)
    by reflexivity.
  rewrite plus_none_of; [exact E|exact Hne|exact Hr|reflexivity|].
  rewrite E. discriminate.
Qed.

Lemma reference_stuck (xs : str) :
  dangling xs = true ->
  rx_match reference_rx (c_amp :: xs) (fun r => Some r) = None.
Proof.
  unfold dangling. intros H. unfold reference_rx.
  change (c_amp :: xs) with (js "&" ++ xs). rewrite lit_seq_pass, rx_match_seq.
  apply orb_true_iff in H as [H|H].
  - now apply plus_none_of_fail.
  - rewrite <- (app_nil_r xs). apply plus_none_of_stuck; [exact H|reflexivity|].
    intros i _. rewrite app_nil_r, rx_match_lit.
    change (js ";") with [c_semi].
    rewrite (@none_of_stops [c_semi] (skipn i xs) c_semi); auto.
    now apply none_of_skipn.
Qed.

Lemma primary_reference (ref rest : str) :
  ref <> [] -> none_of [c_semi] ref = true ->
  rx_match PRIMARY (reference ref ++ rest) (fun r => Some r) = Some rest.
Proof.
  intros Hne Hr. unfold PRIMARY. rewrite rx_match_alt.
  change (Lit (js "&") ~> Plus (NoneOf [c_semi]) ~> Lit (js ";"))%rx with reference_rx.
  now rewrite reference_match.
Qed.

Lemma literal_reference (l : Literal) (ref rest : str) :
  ref <> [] -> none_of [c_semi] ref = true ->
  rx_match (literal_rx l) (reference ref ++ rest) (fun r => Some r) = Some rest.
Proof.
  intros Hne Hr. destruct l; cbn [literal_rx]; rewrite rx_match_alt;
    change (Lit (js "&") ~> Plus (NoneOf [c_semi]) ~> Lit (js ";"))%rx with reference_rx;
    now rewrite reference_match.
Qed.

Lemma primary_dangling (xs : str) :
  dangling xs = true -> rx_match PRIMARY (c_amp :: xs) (fun r => Some r) = None.
Proof.
  intros H. unfold PRIMARY. rewrite !rx_match_alt.
  change (Lit (js "&") ~> Plus (NoneOf [c_semi]) ~> Lit (js ";"))%rx with reference_rx.
  rewrite (@reference_stuck xs H).
  rewrite !lit_seq_fail by reflexivity.
  now rewrite plus_none_of_fail.
Qed.

Lemma literal_dangling (l : Literal) (xs : str) :
  dangling xs = true -> rx_match (literal_rx l) (c_amp :: xs) (fun r => Some r) = None.
Proof.
  intros H. destruct l; cbn [literal_rx]; rewrite !rx_match_alt;
    change (Lit (js "&") ~> Plus (NoneOf [c_semi]) ~> Lit (js ";"))%rx with reference_rx;
    rewrite (@reference_stuck xs H); rewrite ?rx_match_lit;
    now rewrite plus_none_of_fail.
Qed.

Lemma test_stuck (rx : regex) (s : State) :
  rx_match rx (ahead s) (fun r => Some r) = None ->
  regexp_test rx (src s) (pos s) = None.
Proof.
  unfold regexp_test, ahead. intros ->. now destruct (_ <? _).
Qed.

Lemma reference_length (ref : str) : length (reference ref) = length ref + 2.
Proof. unfold reference. cbn [length]. rewrite length_app. cbn. lia. Qed.

Lemma reference_nonempty (ref : str) : reference ref <> [].
Proof. discriminate. Qed.

Lemma ahead_length (s : State) (tok rest : str) :
  tok <> [] -> ahead s = tok ++ rest ->
  length (src s) - length rest = pos s + length tok.
Proof.
  unfold ahead. intros Hne Ha.
  assert (Hlen : length (src s) - pos s = length tok + length rest).
  { rewrite <- length_skipn, Ha, length_app. reflexivity. }
  assert (0 < length tok) by (destruct tok; [congruence|cbn; lia]). lia.
Qed.

(** The round that reads a reference at top level. *)
Lemma step_reference (s : State) (ref rest : str) :
  loop s = TopLevel -> ahead s = reference ref ++ rest ->
  ref <> [] -> none_of [c_semi] ref = true ->
  step s = Some (expand ref (set_pos (pos s + (length ref + 2)) s)).
Proof.
  intros Hl Ha Hne Hr.
  destruct (@test_ahead PRIMARY s (reference ref) rest (@reference_nonempty ref) Ha
              (@primary_reference ref rest Hne Hr)) as (Ht & Htok & _).
  rewrite (@ahead_length s _ _ (@reference_nonempty ref) Ha), reference_length in Ht, Htok.
  unfold step. rewrite Hl, Ht, Htok. now rewrite top_token_reference.
Qed.

(** The round that reads a reference in a literal. *)
Lemma step_reference_literal (s : State) (tag : str) (attrs : Map) (attr : str)
  (l : Literal) (ref rest : str) :
  loop s = InLiteral tag attrs attr -> lit s = Some l ->
  is_end (reference ref) (end_ s) = false ->
  ahead s = reference ref ++ rest ->
  ref <> [] -> none_of [c_semi] ref = true ->
  step s = Some (expand ref (set_pos (pos s + (length ref + 2)) s)).
Proof.
  intros Hl Hlit He Ha Hne Hr.
  destruct (@test_ahead (literal_rx l) s (reference ref) rest (@reference_nonempty ref) Ha
              (@literal_reference l ref rest Hne Hr)) as (Ht & Htok & _).
  rewrite (@ahead_length s _ _ (@reference_nonempty ref) Ha), reference_length in Ht, Htok.
  unfold step. rewrite Hl, Hlit, Ht, Htok.
  now rewrite literal_token_reference.
Qed.

Lemma is_end_reference (s : State) (ref : str) :
  short_end s = true -> is_end (reference ref) (end_ s) = false.
Proof.
  unfold short_end, is_end. destruct (end_ s) as [e|]; [|reflexivity].
  intros H. apply Nat.leb_le in H. apply str_eqb_neq. intros E.
  rewrite <- E, reference_length in H. lia.
Qed.

Lemma expand_unknown (ref : str) (s : State) :
  is_char (char_at ref 0) c_hash = false ->
  map_get PREDEFINED ref = None ->
  defs_get s ref = None ->
  expand ref s = s.
Proof.
  intros H1 H2 H3. unfold expand. rewrite H1, H2, H3. now destruct (includes _ _).
Qed.

(** X1: an undefined entity is silently ignored.  A reference [&ref;]
    whose name is not numeric, not predefined and not a key of the table
    (or read without any table) changes nothing: the round that reads it, at
    top level or in an attribute value, only moves the cursor past its
    semicolon.  The name is all that stands between the ampersand and the
    next semicolon, markup and white space included. *)
Theorem unknown_reference_is_skipped (s : State) (ref rest : str) :
  ref <> [] -> none_of [c_semi] ref = true ->
  is_char (char_at ref 0) c_hash = false ->
  map_get PREDEFINED ref = None ->
  defs_get s ref = None ->
  ahead s = reference ref ++ rest ->
  (loop s = TopLevel
   \/ exists tag attrs attr l,
        loop s = InLiteral tag attrs attr /\ lit s = Some l /\ short_end s = true) ->
  step s = Some (set_pos (pos s + (length ref + 2)) s).
Proof.
  intros Hne Hr H1 H2 H3 Ha [Hl|(tag & attrs & attr & l & Hl & Hlit & He)].
  - rewrite (@step_reference s ref rest Hl Ha Hne Hr).
    now rewrite expand_unknown.
  - rewrite (@step_reference_literal s tag attrs attr l ref rest Hl Hlit
               (@is_end_reference s ref He) Ha Hne Hr).
    now rewrite expand_unknown.
Qed.

Lemma unknown_reference_is_skipped_witness :
  step at_unknown = Some (set_pos (pos at_unknown + (length (js "nbsp") + 2)) at_unknown).
Proof.
  apply (@unknown_reference_is_skipped at_unknown (js "nbsp") (js "</a>"));
    try by_eval. left. by_eval.
Defined.

Lemma predefined_cases (ref c : str) :
  map_get PREDEFINED ref = Some c ->
  ref <> [] /\ none_of [c_semi] ref = true /\ is_char (char_at ref 0) c_hash = false.
Proof.
  unfold PREDEFINED. cbn [map_get].
  repeat (destruct (str_eqb _ ref) eqn:E;
          [apply str_eqb_eq in E; subst ref; intros _;
           repeat split; (discriminate || reflexivity)|clear E]).
  discriminate.
Qed.

Lemma expand_predefined (ref c : str) (s : State) :
  map_get PREDEFINED ref = Some c -> expand ref s = set_text (text s ++ c) s.
Proof.
  intros H. destruct (@predefined_cases ref c H) as (_ & _ & Hh).
  unfold expand. now rewrite Hh, H.
Qed.

(** X2: the table is never consulted for the predefined entities.  The
    round that reads [&lt;], [&gt;], [&amp;], [&apos;] or [&quot;], at top
    level or in an attribute value, appends the predefined character to the
    text buffer and moves past the reference, whatever the table binds to
    that name and whatever names are pending. *)
Theorem predefined_reference_bypasses_table (s : State) (ref c rest : str) :
  map_get PREDEFINED ref = Some c ->
  ahead s = reference ref ++ rest ->
  (loop s = TopLevel
   \/ exists tag attrs attr l,
        loop s = InLiteral tag attrs attr /\ lit s = Some l /\ short_end s = true) ->
  step s = Some (set_text (text s ++ c) (set_pos (pos s + (length ref + 2)) s)).
Proof.
  intros Hp Ha Hloop. destruct (@predefined_cases ref c Hp) as (Hne & Hr & _).
  destruct Hloop as [Hl|(tag & attrs & attr & l & Hl & Hlit & He)].
  - rewrite (@step_reference s ref rest Hl Ha Hne Hr).
    now rewrite (@expand_predefined ref c _ Hp).
  - rewrite (@step_reference_literal s tag attrs attr l ref rest Hl Hlit
               (@is_end_reference s ref He) Ha Hne Hr).
    now rewrite (@expand_predefined ref c _ Hp).
Qed.

Lemma predefined_reference_bypasses_table_witness :
  defs_get at_predefined (js "amp") = Some (js "X")
  /\ step at_predefined
     = Some (set_text (text at_predefined ++ js "&")
               (set_pos (pos at_predefined + (length (js "amp") + 2)) at_predefined)).
Proof.
  split; [by_eval|].
  apply (@predefined_reference_bypasses_table at_predefined (js "amp") (js "&") (js "</a>"));
    try by_eval. left. by_eval.
Defined.

(** X3: an ampersand that starts no reference is not a token.  When the
    text being read goes on with an ampersand that a semicolon follows at
    once, or that no semicolon follows at all, no alternative of the
    top-level or of the literal microsyntax matches: in the document the
    read ends there (and the pending text is not delivered), in a
    replacement text the frame is popped and the rest of the replacement
    text is not read. *)
Theorem dangling_ampersand_stops (s : State) (xs : str) :
  ahead s = c_amp :: xs -> dangling xs = true ->
  (loop s = TopLevel
   \/ exists tag attrs attr l, loop s = InLiteral tag attrs attr /\ lit s = Some l) ->
  (stack s = [] -> step s = Some (set_active false s))
  /\ (stack s <> [] -> step s = back s).
Proof.
  intros Ha Hd Hloop.
  assert (Hs : step s = no_match s).
  { destruct Hloop as [Hl|(tag & attrs & attr & l & Hl & Hlit)]; unfold step.
    - rewrite Hl, test_stuck; [reflexivity|]. rewrite Ha. now apply primary_dangling.
    - rewrite Hl, Hlit, test_stuck; [reflexivity|]. rewrite Ha. now apply literal_dangling. }
  rewrite Hs. unfold no_match. split; intros H.
  - now rewrite H.
  - destruct (stack s); [congruence|reflexivity].
Qed.

Lemma dangling_ampersand_stops_witness :
  step at_dangling = Some (set_active false at_dangling).
Proof.
  refine (proj1 (@dangling_ampersand_stops at_dangling (js " y</a>") _ _ _) _);
    try by_eval. left. by_eval.
Defined.

(** ** Replacement texts *)

Lemma expand_named (ref v : str) (s : State) :
  is_char (char_at ref 0) c_hash = false ->
  map_get PREDEFINED ref = None ->
  includes (names s) ref = false ->
  defs_get s ref = Some v ->
  expand ref s = mkState (defs s) v 0 (Some RX_ATTR) (Some [])
                   (mkFrame (src s) (pos s) (lit s) (end_ s) :: stack s)
                   (ref :: names s) (text s) (active s) (loop s) (trace s).
Proof.
  intros H1 H2 H3 H4. unfold expand. now rewrite H1, H2, H3, H4.
Qed.

Lemma first_not (cs : list char) (xs : str) :
  xs <> [] -> none_of cs xs = true ->
  exists c xs', xs = c :: xs' /\ mem c cs = false.
Proof.
  intros Hne H. destruct xs as [|c xs']; [congruence|]. exists c, xs'.
  cbn [none_of forallb] in H. apply andb_true_iff in H as [Hc _].
  apply negb_true_iff in Hc. auto.
Qed.

(** The round that reads a run of plain text at top level. *)
Lemma step_text_exact (s : State) (xs rest : str) :
  loop s = TopLevel -> ahead s = xs ++ rest ->
  xs <> [] -> none_of [c_lt; c_amp] xs = true -> stops_at [c_lt; c_amp] rest = true ->
  step s = Some (set_text (text s ++ xs) (set_pos (pos s + length xs) s)).
Proof.
  intros Hl Ha Hne Hxs Hrest.
  destruct (@test_ahead PRIMARY s xs rest Hne Ha (@primary_text xs rest Hne Hxs Hrest))
    as (Ht & Htok & _).
  rewrite (@ahead_length s _ _ Hne Ha) in Ht, Htok.
  unfold step. rewrite Hl, Ht, Htok. f_equal.
  destruct (@first_not _ xs Hne Hxs) as (c & xs' & -> & Hc). split_mem.
  unfold top_token. cbn [char_at nth_error is_char]. now rewrite H, H0.
Qed.

Lemma rx_attr_text (xs rest : str) :
  xs <> [] -> none_of [c_amp] xs = true -> stops_at [c_amp] rest = true ->
  rx_match (literal_rx RX_ATTR) (xs ++ rest) (fun r => Some r) = Some rest.
Proof.
  intros Hne Hxs Hrest. cbn [literal_rx]. rewrite rx_match_alt.
  destruct (@first_not _ xs Hne Hxs) as (c & xs' & -> & Hc).
  pose proof Hc as Hc'. split_mem.
  rewrite lit_seq_fail by strip_none.
  apply plus_none_of; auto; discriminate.
Qed.

(** The round that reads a run of plain text of a replacement in a literal. *)
Lemma step_rx_text (s : State) (tag : str) (attrs : Map) (attr xs rest : str) :
  loop s = InLiteral tag attrs attr -> lit s = Some RX_ATTR -> end_ s = Some [] ->
  ahead s = xs ++ rest ->
  xs <> [] -> none_of [c_amp] xs = true -> stops_at [c_amp] rest = true ->
  step s = Some (set_text (text s ++ xs) (set_pos (pos s + length xs) s)).
Proof.
  intros Hl Hlit He Ha Hne Hxs Hrest.
  destruct (@test_ahead (literal_rx RX_ATTR) s xs rest Hne Ha
              (@rx_attr_text xs rest Hne Hxs Hrest)) as (Ht & Htok & _).
  rewrite (@ahead_length s _ _ Hne Ha) in Ht, Htok.
  unfold step. rewrite Hl, Hlit, Ht, Htok. f_equal.
  destruct (@first_not _ xs Hne Hxs) as (c & xs' & -> & Hc). split_mem.
  unfold literal_token. cbn [end_ set_pos is_end]. rewrite He. cbn [str_eqb].
  cbn [char_at nth_error is_char]. now rewrite H.
Qed.

(** The round at the end of the text being read. *)
Lemma step_end_of_text (s : State) :
  ahead s = [] ->
  (loop s = TopLevel
   \/ exists tag attrs attr l, loop s = InLiteral tag attrs attr /\ lit s = Some l) ->
  step s = no_match s.
Proof.
  intros Ha [Hl|(tag & attrs & attr & l & Hl & Hlit)]; unfold step.
  - rewrite Hl, test_stuck; [reflexivity|]. now rewrite Ha.
  - rewrite Hl, Hlit, test_stuck; [reflexivity|]. rewrite Ha. now destruct l.
Qed.

(** X4: a reference to plain text, at top level.  When the table binds
    the name to a replacement text without left angle and ampersand, and the
    name is not pending, the rounds that enter the replacement text, read it
    and leave it append it to the text buffer and resume just past the
    reference, with both stacks, the literal microsyntax, the delimiter and
    the hook calls as they were (an empty replacement text changes nothing
    but the cursor). *)
Theorem plain_replacement_is_appended (s : State) (ref v rest : str) :
  active s = true -> loop s = TopLevel ->
  ahead s = reference ref ++ rest ->
  ref <> [] -> none_of [c_semi] ref = true ->
  is_char (char_at ref 0) c_hash = false ->
  map_get PREDEFINED ref = None ->
  includes (names s) ref = false ->
  defs_get s ref = Some v ->
  none_of [c_lt; c_amp] v = true ->
  reads s (set_text (text s ++ v) (set_pos (pos s + (length ref + 2)) s)).
Proof.
  intros Hact Hl Ha Hne Hr H1 H2 H3 H4 Hv.
  pose proof (@step_reference s ref rest Hl Ha Hne Hr) as S1.
  rewrite expand_named with (v := v) in S1 by assumption.
  cbn [defs src pos lit end_ stack names text active loop trace set_pos] in S1.
  eapply reads_trans; [exact (@reads_step _ _ Hact S1)|].
  clear S1 Ha. destruct s as [d sr p li en st nm tx ac lo tr].
  cbn [defs src pos lit end_ stack names text active loop trace set_pos set_text] in *.
  subst ac lo.
  destruct v as [|c v'].
  - rewrite app_nil_r. apply reads_step; [reflexivity|].
    rewrite step_end_of_text; [reflexivity|reflexivity|now left].
  - eapply reads_trans.
    + apply reads_step; [reflexivity|].
      apply (@step_text_exact _ (c :: v') []); try reflexivity;
        [now rewrite app_nil_r|discriminate|exact Hv].
    + apply reads_step; [reflexivity|].
      rewrite step_end_of_text; [reflexivity| |now left].
      unfold ahead. cbn [src pos set_text set_pos Nat.add]. apply skipn_all.
Qed.

Lemma plain_replacement_is_appended_witness :
  reads at_plain
    (set_text (text at_plain ++ js "xy")
       (set_pos (pos at_plain + (length (js "e") + 2)) at_plain)).
Proof.
  apply (@plain_replacement_is_appended at_plain (js "e") (js "xy") (js "</a>"));
    by_eval.
Defined.

(** X5: a reference in an attribute value.  The replacement text is
    appended to the value as it is, left angles and both quotes included:
    as long as it holds no ampersand, nothing in it is markup and nothing in
    it ends the value; reading resumes just past the reference. *)
Theorem replacement_in_value_is_literal (s : State) (tag : str) (attrs : Map)
  (attr : str) (l : Literal) (ref v rest : str) :
  active s = true -> loop s = InLiteral tag attrs attr ->
  lit s = Some l -> short_end s = true ->
  ahead s = reference ref ++ rest ->
  ref <> [] -> none_of [c_semi] ref = true ->
  is_char (char_at ref 0) c_hash = false ->
  map_get PREDEFINED ref = None ->
  includes (names s) ref = false ->
  defs_get s ref = Some v ->
  none_of [c_amp] v = true ->
  reads s (set_text (text s ++ v) (set_pos (pos s + (length ref + 2)) s)).
Proof.
  intros Hact Hl Hlit He Ha Hne Hr H1 H2 H3 H4 Hv.
  pose proof (@step_reference_literal s tag attrs attr l ref rest Hl Hlit
                (@is_end_reference s ref He) Ha Hne Hr) as S1.
  rewrite expand_named with (v := v) in S1 by assumption.
  cbn [defs src pos lit end_ stack names text active loop trace set_pos] in S1.
  eapply reads_trans; [exact (@reads_step _ _ Hact S1)|].
  clear S1 Ha He. destruct s as [d sr p li en st nm tx ac lo tr].
  cbn [defs src pos lit end_ stack names text active loop trace set_pos set_text] in *.
  subst ac lo li.
  destruct v as [|c v'].
  - rewrite app_nil_r. apply reads_step; [reflexivity|].
    rewrite step_end_of_text; [reflexivity|reflexivity|].
    right. now exists tag, attrs, attr, RX_ATTR.
  - eapply reads_trans.
    + apply reads_step; [reflexivity|].
      apply (@step_rx_text _ tag attrs attr (c :: v') []); try reflexivity;
        [now rewrite app_nil_r|discriminate|exact Hv].
    + apply reads_step; [reflexivity|].
      rewrite step_end_of_text; [reflexivity| |].
      * unfold ahead. cbn [src pos set_text set_pos Nat.add]. apply skipn_all.
      * right. now exists tag, attrs, attr, RX_ATTR.
Qed.

Lemma replacement_in_value_is_literal_witness :
  reads at_value
    (set_text (text at_value ++ value_markup)
       (set_pos (pos at_value + (length (js "e") + 2)) at_value)).
Proof.
  apply (@replacement_in_value_is_literal at_value (js "a") [] (js "b") SQ_ATTR
           (js "e") value_markup (js "'>"));
    by_eval.
Defined.

(** ** Tags that are not completed *)

Lemma attlist_no_value (nm rest : str) :
  attr_name_ok nm = true -> no_value rest = true ->
  rx_match ATTLIST (nm ++ rest) (fun r => Some r) = None.
Proof.
  intros Hn Hrest. apply attr_name_ok_first in Hn as (c & nm' & -> & Hc & Hall).
  unfold ATTLIST. rewrite !rx_match_alt.
  pose proof Hc as Hws. unfold ws_chars in Hc. split_mem.
  assert (Halt : rx_match (Opt (Lit (js "/")) ~> Lit (js ">"))
                 ((c :: nm') ++ rest) (fun r => Some r) = None).
  { unfold Opt. rewrite rx_match_seq, rx_match_alt, !rx_match_lit.
    cbn [js list_ascii_of_string map strip app]. unname_chars.
    rewrite H1. cbn [rx_match strip]. now rewrite H2. }
  rewrite Halt.
  rewrite plus_one_of_fail by (cbn [app starts_in]; exact Hws).
  rewrite rx_match_seq. apply plus_none_of_stuck; [exact Hall| |].
  - destruct rest as [|x r]; [reflexivity|]. cbn [no_value] in Hrest.
    apply andb_true_iff in Hrest as [Hx _]. cbn [stops_at]. now rewrite mem_cons, Hx.
  - intros i [_ Hi]. rewrite rx_match_seq, rx_match_lit.
    destruct (Nat.eq_dec i (length (c :: nm'))) as [->|Hlt].
    + rewrite skipn_all. cbn [app]. destruct rest as [|x r]; [reflexivity|].
      cbn [no_value] in Hrest. apply andb_true_iff in Hrest as [Hx Hq].
      apply char_eqb_eq in Hx. subst x.
      change (c_eq :: r) with (js "=" ++ r). rewrite strip_prefix.
      apply negb_true_iff in Hq. cbn [rx_match].
      destruct r as [|y r]; [reflexivity|]. cbn [starts_in] in Hq. now rewrite Hq.
    + assert (Hs : exists y ys, skipn i (c :: nm') = y :: ys).
      { destruct (skipn i (c :: nm')) as [|y ys] eqn:E; [|eauto].
        apply (f_equal (@length _)) in E. rewrite length_skipn in E.
        cbn [length] in *. lia. }
      destruct Hs as (y & ys & Hs).
      pose proof (@none_of_skipn [c_eq] (c :: nm') i Hall) as Hy. rewrite Hs in Hy.
      rewrite Hs. cbn [app]. cbn [none_of forallb] in Hy.
      apply andb_true_iff in Hy as [Hy _]. apply negb_true_iff in Hy.
      rewrite mem_cons, mem_nil, orb_false_r in Hy.
      change (js "=") with [c_eq]. cbn [strip]. now rewrite Hy.
Qed.

Lemma run_last (s s' : State) (n : nat) :
  active s = true -> step s = Some s' -> active s' = false ->
  run (S n) s = Resolved s'.
Proof.
  intros Ha Hs Hi. cbn [run]. rewrite Ha, Hs. now apply run_inactive.
Qed.

(** X6: boolean and unquoted attributes end the read.  In the attributes
    list of a tag, when what comes next is a name that the text ends after,
    or a name and an equals sign that no quote follows, no token matches:
    the read ends without the otag call of that tag and without any other
    call. *)
Theorem attribute_without_value_ends_read (s : State) (tag : str) (attrs : Map)
  (nm rest : str) (n : nat) :
  active s = true -> loop s = AttList tag attrs ->
  ahead s = nm ++ rest -> attr_name_ok nm = true -> no_value rest = true ->
  run (S n) s = Resolved (set_active false s).
Proof.
  intros Hact Hl Ha Hn Hrest. apply run_last; [exact Hact| |reflexivity].
  unfold step. rewrite Hl, test_stuck; [reflexivity|].
  rewrite Ha. now apply attlist_no_value.
Qed.

Lemma attribute_without_value_ends_read_witness :
  run 1 at_unquoted = Resolved (set_active false at_unquoted).
Proof.
  apply (@attribute_without_value_ends_read at_unquoted (js "a") [] (js "b") (js "=c>") 0);
    by_eval.
Defined.

(** X7: the text ends inside a start tag.  At the end of the text being
    read the attributes list loop ends the read whatever frames are pending
    (a replacement text that ends in an attributes list is fatal), and so
    does the literal loop when no frame is pending; the otag call of the tag
    is never made. *)
Theorem text_ends_inside_tag (s : State) (n : nat) :
  active s = true -> ahead s = [] ->
  ((exists tag attrs, loop s = AttList tag attrs)
   \/ (exists tag attrs attr l,
         loop s = InLiteral tag attrs attr /\ lit s = Some l /\ stack s = [])) ->
  run (S n) s = Resolved (set_active false s).
Proof.
  intros Hact Ha Hloop. apply run_last; [exact Hact| |reflexivity].
  destruct Hloop as [(tag & attrs & Hl)|(tag & attrs & attr & l & Hl & Hlit & Hst)].
  - unfold step. rewrite Hl, test_stuck; [reflexivity|]. now rewrite Ha.
  - rewrite step_end_of_text; [|exact Ha|right; now exists tag, attrs, attr, l].
    unfold no_match. now rewrite Hst.
Qed.

Lemma text_ends_inside_tag_witness :
  run 1 at_open_end = Resolved (set_active false at_open_end).
Proof.
  apply (@text_ends_inside_tag at_open_end 0); try by_eval.
  left. exists (js "a"), []. by_eval.
Defined.

(** ** Invariants of the read *)

Lemma steps_guarded (source : str) (d : option Map) (n : nat) : forall s s',
  guarded d s -> steps n s = Some s' -> guarded d s'.
Proof.
  induction n as [|n IH]; intros s s' G H; cbn [steps] in H.
  - now injection H as <-.
  - destruct (active s); [|discriminate].
    destruct (step s) as [s1|] eqn:Es; [|discriminate].
    apply (IH s1); [|exact H].
    refine (proj1 (@step_guarded (max_len source d + 2) (length (defs_list d)) d
                     _ _ eq_refl s s1 G Es)); [lia|].
    intros k v Hin. apply (max_len_value source) in Hin. lia.
Qed.

(** X8: the depth of the expansions.  At every round of every read the
    pending names are pairwise distinct keys of the table, so that the frame
    stack is never deeper than the table has entries. *)
Theorem expansion_depth_is_bounded (source : str) (d : option Map) (n : nat)
  (s : State) :
  steps n (start source d) = Some s ->
  NoDup (names s) /\ incl (names s) (keys (defs_list d))
  /\ length (stack s) <= length (defs_list d).
Proof.
  intros H.
  pose proof (@steps_guarded source d n _ _ (start_guarded source d) H) as G.
  pose proof G as (_ & Hnd & Hincl & Hl).
  split; [exact Hnd|]. split; [exact Hincl|].
  rewrite Hl. apply NoDup_incl_length in Hincl; [|exact Hnd].
  unfold keys in Hincl. now rewrite length_map in Hincl.
Qed.

Lemma expansion_depth_is_bounded_witness :
  NoDup (names in_cycle) /\ incl (names in_cycle) (keys (defs_list (Some defs_cycle)))
  /\ length (stack in_cycle) <= length (defs_list (Some defs_cycle)).
Proof.
  apply (@expansion_depth_is_bounded doc_cycle (Some defs_cycle) 5 in_cycle). by_eval.
Defined.

Lemma in_bounds_same (s s' : State) :
  src s' = src s -> pos s' = pos s -> stack s' = stack s ->
  in_bounds s -> in_bounds s'.
Proof. unfold in_bounds. intros -> -> ->. auto. Qed.

Lemma expand_in_bounds (ref : str) (s : State) :
  in_bounds s -> in_bounds (expand ref s).
Proof.
  intros B. unfold expand.
  repeat break_match; try (revert B; apply in_bounds_same; reflexivity).
  destruct B as [Bp Bs]. split; cbn; [lia|]. constructor; auto.
Qed.

Lemma no_match_in_bounds (s s' : State) :
  in_bounds s -> no_match s = Some s' -> in_bounds s'.
Proof.
  intros [Bp Bs] H. unfold no_match, back in H.
  destruct (stack s) as [|f rest] eqn:Es; injection H as <-.
  - split; cbn; [assumption|]. rewrite Es. constructor.
  - inversion Bs; subst. split; cbn; assumption.
Qed.

Lemma step_in_bounds (s s' : State) :
  in_bounds s -> step s = Some s' -> in_bounds s'.
Proof.
  intros B H.
  assert (Bp : forall rx p, regexp_test rx (src s) (pos s) = Some p ->
                            in_bounds (set_pos p s)).
  { intros rx p Ht. apply regexp_test_token in Ht as (_ & _ & _ & _ & Hle & _).
    destruct B as [_ Bs]. split; assumption. }
  unfold step in H. destruct (loop s).
  - destruct (regexp_test PRIMARY (src s) (pos s)) as [p|] eqn:Et;
      [|now apply (@no_match_in_bounds s)].
    injection H as <-. specialize (Bp _ _ Et). unfold top_token.
    destruct (flush_other (set_pos p s)) as (F1 & F2 & F3 & _).
    repeat break_match; try apply expand_in_bounds;
      try (revert Bp; apply in_bounds_same; cbn -[flush]; try rewrite ?F1, ?F2, ?F3;
           reflexivity).
    match goal with
    | E : indexOf _ _ _ = Some ?e |- _ =>
        pose proof (indexOf_spec (src (flush (set_pos p s))) c_gt
                      (pos (flush (set_pos p s)))) as Hi; rewrite E in Hi
    end.
    destruct Hi as (_ & Hn & _).
    assert (Hlt : n < length (src (flush (set_pos p s))))
      by (apply nth_error_Some; congruence).
    destruct Bp as [_ Bs]. split; cbn -[flush]; [lia|]. now rewrite F3.
  - destruct (regexp_test ATTLIST (src s) (pos s)) as [p|] eqn:Et; injection H as <-.
    + specialize (Bp _ _ Et). unfold attlist_token.
      repeat break_match; revert Bp; apply in_bounds_same; reflexivity.
    + revert B. apply in_bounds_same; reflexivity.
  - destruct (lit s) as [l|]; [|discriminate].
    destruct (regexp_test (literal_rx l) (src s) (pos s)) as [p|] eqn:Et;
      [|now apply (@no_match_in_bounds s)].
    injection H as <-. specialize (Bp _ _ Et). unfold literal_token.
    repeat break_match; try apply expand_in_bounds;
      revert Bp; apply in_bounds_same; reflexivity.
Qed.

(** X9: the cursor stays inside the text.  At every round of every read
    the cursor is at most the length of the text being read, and every
    saved cursor at most the length of its saved text. *)
Theorem cursor_stays_in_bounds (source : str) (d : option Map) (n : nat) (s : State) :
  steps n (start source d) = Some s ->
  pos s <= length (src s)
  /\ Forall (fun f => f_pos f <= length (f_src f)) (stack s).
Proof.
  assert (H0 : in_bounds (start source d)).
  { split; [|constructor]. cbn [start pos src]. unfold prolog_end.
    destruct (regexp_test PROLOG source 0) as [p|] eqn:E; [|lia].
    now apply regexp_test_token in E as (_ & _ & _ & _ & Hle & _). }
  revert H0. generalize (start source d). induction n as [|n IH]; intros s0 B H;
    cbn [steps] in H.
  - now injection H as <-.
  - destruct (active s0); [|discriminate].
    destruct (step s0) as [s1|] eqn:Es; [|discriminate].
    apply (IH s1); [|exact H]. now apply (@step_in_bounds s0).
Qed.

Lemma cursor_stays_in_bounds_witness :
  pos in_cycle <= length (src in_cycle)
  /\ Forall (fun f => f_pos f <= length (f_src f)) (stack in_cycle).
Proof.
  apply (@cursor_stays_in_bounds doc_cycle (Some defs_cycle) 5 in_cycle). by_eval.
Defined.

(** ** Reads that resolve, reads that reject *)

Lemma expand_cases (ref : str) (s : State) :
  (src (expand ref s) = src s /\ stack (expand ref s) = stack s
   /\ lit (expand ref s) = lit s /\ end_ (expand ref s) = end_ s
   /\ loop (expand ref s) = loop s /\ defs (expand ref s) = defs s)
  \/ (exists v, defs_get s ref = Some v
      /\ expand ref s = mkState (defs s) v 0 (Some RX_ATTR) (Some [])
                          (mkFrame (src s) (pos s) (lit s) (end_ s) :: stack s)
                          (ref :: names s) (text s) (active s) (loop s) (trace s)).
Proof.
  unfold expand. repeat break_match; try (left; repeat split; reflexivity).
  right. eauto.
Qed.

Lemma markup_free_value (d : option Map) (s : State) (ref v : str) :
  markup_free d = true -> defs s = d -> defs_get s ref = Some v ->
  none_of [c_lt] v = true.
Proof.
  unfold markup_free, defs_get. intros Hm -> Hg.
  destruct d as [m|]; [|discriminate]. cbn [defs_list] in Hm.
  apply map_get_In in Hg. rewrite forallb_forall in Hm. exact (Hm _ Hg).
Qed.

Lemma token_In (source tok rest : str) (i : nat) (c : char) :
  skipn i source = tok ++ rest -> char_at tok 0 = Some c -> In c source.
Proof.
  intros Hs H. apply nth_error_In in H.
  rewrite <- (firstn_skipn i source), Hs. apply in_or_app. right.
  apply in_or_app. now left.
Qed.

Lemma none_of_In (cs : list char) (xs : str) (c : char) :
  none_of cs xs = true -> In c xs -> mem c cs = false.
Proof.
  unfold none_of. rewrite forallb_forall. intros H Hin.
  apply negb_true_iff. now apply H.
Qed.

Lemma is_char_Some (x : option char) (c : char) : is_char x c = true -> x = Some c.
Proof.
  destruct x as [y|]; [|discriminate]. cbn. intros H. apply char_eqb_eq in H. now subst.
Qed.

Lemma frames_top_nil (cur : str) (frames : list Frame) :
  frames_top cur frames -> In c_lt cur -> frames = [].
Proof.
  destruct frames as [|f fs]; [reflexivity|]. intros [H _] Hin.
  apply (@none_of_In _ _ _ H) in Hin. discriminate.
Qed.

Lemma step_unbroken (d : option Map) (s s' : State) :
  markup_free d = true -> unbroken d s -> step s = Some s' -> unbroken d s'.
Proof.
  intros Hm [Hd U] H. unfold step in H. destruct (loop s) eqn:El.
  - destruct (regexp_test PRIMARY (src s) (pos s)) as [p|] eqn:Et.
    + injection H as <-.
      apply regexp_test_token in Et as (tok & rest & Hs & _ & _ & -> & _).
      unfold top_token.
      destruct (flush_other (set_pos p s))
        as (F1 & F2 & F3 & F4 & F5 & F6 & F7 & F8 & F9 & F10).
      cbn [src pos stack names active loop defs lit end_ set_pos] in *.
      destruct (is_char (char_at tok 0) c_lt) eqn:E0.
      * apply is_char_Some in E0. apply (@token_In _ _ _ _ _ Hs) in E0.
        apply (@frames_top_nil _ _ U) in E0.
        repeat break_match; split;
          cbn -[flush]; rewrite ?F1, ?F3, ?F6, ?F8, ?El, ?E0; cbn; auto.
      * destruct (is_char (char_at tok 0) c_amp).
        { destruct (expand_cases (slice tok 1 (-1)) (set_pos p s))
            as [(E1 & E2 & E3 & E4 & E5 & E6)|(v & Hv & ->)].
          - split; [now rewrite E6|]. rewrite E5. cbn [loop set_pos]. rewrite El.
            now rewrite E1, E2.
          - split; [exact Hd|]. cbn [loop src stack f_src set_pos]. rewrite El.
            cbn [frames_top f_src]. split; [|exact U].
            apply (@markup_free_value d (set_pos p s) _ v Hm Hd Hv). }
        split; [exact Hd|]. cbn. now rewrite El.
    + unfold no_match, back in H. destruct (stack s) as [|f fs] eqn:Es; injection H as <-.
      * split; [exact Hd|]. cbn. now rewrite El, Es.
      * split; [exact Hd|]. cbn. rewrite El. apply U.
  - destruct (regexp_test ATTLIST (src s) (pos s)) as [p|] eqn:Et; injection H as <-.
    + unfold attlist_token. repeat break_match; split; cbn; rewrite ?El, ?U; cbn; auto;
        split; auto; discriminate.
    + split; [exact Hd|]. cbn. now rewrite El.
  - destruct (lit s) as [l|] eqn:Elit; [|discriminate]. rewrite <- Elit in U.
    destruct (regexp_test (literal_rx l) (src s) (pos s)) as [p|] eqn:Et.
    + injection H as <-.
      apply regexp_test_token in Et as (tok & rest & Hs & _ & _ & -> & Hne).
      assert (Htok : tok <> []) by (apply Hne; now destruct l).
      unfold literal_token. cbn [end_ set_pos].
      destruct (is_end tok (end_ s)) eqn:Eend.
      * split; [exact Hd|]. cbn.
        destruct (stack s) as [|f fs]; [reflexivity|].
        destruct U as (_ & He & _). rewrite He in Eend. cbn in Eend.
        apply str_eqb_eq in Eend. congruence.
      * destruct (is_char (char_at tok 0) c_amp).
        { destruct (expand_cases (slice tok 1 (-1)) (set_pos p s))
            as [(E1 & E2 & E3 & E4 & E5 & E6)|(v & Hv & ->)].
          - split; [now rewrite E6|]. rewrite E5. cbn [loop set_pos]. rewrite El.
            now rewrite E2, E3, E4.
          - split; [exact Hd|]. cbn [loop lit end_ stack set_pos]. rewrite El.
            cbn [frames_lit f_lit f_end set_pos lit end_ stack].
            split; [discriminate|]. split; [reflexivity|exact U]. }
        split; [exact Hd|]. cbn. now rewrite El.
    + unfold no_match, back in H. destruct (stack s) as [|f fs] eqn:Es; injection H as <-.
      * split; [exact Hd|]. cbn. now rewrite El, Es.
      * split; [exact Hd|]. cbn. rewrite El. apply U.
Qed.

Lemma unbroken_steps (d : option Map) (s : State) :
  unbroken d s -> step s <> None.
Proof.
  intros [_ U]. unfold step. destruct (loop s).
  - destruct (regexp_test _ _ _); [discriminate|]. unfold no_match, back.
    destruct (stack s); discriminate.
  - destruct (regexp_test _ _ _); discriminate.
  - destruct (lit s) as [l|].
    2:{ exfalso. destruct (stack s); cbn [frames_lit] in U; destruct U as [U _];
        now apply U. }
    destruct (regexp_test _ _ _); [discriminate|]. unfold no_match, back.
    destruct (stack s); discriminate.
Qed.

Lemma run_unbroken (d : option Map) (n : nat) : forall s f,
  markup_free d = true -> unbroken d s -> run n s <> Rejected f.
Proof.
  induction n as [|n IH]; intros s f Hm U; cbn [run].
  - destruct (active s); discriminate.
  - destruct (active s); [|discriminate].
    destruct (step s) as [s1|] eqn:Es.
    + apply IH; [exact Hm|]. now apply (@step_unbroken d s).
    + now apply unbroken_steps in U.
Qed.

(** X10: the read never throws under a table without markup.  When no
    replacement text of the table holds a left angle, and when there is no
    table, the read resolves on every document. *)
Theorem markup_free_table_resolves (source : str) (d : option Map) :
  markup_free d = true -> exists f, fast_xml source d = Resolved f.
Proof.
  intros Hm. destruct (@fast_xml_ends source d _ (le_n _)) as [f [Hf|Hf]].
  - exists f. exact Hf.
  - exfalso. unfold fast_xml_fuel in Hf.
    refine (@run_unbroken d _ (start source d) f Hm _ Hf).
    split; [reflexivity|exact I].
Qed.

Lemma markup_free_table_resolves_witness :
  exists f, fast_xml doc_values (Some defs_values) = Resolved f.
Proof.
  apply (@markup_free_table_resolves doc_values (Some defs_values)). by_eval.
Defined.

Lemma literal_run_stop (q : char) (xs rest : str) :
  mem q [c_dq; c_sq] = true -> xs <> [] -> none_of [q; c_amp] xs = true ->
  stops_at [q; c_amp] rest = true ->
  rx_match (literal_rx (literal_of q)) (xs ++ rest) (fun r => Some r) = Some rest.
Proof.
  intros Hq Hne Hxs Hrest. destruct (@first_not _ xs Hne Hxs) as (c & xs' & -> & Hc).
  apply quote_cases in Hq as [-> | ->];
    change (literal_of c_dq) with DQ_ATTR; change (literal_of c_sq) with SQ_ATTR;
    cbn [literal_rx]; rewrite !rx_match_alt; split_mem;
    rewrite lit_seq_fail by strip_none;
    rewrite rx_match_lit;
    match goal with |- context [strip ?l ?s] =>
      replace (strip l s) with (@None str) by (symmetry; strip_none) end;
    (rewrite plus_none_of; [reflexivity|discriminate|assumption|assumption|discriminate]).
Qed.

(** The round that reads a run of plain text of an attribute value. *)
Lemma step_value_stop (s : State) (tag : str) (m : Map) (nm : str) (q : char)
  (xs rest : str) :
  loop s = InLiteral tag m nm -> lit s = Some (literal_of q) -> end_ s = Some [q] ->
  ahead s = xs ++ rest ->
  mem q [c_dq; c_sq] = true -> xs <> [] -> none_of [q; c_amp] xs = true ->
  stops_at [q; c_amp] rest = true ->
  step s = Some (set_text (text s ++ xs) (set_pos (pos s + length xs) s)).
Proof.
  intros Hl Hlit Hend Ha Hq Hne Hxs Hrest.
  destruct (@test_ahead (literal_rx (literal_of q)) s xs rest Hne Ha
              (@literal_run_stop q xs rest Hq Hne Hxs Hrest)) as (Ht & Htok & _).
  rewrite (@ahead_length s _ _ Hne Ha) in Ht, Htok.
  unfold step. rewrite Hl, Hlit, Ht, Htok. f_equal.
  destruct (@first_not _ xs Hne Hxs) as (c & xs' & -> & Hc). split_mem.
  unfold literal_token. cbn [end_ set_pos]. rewrite Hend.
  cbn [is_end str_eqb char_at nth_error is_char]. now rewrite H, H0.
Qed.

(** X11: the read throws when a replacement text stops inside an attribute
    value and no attribute value was entered before.  At top level with
    [lit] not set yet, take a reference to a replacement text made of the
    head of a start tag, white space, an attribute name, the equals sign, a
    quote and the start of a value: the tag and the attribute are entered
    inside the replacement text; at its end the frame is popped, which
    restores the unset [lit], and the next round of the literal loop throws
    on it.  The pending text is delivered before, and nothing else. *)
Theorem value_cut_by_replacement_rejects (s : State)
  (ref tag space nm : str) (q : char) (v rest : str) :
  active s = true -> loop s = TopLevel -> lit s = None ->
  ahead s = reference ref ++ rest ->
  ref <> [] -> none_of [c_semi] ref = true ->
  is_char (char_at ref 0) c_hash = false ->
  map_get PREDEFINED ref = None ->
  includes (names s) ref = false ->
  defs_get s ref = Some (c_lt :: tag ++ space ++ nm ++ c_eq :: q :: v) ->
  name_ok tag = true -> space <> [] -> all_of ws_chars space = true ->
  attr_name_ok nm = true -> mem q [c_dq; c_sq] = true ->
  none_of [q; c_amp] v = true ->
  exists s', reads s s' /\ active s' = true /\ step s' = None
             /\ trace s' = trace s ++ flushed (text s).
Proof.
  intros Hact Hl Hlit Ha Hne Hr H1 H2 H3 H4 Htag Hsp Hws Hnm Hq Hv.
  pose proof (@step_reference s ref rest Hl Ha Hne Hr) as S1.
  rewrite expand_named with (v := c_lt :: tag ++ space ++ nm ++ c_eq :: q :: v) in S1
    by assumption.
  cbn [defs src pos lit end_ stack names text active loop trace set_pos] in S1.
  rewrite Hlit, Hact, Hl in S1.
  match type of S1 with step s = Some ?x => set (s1 := x) in * end.
  (* the tag name *)
  destruct (@step_open s1 tag (space ++ nm ++ c_eq :: q :: v)) as (s2 & S2 & M2 & L2 & T2 & R2);
    [reflexivity|reflexivity|exact Htag| |].
  { destruct space as [|c sp]; [congruence|]. cbn [all_of forallb] in Hws.
    apply andb_true_iff in Hws as [Hc _]. cbn [app stops_at]. now apply ws_in_name_stop. }
  (* the white space *)
  destruct (@step_space s2 tag [] space (nm ++ c_eq :: q :: v)) as (s3 & S3 & M3 & L3 & T3 & R3);
    [exact L2|exact (moves_ahead M2)|exact Hsp|exact Hws| |].
  { destruct (@attr_name_ok_first nm Hnm) as (c & nm' & E & Hc & _). rewrite E.
    cbn [app starts_in]. rewrite mem_cons in Hc. apply orb_false_iff in Hc as [_ Hc].
    rewrite mem_cons in Hc. now apply orb_false_iff in Hc as [_ Hc]. }
  (* the attribute name and the quote *)
  destruct (@step_head s3 tag [] nm q v) as (s4 & S4 & M4 & L4 & Li4 & E4 & T4 & R4);
    [exact L3| |exact Hnm|exact Hq|].
  { rewrite (moves_ahead M3). now rewrite <- app_assoc. }
  pose proof (moves_trans M2 (moves_trans M3 M4)) as M.
  assert (A1 : active s1 = true) by reflexivity.
  assert (R14 : reads s s4).
  { eapply reads_trans; [exact (@reads_step _ _ Hact S1)|].
    eapply reads_trans; [exact (@reads_step _ _ A1 S2)|].
    assert (A2 : active s2 = true) by (rewrite (moves_active M2); exact A1).
    eapply reads_trans; [exact (@reads_step _ _ A2 S3)|].
    assert (A3 : active s3 = true) by (rewrite (moves_active M3); exact A2).
    exact (@reads_step _ _ A3 S4). }
  assert (A4 : active s4 = true) by (rewrite (moves_active M); exact A1).
  assert (Tr4 : trace s4 = trace s ++ flushed (text s)) by (rewrite R4, R3, R2; reflexivity).
  destruct M as (Msrc & Mah & _ & Mst & _ & _).
  (* the value, up to the end of the replacement text *)
  assert (R5 : exists s5, reads s4 s5 /\ active s5 = true /\ ahead s5 = []
                          /\ loop s5 = InLiteral tag [] nm /\ lit s5 = Some (literal_of q)
                          /\ stack s5 = stack s1 /\ trace s5 = trace s4).
  { destruct v as [|c v'].
    - exists s4. repeat split; auto. apply reads_refl.
    - eexists. split; [apply reads_step; [exact A4|]|].
      + apply (@step_value_stop s4 tag [] nm q (c :: v') []); auto;
          [now rewrite app_nil_r|discriminate].
      + cbn [active loop lit stack trace set_text set_pos]. repeat split; auto.
        unfold ahead in *. cbn [src pos set_text set_pos].
        rewrite Nat.add_comm, <- skipn_skipn, Mah. apply skipn_all. }
  destruct R5 as (s5 & R45 & A5 & Ah5 & L5 & Li5 & St5 & Tr5).
  (* the end of the replacement text: back to the frame, where [lit] is not set *)
  assert (S6 : step s5 = Some (mkState (defs s5) (src s) (pos s + (length ref + 2)) None
                                 (end_ s) (stack s) (tl (names s5)) (text s5) (active s5)
                                 (loop s5) (trace s5))).
  { rewrite step_end_of_text; [|exact Ah5|right; now exists tag, [], nm, (literal_of q)].
    unfold no_match, back. rewrite St5. reflexivity. }
  eexists. split.
  - eapply reads_trans; [exact R14|]. eapply reads_trans; [exact R45|].
    exact (@reads_step _ _ A5 S6).
  - cbn [active trace]. split; [exact A5|]. split; [|congruence].
    unfold step. cbn [loop lit]. now rewrite L5.
Qed.

Lemma value_cut_by_replacement_rejects_witness :
  exists s', reads at_cut s' /\ active s' = true /\ step s' = None
             /\ trace s' = trace at_cut ++ flushed (text at_cut).
Proof.
  apply (@value_cut_by_replacement_rejects at_cut (js "x") (js "d") (js " ") (js "e")
           c_dq (js "f") (js "</a>"));
    by_eval.
Defined.

(** ** The prolog of usual documents *)

Lemma PROLOG_eq : PROLOG = Star prolog_item.
Proof. reflexivity. Qed.

Lemma prolog_stop_lt (s : str) : prolog_stop s = true -> stops_at [c_lt] s = true.
Proof.
  destruct s as [|c r]; [reflexivity|]. cbn [prolog_stop stops_at].
  intros H. apply andb_true_iff in H as [H _]. now rewrite mem_cons, H.
Qed.

Lemma prolog_item_stop (s : str) (k : cont) :
  prolog_stop s = true -> rx_match prolog_item s k = None.
Proof.
  intros H. unfold prolog_item. rewrite !rx_match_alt.
  assert (E1 : strip (js "<!") s = None /\ strip (js "<?") s = None).
  { destruct s as [|c r]; [split; reflexivity|]. cbn [prolog_stop] in H.
    apply andb_true_iff in H as [Hc Hr]. apply char_eqb_eq in Hc. subst c.
    apply negb_true_iff in Hr. destruct r as [|c r]; [split; reflexivity|].
    cbn [starts_in] in Hr. split_mem.
    cbn [js list_ascii_of_string map strip]. unname_chars. eval_chars.
    now rewrite H, H0. }
  destruct E1 as [E1 E2].
  rewrite lit_seq_fail by exact E1.
  rewrite lit_seq_fail.
  2:{ destruct s as [|c0 r]; [reflexivity|].
      cbn [js list_ascii_of_string map strip] in *.
      destruct (char_eqb c0 (ch "<")); [|reflexivity].
      destruct r as [|c1 r]; [reflexivity|].
      destruct (char_eqb c1 (ch "!")); [discriminate|reflexivity]. }
  rewrite lit_seq_fail by exact E2.
  apply plus_none_of_fail. now apply prolog_stop_lt.
Qed.

Lemma prolog_star_stop (s : str) (k : cont) (fuel : nat) :
  prolog_stop s = true -> star_greedy (rx_match prolog_item) fuel s k = k s.
Proof.
  intros H. destruct fuel as [|f]; [reflexivity|]. cbn [star_greedy].
  now rewrite prolog_item_stop.
Qed.

Lemma decl_part_gt (rest : str) (k : cont) :
  rx_match decl_part (c_gt :: rest) k = None.
Proof. reflexivity. Qed.

Lemma decl_star_gt (rest : str) (k : cont) (fuel : nat) :
  star_greedy (rx_match decl_part) fuel (c_gt :: rest) k = k (c_gt :: rest).
Proof.
  destruct fuel as [|f]; [reflexivity|]. cbn [star_greedy]. now rewrite decl_part_gt.
Qed.

Lemma nested_body (t rest : str) (k : cont) :
  none_of [c_gt] t = true -> starts_in [c_dq; c_sq] t = false ->
  k rest <> None ->
  rx_match (Star (quoted c_dq <|> quoted c_sq <|> Plus (NoneOf [c_gt])) ~> Lit (js ">"))
           (t ++ c_gt :: rest) k
  = k rest.
Proof.
  intros Ht Hq Hk.
  set (inner := (quoted c_dq <|> quoted c_sq <|> Plus (NoneOf [c_gt]))%rx).
  rewrite rx_match_seq.
  set (K := fun s' => rx_match (Lit (js ">")) s' k).
  change (star_greedy (rx_match inner) (length (t ++ c_gt :: rest)) (t ++ c_gt :: rest) K
          = k rest).
  assert (HK : K (c_gt :: rest) = k rest) by reflexivity.
  assert (Hstop : forall fuel, star_greedy (rx_match inner) fuel (c_gt :: rest) K = k rest).
  { intros [|f]; [exact HK|]. cbn [star_greedy]. now rewrite HK. }
  destruct t as [|c t']; [apply Hstop|].
  cbn [app length star_greedy]. cbn [starts_in] in Hq. split_mem.
  assert (E : rx_match inner (c :: t' ++ c_gt :: rest)
                (progress (c :: t' ++ c_gt :: rest)
                   (fun s' => star_greedy (rx_match inner)
                                (length (t' ++ c_gt :: rest)) s' K))
              = k rest).
  { unfold inner. rewrite !rx_match_alt.
    unfold quoted. rewrite !lit_seq_fail by (cbn [strip]; now rewrite ?H, ?H0).
    change (c :: t' ++ c_gt :: rest) with ((c :: t') ++ c_gt :: rest) at 1.
    rewrite plus_none_of; try assumption; try discriminate; try reflexivity.
    - unfold progress.
      replace (length (c_gt :: rest) <? length (c :: t' ++ c_gt :: rest)) with true
        by (symmetry; apply Nat.ltb_lt; cbn [length]; rewrite length_app; cbn; lia).
      apply Hstop.
    - unfold progress.
      replace (length (c_gt :: rest) <? length (c :: t' ++ c_gt :: rest)) with true
        by (symmetry; apply Nat.ltb_lt; cbn [length]; rewrite length_app; cbn; lia).
      now rewrite Hstop. }
  rewrite E. destruct (k rest); [reflexivity|congruence].
Qed.

Lemma quoted_match (q : char) (t rest : str) (k : cont) :
  none_of [q] t = true -> k rest <> None ->
  rx_match (quoted q) (q :: t ++ q :: rest) k = k rest.
Proof.
  intros Ht Hk. unfold quoted.
  change (q :: t ++ q :: rest) with ([q] ++ t ++ q :: rest).
  rewrite lit_seq_pass, rx_match_seq. cbn [rx_match].
  assert (E : (fun s' => match strip [q] s' with Some s'0 => k s'0 | None => None end)
                (q :: rest) = k rest)
    by (cbn [strip]; now rewrite char_eqb_refl).
  rewrite (@star_none_of [q] _ (q :: rest)); [exact E| |now rewrite E|exact Ht|lia].
  cbn [stops_at]. now rewrite mem_cons, char_eqb_refl.
Qed.

Lemma decl_part_match (p : DeclPart) (rest : str) (k : cont) :
  part_ok p = true ->
  (is_bare p = true -> stops_at [c_lt; c_gt; c_dq; c_sq] rest = true) ->
  k rest <> None ->
  rx_match decl_part (print_part p ++ rest) k = k rest.
Proof.
  intros Hok Hb Hk. unfold decl_part. rewrite !rx_match_alt.
  destruct p as [t|q t|t]; cbn [part_ok print_part] in *.
  - apply andb_true_iff in Hok as [Hne Ht].
    assert (Hne' : t <> []) by (destruct t; [discriminate|discriminate]).
    destruct (@first_not _ t Hne' Ht) as (c & t' & E & Hc). split_mem.
    unfold quoted. rewrite !lit_seq_fail by (rewrite E; cbn [app strip]; now rewrite ?H1, ?H2).
    rewrite lit_seq_fail by (rewrite E; strip_none).
    rewrite plus_none_of; auto.
  - apply andb_true_iff in Hok as [Hq Ht].
    cbn [app]. rewrite <- app_assoc. cbn [app].
    apply quote_cases in Hq as [-> | ->].
    + rewrite quoted_match by assumption. destruct (k rest); [reflexivity|congruence].
    + unfold quoted at 1. rewrite lit_seq_fail by reflexivity.
      rewrite quoted_match by assumption. destruct (k rest); [reflexivity|congruence].
  - apply andb_true_iff in Hok as [Ht Hq]. apply negb_true_iff in Hq.
    cbn [app]. rewrite <- app_assoc. cbn [app].
    unfold quoted at 1 2. rewrite !lit_seq_fail by reflexivity.
    change (c_lt :: t ++ c_gt :: rest) with (js "<" ++ t ++ c_gt :: rest).
    rewrite lit_seq_pass, nested_body by assumption.
    destruct (k rest); [reflexivity|congruence].
Qed.

Lemma print_part_nonempty (p : DeclPart) : part_ok p = true -> print_part p <> [].
Proof. destruct p as [t|q t|t]; cbn; [destruct t|..]; discriminate. Qed.

Lemma parts_ok_cons (p : DeclPart) (l : list DeclPart) :
  parts_ok (p :: l) = true ->
  part_ok p = true /\ parts_ok l = true
  /\ (is_bare p = true -> match l with q :: _ => is_bare q = false | [] => True end).
Proof.
  unfold parts_ok. cbn [forallb bare_apart]. rewrite !andb_true_iff.
  intros ((Hi & Hl) & Ha & Hb). repeat split; auto.
  intros B. rewrite B in Ha. destruct l as [|j l]; [exact I|].
  now destruct (is_bare j).
Qed.

Lemma print_parts_stop (l : list DeclPart) (rest : str) :
  parts_ok l = true ->
  match l with q :: _ => is_bare q = false | [] => True end ->
  stops_at [c_lt; c_gt; c_dq; c_sq] (print_parts l ++ c_gt :: rest) = true.
Proof.
  destruct l as [|p l]; intros Hok Hp; [reflexivity|].
  destruct p as [t|q t|t]; [discriminate| |reflexivity].
  apply parts_ok_cons in Hok as (Hq & _). cbn [part_ok] in Hq.
  apply andb_true_iff in Hq as [Hq _].
  cbn [print_parts flat_map print_part app stops_at].
  apply quote_cases in Hq as [-> | ->]; reflexivity.
Qed.

Lemma decl_parts_match (l : list DeclPart) : forall (rest : str) (k : cont) (fuel : nat),
  parts_ok l = true -> k (c_gt :: rest) <> None ->
  length (print_parts l ++ c_gt :: rest) <= fuel ->
  star_greedy (rx_match decl_part) fuel (print_parts l ++ c_gt :: rest) k
  = k (c_gt :: rest).
Proof.
  induction l as [|p l IH]; intros rest k fuel Hok Hk Hfuel.
  - cbn [print_parts flat_map app]. apply decl_star_gt.
  - apply parts_ok_cons in Hok as (Hp & Hl & Hb).
    cbn [print_parts flat_map] in *. fold (print_parts l) in *.
    rewrite <- app_assoc in *.
    pose proof (@print_part_nonempty p Hp) as Hne.
    assert (Hlen : length (print_parts l ++ c_gt :: rest)
                   < length (print_part p ++ print_parts l ++ c_gt :: rest)).
    { rewrite (length_app (print_part p)). destruct (print_part p); [congruence|cbn; lia]. }
    destruct fuel as [|f]; [lia|]. cbn [star_greedy].
    rewrite decl_part_match; [| exact Hp | |].
    + unfold progress. apply Nat.ltb_lt in Hlen. rewrite Hlen.
      rewrite IH; [|exact Hl|exact Hk|apply Nat.ltb_lt in Hlen; lia].
      destruct (k (c_gt :: rest)); [reflexivity|congruence].
    + intros B. apply print_parts_stop; [exact Hl|exact (Hb B)].
    + unfold progress. apply Nat.ltb_lt in Hlen. rewrite Hlen.
      rewrite IH; [exact Hk|exact Hl|exact Hk|apply Nat.ltb_lt in Hlen; lia].
Qed.

Lemma prolog_item_match (i : Item) (rest : str) (k : cont) :
  item_ok i = true -> (is_blank i = true -> stops_at [c_lt] rest = true) ->
  k rest <> None ->
  rx_match prolog_item (print_item i ++ rest) k = k rest.
Proof.
  intros Hok Hb Hk. unfold prolog_item. rewrite !rx_match_alt.
  destruct i as [t|t|t]; cbn [item_ok print_item] in *.
  - apply andb_true_iff in Hok as [Hne Ht].
    assert (Hne' : t <> []) by (destruct t; [discriminate|discriminate]).
    destruct (@first_not _ t Hne' Ht) as (c & t' & E & Hc). split_mem.
    rewrite !lit_seq_fail by (rewrite E; strip_none).
    rewrite plus_none_of; auto.
  - rewrite <- !app_assoc. rewrite !lit_seq_fail by reflexivity.
    rewrite lit_seq_pass, rx_match_seq. cbn [rx_match].
    change (fun s' => match strip (js "?>") s' with Some s'0 => k s'0 | None => None end)
      with (fun s' => rx_match (Lit (js "?>")) s' k).
    rewrite (@lazy_until (js "?>") k rest Hk t); [|intros j Hj; now apply ends_first_spec|lia].
    destruct (k rest); [reflexivity|congruence].
  - rewrite <- !app_assoc. rewrite lit_seq_pass, rx_match_seq.
    change (js ">" ++ rest) with (c_gt :: rest).
    assert (E : rx_match (Star decl_part) (print_parts t ++ c_gt :: rest)
                  (fun s' => rx_match (Lit (js ">")) s' k) = k rest).
    { change (star_greedy (rx_match decl_part) (length (print_parts t ++ c_gt :: rest))
                (print_parts t ++ c_gt :: rest) (fun s' => rx_match (Lit (js ">")) s' k)
              = k rest).
      rewrite decl_parts_match; [reflexivity|exact Hok|exact Hk|lia]. }
    rewrite E. destruct (k rest); [reflexivity|congruence].
Qed.

Lemma print_item_nonempty (i : Item) : item_ok i = true -> print_item i <> [].
Proof. destruct i as [t|t|t]; cbn; [destruct t|..]; discriminate. Qed.

Lemma items_ok_cons (i : Item) (l : list Item) :
  items_ok (i :: l) = true ->
  item_ok i = true /\ items_ok l = true
  /\ (is_blank i = true -> match l with j :: _ => is_blank j = false | [] => True end).
Proof.
  unfold items_ok. cbn [forallb blanks_apart]. rewrite !andb_true_iff.
  intros ((Hi & Hl) & Ha & Hb). repeat split; auto.
  intros B. rewrite B in Ha. destruct l as [|j l]; [exact I|].
  now destruct (is_blank j).
Qed.

Lemma print_items_stop (l : list Item) (rest : str) :
  items_ok l = true -> prolog_stop rest = true ->
  match l with j :: _ => is_blank j = false | [] => True end ->
  stops_at [c_lt] (print_items l ++ rest) = true.
Proof.
  destruct l as [|j l]; intros Hok Hrest Hj.
  - now apply prolog_stop_lt.
  - destruct j; [discriminate|reflexivity|reflexivity].
Qed.

Lemma prolog_items_match (l : list Item) : forall (rest : str) (fuel : nat),
  items_ok l = true -> prolog_stop rest = true ->
  length (print_items l ++ rest) <= fuel ->
  star_greedy (rx_match prolog_item) fuel (print_items l ++ rest) (fun r => Some r)
  = Some rest.
Proof.
  induction l as [|i l IH]; intros rest fuel Hok Hrest Hfuel.
  - cbn [print_items flat_map app]. now rewrite prolog_star_stop.
  - apply items_ok_cons in Hok as (Hi & Hl & Hb).
    cbn [print_items flat_map] in *. fold (print_items l) in *.
    rewrite <- app_assoc in *.
    pose proof (@print_item_nonempty i Hi) as Hne.
    assert (Hlen : length (print_items l ++ rest)
                   < length (print_item i ++ print_items l ++ rest)).
    { rewrite (length_app (print_item i)). destruct (print_item i); [congruence|cbn; lia]. }
    destruct fuel as [|f]; [lia|]. cbn [star_greedy].
    rewrite prolog_item_match; [| exact Hi | |].
    + unfold progress. apply Nat.ltb_lt in Hlen. rewrite Hlen.
      rewrite IH; [reflexivity|exact Hl|exact Hrest|]. apply Nat.ltb_lt in Hlen. lia.
    + intros B. apply print_items_stop; [exact Hl|exact Hrest|exact (Hb B)].
    + unfold progress. apply Nat.ltb_lt in Hlen. rewrite Hlen.
      rewrite IH; [discriminate|exact Hl|exact Hrest|]. apply Nat.ltb_lt in Hlen. lia.
Qed.

(** The prolog scan of a usual prolog stops at its end. *)
Lemma prolog_end_items (l : list Item) (rest : str) :
  items_ok l = true -> prolog_stop rest = true ->
  prolog_end (print_items l ++ rest) = length (print_items l).
Proof.
  intros Hok Hrest. unfold prolog_end, regexp_test.
  cbn [length Nat.ltb Nat.leb skipn]. rewrite PROLOG_eq. cbn [rx_match].
  rewrite prolog_items_match by auto. rewrite length_app. lia.
Qed.

Lemma start_items (l : list Item) (rest : str) (d : option Map) :
  items_ok l = true -> prolog_stop rest = true ->
  start (print_items l ++ rest) d
  = mkState d (print_items l ++ rest) (length (print_items l)) None None [] [] []
            true TopLevel [head (print_items l)].
Proof.
  intros Hok Hrest. unfold start. rewrite (@prolog_end_items l rest Hok Hrest).
  rewrite substring_spec by (rewrite ?length_app; lia).
  rewrite Nat.sub_0_r. cbn [skipn].
  now rewrite firstn_app, Nat.sub_diag, firstn_all, app_nil_r.
Qed.

Lemma print_all_stop (l : list Node) :
  nodes_ok l = true -> starts_with_tag l = true -> prolog_stop (print_all l) = true.
Proof.
  intros Hok Htag. destruct l as [|n l]; [discriminate|]. cbn [starts_with_tag] in Htag.
  apply nodes_ok_cons in Hok as (Hn & _).
  destruct (@print_tag_first n l [] Htag Hn) as (c & r & E & Hc).
  rewrite app_nil_r in E. rewrite E. cbn [prolog_stop starts_in].
  now rewrite char_eqb_refl, Hc.
Qed.

(** The read of a usual prolog followed by a printed tree. *)
Lemma read_document_items (items : list Item) (l : list Node) (d : option Map) :
  items_ok items = true -> nodes_ok l = true ->
  prolog_stop (print_all l) = true ->
  exists s', fast_xml (print_items items ++ print_all l) d = Resolved s'
             /\ trace s' = head (print_items items) :: fst (events_all l []).
Proof.
  intros Hitems Hok Hstop.
  pose proof (@start_items items (print_all l) d Hitems Hstop) as E0.
  remember (start (print_items items ++ print_all l) d) as s0 eqn:Es0.
  assert (A0 : ahead s0 = print_all l ++ []).
  { rewrite E0. unfold ahead. cbn [src pos].
    now rewrite skipn_app, Nat.sub_diag, skipn_all, app_nil_r. }
  assert (Act0 : active s0 = true) by (rewrite E0; reflexivity).
  assert (L0 : loop s0 = TopLevel) by (rewrite E0; reflexivity).
  destruct (@read_nodes (size_all l) l (le_n _) Hok s0 [] Act0 L0 A0 eq_refl)
    as (s1 & [n R] & M & L & T & Tr).
  assert (Hs : step s1 = Some (set_active false s1)).
  { apply step_eof; [exact L|exact (moves_ahead M)|].
    destruct M as (_ & _ & _ & -> & _). now rewrite E0. }
  exists (set_active false s1). split.
  - apply (@fast_xml_resolved _ _ (n + 1)). rewrite <- Es0.
    rewrite (@steps_run n s0 s1 1 R). cbn [run].
    rewrite (moves_active M), Hs, Act0. reflexivity.
  - cbn [trace set_active]. rewrite Tr, E0. reflexivity.
Qed.

(** X12: usual documents.  A document that is a usual prolog (text without
    left angle such as white space and a byte order mark, processing
    instructions such as the XML declaration, and declarations [<!...>]
    such as comments and document type declarations, made of text without
    angle and quote, quoted sections and nested declarations without right
    angle inside) followed by a well-formed tree that starts with a tag: the
    read resolves, the head hook gets the prolog whole, the other calls are
    exactly the calls of the tree in document order, and the tag calls are
    well nested. *)
Theorem document_with_prolog (items : list Item) (l : list Node) (d : option Map) :
  items_ok items = true -> nodes_ok l = true -> starts_with_tag l = true ->
  (exists s', fast_xml (print_items items ++ print_all l) d = Resolved s')
  /\ hooks (print_items items ++ print_all l) d
     = head (print_items items) :: fst (events_all l [])
  /\ well_nested (hooks (print_items items ++ print_all l) d) [] = true.
Proof.
  intros Hitems Hok Htag.
  destruct (@read_document_items items l d Hitems Hok (@print_all_stop l Hok Htag))
    as (s' & Hr & Htr).
  assert (Hh : hooks (print_items items ++ print_all l) d
               = head (print_items items) :: fst (events_all l [])).
  { unfold hooks. rewrite Hr. exact Htr. }
  split; [eauto|]. split; [exact Hh|].
  rewrite Hh. cbn [well_nested].
  rewrite <- (app_nil_r (fst (events_all l []))).
  now rewrite (@events_nested (size_all l) l (le_n _)).
Qed.

Lemma document_with_prolog_witness :
  hooks (print_items prolog_usual ++ print_all doc_small) None
  = head (print_items prolog_usual) :: fst (events_all doc_small [])
  /\ well_nested (hooks (print_items prolog_usual ++ print_all doc_small) None) [] = true.
Proof.
  refine (proj2 (@document_with_prolog prolog_usual doc_small None _ _ _)); by_eval.
Defined.

(** X13: a document that is a usual prolog and nothing else, the empty
    document and the documents without any left angle among them: the read
    resolves after the head call, which gets the whole document. *)
Theorem prolog_only_document (items : list Item) (d : option Map) :
  items_ok items = true ->
  (exists s', fast_xml (print_items items) d = Resolved s')
  /\ hooks (print_items items) d = [head (print_items items)].
Proof.
  intros Hitems.
  destruct (@read_document_items items [] d Hitems eq_refl eq_refl) as (s' & Hr & Htr).
  cbn [print_all flat_map] in Hr. rewrite app_nil_r in Hr.
  split; [eauto|]. unfold hooks. rewrite Hr. exact Htr.
Qed.

Lemma prolog_only_document_witness :
  hooks (print_items prolog_usual) None = [head (print_items prolog_usual)].
Proof.
  refine (proj2 (@prolog_only_document prolog_usual None _)). by_eval.
Defined.

Lemma chars_apart_app_l (l r : list Node) :
  chars_apart (l ++ r) = true -> chars_apart l = true.
Proof.
  induction l as [|n l IH]; [reflexivity|]. cbn [app chars_apart].
  rewrite !andb_true_iff. intros [Hn Hl]. split; [|now apply IH].
  destruct l as [|m l]; [now rewrite andb_false_r|exact Hn].
Qed.

Lemma nodes_ok_app_l (l r : list Node) : nodes_ok (l ++ r) = true -> nodes_ok l = true.
Proof.
  unfold nodes_ok. rewrite forallb_app, !andb_true_iff.
  intros [[Hl _] Ha]. split; [exact Hl|]. now apply chars_apart_app_l in Ha.
Qed.

Lemma events_all_app (l r : list Node) (acc : str) :
  events_all (l ++ r) acc
  = (fst (events_all l acc) ++ fst (events_all r (snd (events_all l acc))),
     snd (events_all r (snd (events_all l acc)))).
Proof.
  revert acc. induction l as [|n l IH]; intros acc.
  - cbn [app]. change (events_all [] acc) with (@nil Event, acc).
    cbn [fst snd app]. now destruct (events_all r acc).
  - cbn [app]. rewrite !events_all_cons, IH. cbn [fst snd].
    now rewrite app_assoc.
Qed.

(** X14: what follows the last tag is ignored.  Text, CDATA sections,
    comments and processing instructions that end the document add no call:
    the calls are those of the document without them. *)
Theorem tail_is_ignored (items : list Item) (l tail : list Node) (d : option Map) :
  items_ok items = true -> nodes_ok (l ++ tail) = true -> starts_with_tag l = true ->
  is_run tail = true ->
  hooks (print_items items ++ print_all (l ++ tail)) d
  = hooks (print_items items ++ print_all l) d.
Proof.
  intros Hitems Hok Htag Hrun.
  assert (Htag' : starts_with_tag (l ++ tail) = true)
    by (destruct l; [discriminate|exact Htag]).
  pose proof (@nodes_ok_app_l l tail Hok) as Hl.
  destruct (@read_document_items items (l ++ tail) d Hitems Hok
              (@print_all_stop _ Hok Htag')) as (s1 & R1 & T1).
  destruct (@read_document_items items l d Hitems Hl (@print_all_stop _ Hl Htag))
    as (s2 & R2 & T2).
  unfold hooks. rewrite R1, R2. cbn [outcome_state]. rewrite T1, T2.
  rewrite events_all_app. cbn [fst]. rewrite (@events_run tail Hrun). cbn [fst].
  now rewrite app_nil_r.
Qed.

Lemma tail_is_ignored_witness :
  hooks (print_items prolog_usual ++ print_all (doc_small ++ tail_small)) None
  = hooks (print_items prolog_usual ++ print_all doc_small) None.
Proof.
  apply (@tail_is_ignored prolog_usual doc_small tail_small None); by_eval.
Defined.

(** ** Character data with character references *)

Lemma expand_char_ref (ref v : str) (s : State) :
  char_ref_value ref = Some v -> expand ref s = set_text (text s ++ v) s.
Proof.
  unfold char_ref_value, expand. destruct (is_char (char_at ref 0) c_hash).
  - destruct (numeric_code ref) as [code|]; [|discriminate].
    destruct (valid_code_point code); [|discriminate]. now intros [= <-].
  - now intros ->.
Qed.

Lemma pieces_ok_cons (stop : list char) (p : Piece) (l : list Piece) :
  pieces_ok stop (p :: l) = true ->
  piece_ok stop p = true /\ pieces_ok stop l = true
  /\ (is_plain p = true -> match l with q :: _ => is_plain q = false | [] => True end).
Proof.
  unfold pieces_ok. cbn [forallb plain_apart]. rewrite !andb_true_iff.
  intros ((Hi & Hl) & Ha & Hb). repeat split; auto.
  intros B. rewrite B in Ha. destruct l as [|j l]; [exact I|].
  now destruct (is_plain j).
Qed.

(** X15: character data is decoded.  At top level, a sequence of plain
    texts and of predefined or numeric references with a value, up to the
    next left angle or the end of the text, is read into the text buffer as
    the plain texts and the characters the references stand for, in order;
    nothing else changes but the cursor. *)
Theorem character_data_is_decoded (l : list Piece) : forall (s : State) (rest : str),
  pieces_ok [c_lt; c_amp] l = true ->
  active s = true -> loop s = TopLevel ->
  ahead s = print_pieces l ++ rest -> stops_at [c_lt] rest = true ->
  reads s (set_text (text s ++ decode l) (set_pos (pos s + length (print_pieces l)) s)).
Proof.
  induction l as [|p l IH]; intros s rest Hok Hact Hl Ha Hrest.
  - cbn [decode print_pieces flat_map length]. rewrite app_nil_r, Nat.add_0_r.
    destruct s. apply reads_refl.
  - apply pieces_ok_cons in Hok as (Hp & Hok & Hb).
    cbn [print_pieces decode flat_map] in *. fold (print_pieces l) in *. fold (decode l).
    rewrite <- app_assoc in Ha.
    assert (S1 : step s = Some (set_text (text s ++ decode_piece p)
                                  (set_pos (pos s + length (print_piece p)) s))).
    { destruct p as [t|ref]; cbn [piece_ok print_piece decode_piece is_plain] in *.
      - apply andb_true_iff in Hp as [Hne Ht].
        apply (@step_text_exact s t (print_pieces l ++ rest)); auto.
        + destruct t; [discriminate|discriminate].
        + specialize (Hb eq_refl). destruct l as [|q l].
          * cbn [print_pieces flat_map app]. destruct rest as [|c r]; [reflexivity|].
            cbn [stops_at] in *. rewrite mem_cons in Hrest. rewrite mem_nil, orb_false_r in Hrest.
            now rewrite mem_cons, Hrest.
          * destruct q; [discriminate|reflexivity].
      - apply andb_true_iff in Hp as [Hp Hv]. apply andb_true_iff in Hp as [Hne Hr].
        destruct (char_ref_value ref) as [v|] eqn:Ev; [|discriminate].
        rewrite (@step_reference s ref (print_pieces l ++ rest) Hl Ha); auto.
        + rewrite (@expand_char_ref ref v _ Ev). now rewrite reference_length.
        + destruct ref; [discriminate|discriminate]. }
    eapply reads_trans; [exact (@reads_step _ _ Hact S1)|].
    match type of S1 with _ = Some ?x => set (s1 := x) in * end.
    assert (Ha1 : ahead s1 = print_pieces l ++ rest).
    { unfold ahead in *. cbn [src pos s1 set_text set_pos].
      now rewrite Nat.add_comm, <- skipn_skipn, Ha, skipn_app, Nat.sub_diag, skipn_all. }
    specialize (IH s1 rest Hok Hact Hl Ha1 Hrest).
    replace (set_text (text s ++ decode_piece p ++ decode l)
               (set_pos (pos s + length (print_piece p ++ print_pieces l)) s))
      with (set_text (text s1 ++ decode l) (set_pos (pos s1 + length (print_pieces l)) s1));
      [exact IH|].
    unfold set_text, set_pos. cbn [s1 defs src pos lit end_ stack names text active loop trace
                                  set_text set_pos].
    now rewrite length_app, <- app_assoc, Nat.add_assoc.
Qed.

Lemma character_data_is_decoded_witness :
  decode pieces_text = js "1 < 2 & 3"
  /\ reads at_text
       (set_text (text at_text ++ decode pieces_text)
          (set_pos (pos at_text + length (print_pieces pieces_text)) at_text)).
Proof.
  split; [by_eval|].
  apply (@character_data_is_decoded pieces_text at_text (js "</a>")); by_eval.
Defined.

Lemma value_pieces (tag : str) (attrs : Map) (attr : str) (q : char) (l : list Piece) :
  forall (s : State) (rest : str),
  mem q [c_dq; c_sq] = true -> pieces_ok [q; c_amp] l = true ->
  active s = true -> loop s = InLiteral tag attrs attr ->
  lit s = Some (literal_of q) -> end_ s = Some [q] ->
  ahead s = print_pieces l ++ q :: rest ->
  reads s (set_text (text s ++ decode l) (set_pos (pos s + length (print_pieces l)) s)).
Proof.
  induction l as [|p l IH]; intros s rest Hq Hok Hact Hl Hlit Hend Ha.
  - cbn [decode print_pieces flat_map length]. rewrite app_nil_r, Nat.add_0_r.
    destruct s. apply reads_refl.
  - apply pieces_ok_cons in Hok as (Hp & Hok & Hb).
    cbn [print_pieces decode flat_map] in *. fold (print_pieces l) in *. fold (decode l).
    rewrite <- app_assoc in Ha.
    assert (S1 : step s = Some (set_text (text s ++ decode_piece p)
                                  (set_pos (pos s + length (print_piece p)) s))).
    { destruct p as [t|ref]; cbn [piece_ok print_piece decode_piece is_plain] in *.
      - apply andb_true_iff in Hp as [Hne Ht].
        apply (@step_value_stop s tag attrs attr q t (print_pieces l ++ q :: rest)); auto.
        + destruct t; [discriminate|discriminate].
        + specialize (Hb eq_refl). destruct l as [|r l].
          * cbn [print_pieces flat_map app stops_at]. now rewrite mem_cons, char_eqb_refl.
          * destruct r; [discriminate|].
            cbn [print_pieces flat_map print_piece reference app stops_at].
            now rewrite !mem_cons, char_eqb_refl, orb_true_r.
      - apply andb_true_iff in Hp as [Hp Hv]. apply andb_true_iff in Hp as [Hne Hr].
        destruct (char_ref_value ref) as [v|] eqn:Ev; [|discriminate].
        rewrite (@step_reference_literal s tag attrs attr (literal_of q) ref
                   (print_pieces l ++ q :: rest) Hl Hlit); auto.
        + rewrite (@expand_char_ref ref v _ Ev). now rewrite reference_length.
        + apply is_end_reference. unfold short_end. now rewrite Hend.
        + destruct ref; [discriminate|discriminate]. }
    eapply reads_trans; [exact (@reads_step _ _ Hact S1)|].
    match type of S1 with _ = Some ?x => set (s1 := x) in * end.
    assert (Ha1 : ahead s1 = print_pieces l ++ q :: rest).
    { unfold ahead in *. cbn [src pos s1 set_text set_pos].
      now rewrite Nat.add_comm, <- skipn_skipn, Ha, skipn_app, Nat.sub_diag, skipn_all. }
    specialize (IH s1 rest Hq Hok Hact Hl Hlit Hend Ha1).
    replace (set_text (text s ++ decode_piece p ++ decode l)
               (set_pos (pos s + length (print_piece p ++ print_pieces l)) s))
      with (set_text (text s1 ++ decode l) (set_pos (pos s1 + length (print_pieces l)) s1));
      [exact IH|].
    unfold set_text, set_pos. cbn [s1 defs src pos lit end_ stack names text active loop trace
                                  set_text set_pos].
    now rewrite length_app, <- app_assoc, Nat.add_assoc.
Qed.

(** The round that reads the closing quote of an attribute value. *)
Lemma step_quote_exact (s : State) (tag : str) (m : Map) (nm : str) (q : char) (rest : str) :
  loop s = InLiteral tag m nm -> lit s = Some (literal_of q) -> end_ s = Some [q] ->
  ahead s = [q] ++ rest -> mem q [c_dq; c_sq] = true ->
  step s = Some (set_loop (AttList tag (map_set m nm (text s)))
                   (set_text [] (set_pos (pos s + 1) s))).
Proof.
  intros Hl Hlit Hend Ha Hq.
  assert (Hne : [q] <> []) by discriminate.
  destruct (@test_ahead (literal_rx (literal_of q)) s [q] rest Hne Ha
              (@literal_quote q rest Hq)) as (Ht & Htok & _).
  rewrite (@ahead_length s _ _ Hne Ha) in Ht, Htok. cbn [length] in Ht, Htok.
  unfold step. rewrite Hl, Hlit, Ht, Htok.
  unfold literal_token. cbn [end_ set_pos]. rewrite Hend.
  cbn [is_end]. now rewrite str_eqb_refl.
Qed.

(** X16: attribute values are decoded.  In an attribute value, after a
    sequence of plain texts (without the delimiter) and of predefined or
    numeric references with a value, up to the closing quote, the attribute
    is set to the text buffer followed by the decoded value, the buffer is
    emptied and the attributes list goes on just past the quote. *)
Theorem attribute_value_is_decoded (s : State) (tag : str) (attrs : Map) (attr : str)
  (q : char) (l : list Piece) (rest : str) :
  mem q [c_dq; c_sq] = true -> pieces_ok [q; c_amp] l = true ->
  active s = true -> loop s = InLiteral tag attrs attr ->
  lit s = Some (literal_of q) -> end_ s = Some [q] ->
  ahead s = print_pieces l ++ q :: rest ->
  reads s (set_loop (AttList tag (map_set attrs attr (text s ++ decode l)))
             (set_text [] (set_pos (pos s + length (print_pieces l) + 1) s))).
Proof.
  intros Hq Hok Hact Hl Hlit Hend Ha.
  eapply reads_trans;
    [exact (@value_pieces tag attrs attr q l s rest Hq Hok Hact Hl Hlit Hend Ha)|].
  apply reads_step; [exact Hact|].
  rewrite (@step_quote_exact _ tag attrs attr q rest); auto.
  unfold ahead in *. cbn [src pos set_text set_pos].
  now rewrite Nat.add_comm, <- skipn_skipn, Ha, skipn_app, Nat.sub_diag, skipn_all.
Qed.

Lemma attribute_value_is_decoded_witness :
  decode pieces_value = c_dq :: js "x&"
  /\ reads at_quoted
       (set_loop (AttList (js "a") (map_set [] (js "b") (text at_quoted ++ decode pieces_value)))
          (set_text [] (set_pos (pos at_quoted + length (print_pieces pieces_value) + 1)
                          at_quoted))).
Proof.
  split; [by_eval|].
  apply (@attribute_value_is_decoded at_quoted (js "a") [] (js "b") c_sq pieces_value
           (js ">")); by_eval.
Defined.

(** ** The digits of a numeric reference *)

Lemma digit_value_alnum (c : char) (v : N) :
  digit_value c = Some v ->
  (48 <= c <= 57 \/ 97 <= c <= 122 \/ 65 <= c <= 90)%N.
Proof.
  unfold digit_value.
  destruct ((48 <=? c) && (c <=? 57))%N eqn:E1.
  { apply andb_true_iff in E1 as [A B]. apply N.leb_le in A, B. lia. }
  destruct ((97 <=? c) && (c <=? 122))%N eqn:E2.
  { apply andb_true_iff in E2 as [A B]. apply N.leb_le in A, B. lia. }
  destruct ((65 <=? c) && (c <=? 90))%N eqn:E3; [|discriminate].
  apply andb_true_iff in E3 as [A B]. apply N.leb_le in A, B. lia.
Qed.

Lemma alnum_plain (c : char) :
  (48 <= c <= 57 \/ 97 <= c <= 122 \/ 65 <= c <= 90)%N ->
  StrWhiteSpaceChar c = false /\ char_eqb c (ch "+") = false
  /\ char_eqb c (ch "-") = false.
Proof.
  intros H. repeat split.
  - unfold StrWhiteSpaceChar. apply orb_false_iff. split.
    + rewrite !mem_cons, mem_nil. unfold char_eqb.
      repeat (apply orb_false_iff; split); try reflexivity; apply N.eqb_neq; lia.
    + apply andb_false_iff. left. apply N.leb_gt. lia.
  - unfold char_eqb. apply N.eqb_neq. cbn. lia.
  - unfold char_eqb. apply N.eqb_neq. cbn. lia.
Qed.

Lemma take_while_app (p : char -> bool) (ds junk : str) :
  forallb p ds = true ->
  match junk with [] => true | c :: _ => negb (p c) end = true ->
  take_while p (ds ++ junk) = ds.
Proof.
  intros Hds Hj. induction ds as [|c ds IH]; cbn [app take_while].
  - destruct junk as [|c r]; [reflexivity|]. apply negb_true_iff in Hj.
    cbn [take_while]. now rewrite Hj.
  - cbn [forallb] in Hds. apply andb_true_iff in Hds as [Hc Hds].
    rewrite Hc. f_equal. now apply IH.
Qed.

(** [parseInt] on a string that starts with a digit or a letter and not
    with the hexadecimal marker. *)
Lemma parseInt_plain (s : str) (radix R : N) :
  (radix = 0 /\ R = 10 \/ radix = 16 /\ R = 16)%N ->
  match s with c :: _ => digit_value c <> None | [] => False end ->
  hex_marked s = false ->
  parseInt s radix = match take_while (is_digit R) s with
                     | [] => None
                     | ds => Some (Z.of_N (digits_value R ds))
                     end.
Proof.
  intros HR Hc Hm. destruct s as [|c s]; [contradiction|].
  destruct (digit_value c) as [v|] eqn:Ev; [clear Hc|congruence].
  destruct (@alnum_plain c (@digit_value_alnum c v Ev)) as (Hws & Hplus & Hminus).
  unfold parseInt. cbn [drop_while]. rewrite Hws, Hplus, Hminus. cbn [orb].
  assert (E : (let '(R', S2) :=
                 match c :: s with
                 | c0 :: c1 :: S' =>
                     if (N.eqb radix 0 || N.eqb radix 16) && char_eqb c0 (ch "0")
                        && (char_eqb c1 (ch "x") || char_eqb c1 (ch "X"))
                     then (16%N, S')
                     else (if N.eqb radix 0 then 10%N else radix, c :: s)
                 | _ => (if N.eqb radix 0 then 10%N else radix, c :: s)
                 end in
               match take_while (is_digit R') S2 with
               | [] => None
               | ds => Some (1 * Z.of_N (digits_value R' ds))%Z
               end)
              = match take_while (is_digit R) (c :: s) with
                | [] => None
                | ds => Some (Z.of_N (digits_value R ds))
                end).
  { assert (HR0 : (if N.eqb radix 0 then 10%N else radix) = R)
      by (destruct HR as [[-> ->]|[-> ->]]; reflexivity).
    rewrite HR0.
    destruct s as [|c1 s'].
    - destruct (take_while _ _); [reflexivity|]. now rewrite Z.mul_1_l.
    - cbn [hex_marked] in Hm. rewrite <- andb_assoc, Hm, andb_false_r.
      destruct (take_while _ _); [reflexivity|]. now rewrite Z.mul_1_l. }
  destruct HR as [[-> ->]|[-> ->]]; exact E.
Qed.

(** [parseInt] on a string that starts with the hexadecimal marker. *)
Lemma parseInt_marked (m : char) (s : str) (radix : N) :
  (radix = 0 \/ radix = 16)%N ->
  char_eqb m (ch "x") || char_eqb m (ch "X") = true ->
  parseInt (ch "0" :: m :: s) radix
  = match take_while (is_digit 16) s with
    | [] => None
    | ds => Some (Z.of_N (digits_value 16 ds))
    end.
Proof.
  intros HR Hm. unfold parseInt.
  change (drop_while StrWhiteSpaceChar (ch "0" :: m :: s)) with (ch "0" :: m :: s).
  cbv zeta. cbv iota.
  change (char_eqb (ch "0") (ch "-")) with false.
  change (char_eqb (ch "0") (ch "+")) with false. cbn [orb]. cbv iota.
  change (char_eqb (ch "0") (ch "0")) with true. rewrite Hm.
  destruct HR as [-> | ->]; cbn [N.eqb negb andb orb Pos.eqb];
    (destruct (take_while _ _); [reflexivity|]; now rewrite Z.mul_1_l).
Qed.

Lemma digit_first (R : N) (ds junk : str) :
  ds <> [] -> forallb (is_digit R) ds = true ->
  match ds ++ junk with c :: _ => digit_value c <> None | [] => False end.
Proof.
  intros Hne H. destruct ds as [|c ds]; [congruence|]. cbn [app forallb] in *.
  apply andb_true_iff in H as [H _]. unfold is_digit in H.
  destruct (digit_value c); [discriminate|discriminate].
Qed.

Lemma decimal_not_x (c : char) : is_digit 10 c = true -> char_eqb c c_x = false.
Proof.
  unfold is_digit. destruct (digit_value c) as [v|] eqn:E; [|discriminate].
  intros Hv. apply N.ltb_lt in Hv. unfold char_eqb. apply N.eqb_neq. intros ->.
  vm_compute in E. injection E as <-. lia.
Qed.

(** X17: the digits of a numeric reference.  As long as that value is
    below 2^53 (where the double of [parseInt] is the exact integer), the
    value of [&#ds...;] is the decimal value of its leading digits [ds], and
    the value of [&#xds...;] the hexadecimal value of its leading
    hexadecimal digits: what follows the digits inside the reference is
    ignored.  The decimal form takes the marker 0x as well: [&#0xds...;] has
    the hexadecimal value of [ds]. *)
Theorem numeric_reference_digits (ds junk : str) :
  ds <> [] ->
  (forallb (is_digit 10) ds = true -> no_digit 10 junk = true ->
   hex_marked (ds ++ junk) = false ->
   (digits_value 10 ds < 2 ^ 53)%N ->
   numeric_code (c_hash :: ds ++ junk) = Some (Z.of_N (digits_value 10 ds)))
  /\ (forallb (is_digit 16) ds = true -> no_digit 16 junk = true ->
      (digits_value 16 ds < 2 ^ 53)%N ->
      (hex_marked (ds ++ junk) = false ->
       numeric_code (c_hash :: c_x :: ds ++ junk) = Some (Z.of_N (digits_value 16 ds)))
      /\ numeric_code (c_hash :: ch "0" :: c_x :: ds ++ junk)
         = Some (Z.of_N (digits_value 16 ds))).
Proof.
  intros Hne. split.
  - intros Hds Hj Hm _. unfold numeric_code.
    assert (Hx : is_char (char_at (c_hash :: ds ++ junk) 1) c_x = false).
    { destruct ds as [|c ds']; [congruence|]. cbn [app char_at nth_error is_char].
      cbn [forallb] in Hds. apply andb_true_iff in Hds as [Hc _].
      now apply decimal_not_x. }
    rewrite Hx. change 1%Z with (Z.of_nat 1). rewrite slice_from_nat. cbn [skipn].
    rewrite (@parseInt_plain (ds ++ junk) 0 10); auto.
    + rewrite take_while_app by assumption. now destruct ds.
    + now apply digit_first with (R := 10%N).
  - intros Hds Hj _. split.
    + intros Hm. unfold numeric_code.
      change (is_char (char_at (c_hash :: c_x :: ds ++ junk) 1) c_x) with true.
      cbv iota. change 2%Z with (Z.of_nat 2). rewrite slice_from_nat. cbn [skipn].
      rewrite (@parseInt_plain (ds ++ junk) 16 16); auto.
      * rewrite take_while_app by assumption. now destruct ds.
      * now apply digit_first with (R := 16%N).
    + unfold numeric_code.
      change (is_char (char_at (c_hash :: ch "0" :: c_x :: ds ++ junk) 1) c_x) with false.
      cbv iota. change 1%Z with (Z.of_nat 1). rewrite slice_from_nat. cbn [skipn].
      rewrite parseInt_marked; [|now left|reflexivity].
      rewrite take_while_app by assumption. now destruct ds.
Qed.

Lemma numeric_reference_digits_witness :
  numeric_code (c_hash :: js "38" ++ js "abc") = Some (Z.of_N (digits_value 10 (js "38")))
  /\ numeric_code (c_hash :: ch "0" :: c_x :: js "26" ++ [])
     = Some (Z.of_N (digits_value 16 (js "26"))).
Proof.
  assert (Hne38 : js "38" <> []) by by_eval.
  assert (Hne26 : js "26" <> []) by by_eval.
  split.
  - apply (proj1 (@numeric_reference_digits (js "38") (js "abc") Hne38)); by_eval.
  - refine (proj2 (proj2 (@numeric_reference_digits (js "26") [] Hne26) _ _ _));
      by_eval.
Defined.

(** ** The head call *)

(** X18: the head call.  On every document and table the first call is
    the head call, its argument is the prefix of the document that the
    prolog scan stops at, and no other head call is made. *)
Theorem head_hook_once (source : str) (d : option Map) :
  exists h tail rest,
    source = h ++ tail
    /\ h = substring source 0 (prolog_end source)
    /\ hooks source d = head h :: rest
    /\ forallb (fun e => negb (is_head e)) rest = true.
Proof.
  assert (Hp : prolog_end source <= length source).
  { unfold prolog_end. destruct (regexp_test PROLOG source 0) as [p|] eqn:E; [|lia].
    now apply regexp_test_token in E as (_ & _ & _ & _ & Hle & _). }
  destruct (@run_hooks_in_order _ (fuel_bound source d) _ (start_hooks_in_order source d))
    as (H1 & H2 & _).
  fold (fast_xml_fuel (fuel_bound source d) source d) in H1, H2.
  fold (fast_xml source d) in H1, H2. fold (hooks source d) in H1, H2.
  exists (substring source 0 (prolog_end source)), (skipn (prolog_end source) source).
  destruct (hooks source d) as [|e rest]; [discriminate|].
  cbn [hd_error] in H1. injection H1 as ->. exists rest.
  split; [|split; [reflexivity|split; [reflexivity|]]].
  - rewrite substring_spec by lia. rewrite Nat.sub_0_r. cbn [skipn].
    now rewrite firstn_skipn.
  - cbn [filter is_head] in H2. injection H2 as H2.
    clear - H2. induction rest as [|e rest IH]; [reflexivity|].
    cbn [filter forallb] in *. destruct (is_head e); [discriminate|]. now apply IH.
Qed.

(** ** A left angle that starts no token *)

Lemma primary_nameless (r : str) :
  nameless r = true -> rx_match PRIMARY (c_lt :: r) (fun x => Some x) = None.
Proof.
  intros H. unfold PRIMARY. rewrite !rx_match_alt.
  assert (Hstop : stops_at name_stop r = true).
  { destruct r as [|c r']; [reflexivity|]. cbn [nameless stops_at] in *.
    unfold name_stop. rewrite mem_cons. apply orb_true_iff in H as [H|H].
    - now rewrite H, orb_true_r.
    - apply andb_true_iff in H as [H _]. now rewrite H. }
  assert (Hb : strip (js "!") r = None /\ strip (js "?") r = None).
  { destruct r as [|c r']; [split; reflexivity|]. cbn [stops_at] in Hstop.
    cbn [js list_ascii_of_string map strip].
    destruct (char_eqb c (ch "!")) eqn:E1.
    { apply char_eqb_eq in E1. subst c. discriminate. }
    destruct (char_eqb c (ch "?")) eqn:E2.
    { apply char_eqb_eq in E2. subst c. discriminate. }
    split; reflexivity. }
  destruct Hb as [Hb Hq].
  rewrite lit_seq_fail by reflexivity.
  assert (Hl : forall l k, strip (js "!") r = None ->
                 rx_match (Lit (c_lt :: c_bang :: l)) (c_lt :: r) k = None).
  { intros l k E. rewrite rx_match_lit. cbn [strip]. unname_chars. eval_chars.
    cbn [js list_ascii_of_string map strip] in E.
    destruct r as [|c r']; [reflexivity|]. now destruct (char_eqb c (ch "!")). }
  change (js "<![") with (c_lt :: c_bang :: js "[").
  change (js "<!-") with (c_lt :: c_bang :: js "-").
  rewrite !rx_match_seq, !Hl by exact Hb.
  rewrite <- !rx_match_seq.
  rewrite lit_seq_fail.
  2:{ cbn [js list_ascii_of_string map strip] in *. eval_chars.
      destruct r as [|c r']; [reflexivity|]. now destruct (char_eqb c (ch "?")). }
  change (c_lt :: r) with (js "<" ++ r). rewrite lit_seq_pass.
  unfold Opt. rewrite rx_match_seq, rx_match_alt, !rx_match_lit. cbn [strip].
  rewrite (@plus_none_of_fail name_stop _ r Hstop).
  destruct r as [|c r']; [apply plus_none_of_fail; reflexivity|].
  cbn [js list_ascii_of_string map strip].
  destruct (char_eqb c (ch "/")) eqn:Ec.
  - cbn [nameless] in H. apply char_eqb_eq in Ec. subst c.
    change (mem (ch "/") [c_gt; c_sp; c_tab; c_cr; c_lf]) with false in H.
    cbn [orb] in H. apply andb_true_iff in H as [_ H].
    rewrite (@plus_none_of_fail name_stop _ r' H).
    apply plus_none_of_fail. reflexivity.
  - apply plus_none_of_fail. reflexivity.
Qed.

(** X19: a tag without a name is not a token.  At top level, a left angle
    that is followed by nothing, by white space, by a right angle, or by a
    slash that no name follows, matches no alternative: in the document the
    read ends there, in a replacement text the frame is popped. *)
Theorem left_angle_without_name (s : State) (r : str) :
  loop s = TopLevel -> ahead s = c_lt :: r -> nameless r = true ->
  (stack s = [] -> step s = Some (set_active false s))
  /\ (stack s <> [] -> step s = back s).
Proof.
  intros Hl Ha Hn.
  assert (Hs : step s = no_match s).
  { unfold step. rewrite Hl, test_stuck; [reflexivity|]. rewrite Ha.
    now apply primary_nameless. }
  rewrite Hs. unfold no_match. split; intros H.
  - now rewrite H.
  - destruct (stack s); [congruence|reflexivity].
Qed.

Lemma left_angle_without_name_witness :
  step at_less = Some (set_active false at_less).
Proof.
  refine (proj1 (@left_angle_without_name at_less (js " 2</a>") _ _ _) _); by_eval.
Defined.

(** ** Documents without ampersand *)

Lemma token_not_amp (s : State) (tok rest : str) :
  none_of [c_amp] (src s) = true -> skipn (pos s) (src s) = tok ++ rest ->
  is_char (char_at tok 0) c_amp = false.
Proof.
  intros Hn Hs. destruct (is_char (char_at tok 0) c_amp) eqn:E; [|reflexivity].
  apply is_char_Some in E. apply (@token_In _ _ _ _ _ Hs) in E.
  apply (@none_of_In _ _ _ Hn) in E. discriminate.
Qed.

Ltac state_fields :=
  cbn [defs src pos lit end_ stack names text active loop trace
       set_pos set_text set_active set_loop set_lit emit flush without_defs].

Lemma step_without_defs (s : State) :
  amp_free s ->
  step (without_defs s) = option_map without_defs (step s)
  /\ (forall s', step s = Some s' -> amp_free s').
Proof.
  intros [Hn Hst]. unfold step. cbn [loop src pos lit without_defs].
  destruct (loop s) eqn:El.
  - destruct (regexp_test PRIMARY (src s) (pos s)) as [p|] eqn:Et.
    + apply regexp_test_token in Et as (tok & rest & Hs & _ & _ & -> & _).
      pose proof (@token_not_amp s tok rest Hn Hs) as Ha.
      unfold top_token, flush. rewrite Ha. state_fields.
      destruct (text s); state_fields; (split;
        [cbn [option_map]; f_equal; unfold without_defs;
         repeat (break_match; state_fields); reflexivity
        |intros s' [= <-]; unfold amp_free;
         repeat (break_match; state_fields); state_fields; auto]).
    + unfold no_match. cbn [stack without_defs]. rewrite Hst. split; [reflexivity|].
      intros s' [= <-]. split; assumption.
  - destruct (regexp_test ATTLIST (src s) (pos s)) as [p|] eqn:Et.
    + unfold attlist_token. state_fields. split.
      * cbn [option_map]. f_equal. unfold without_defs.
        repeat (break_match; state_fields); reflexivity.
      * intros s' [= <-]. unfold amp_free.
        repeat (break_match; state_fields); state_fields; auto.
    + split; [reflexivity|]. intros s' [= <-]. split; assumption.
  - destruct (lit s) as [l|]; [|split; [reflexivity|discriminate]].
    destruct (regexp_test (literal_rx l) (src s) (pos s)) as [p|] eqn:Et.
    + apply regexp_test_token in Et as (tok & rest & Hs & _ & _ & -> & _).
      pose proof (@token_not_amp s tok rest Hn Hs) as Ha.
      unfold literal_token. rewrite Ha. state_fields.
      split.
      * cbn [option_map]. f_equal. unfold without_defs.
        repeat (break_match; state_fields); reflexivity.
      * intros s' [= <-]. unfold amp_free.
        repeat (break_match; state_fields); state_fields; auto.
    + unfold no_match. cbn [stack without_defs]. rewrite Hst. split; [reflexivity|].
      intros s' [= <-]. split; assumption.
Qed.

Lemma run_without_defs (n : nat) : forall s,
  amp_free s -> run n (without_defs s) = outcome_map without_defs (run n s).
Proof.
  induction n as [|n IH]; intros s A; cbn [run]; cbn [active without_defs].
  - now destruct (active s).
  - destruct (active s); [|reflexivity].
    destruct (@step_without_defs s A) as [-> Hp].
    destruct (step s) as [s'|]; [|reflexivity]. cbn [option_map].
    apply IH. now apply Hp.
Qed.

(** X20: the table is used for references only.  A document without
    ampersand is read with the same calls under any table as without a
    table, and the read resolves. *)
Theorem table_unused_without_ampersand (source : str) (d : option Map) :
  none_of [c_amp] source = true ->
  hooks source d = hooks source None
  /\ exists f, fast_xml source d = Resolved f.
Proof.
  intros Hn.
  assert (H0 : exists f0, fast_xml source None = Resolved f0).
  { destruct (@fast_xml_ends source None _ (le_n _)) as [f [Hf|Hf]]; [eauto|].
    exfalso. unfold fast_xml_fuel in Hf.
    refine (@run_unbroken None _ (start source None) f eq_refl _ Hf).
    split; [reflexivity|exact I]. }
  destruct H0 as (f0 & H0).
  assert (A : amp_free (start source d)) by (split; [exact Hn|reflexivity]).
  pose proof (@run_without_defs (fuel_bound source None) _ A) as Hr.
  change (without_defs (start source d)) with (start source None) in Hr.
  unfold fast_xml, fast_xml_fuel in H0. rewrite H0 in Hr.
  destruct (run (fuel_bound source None) (start source d)) as [f| |] eqn:E;
    try discriminate.
  cbn [outcome_map] in Hr. injection Hr as Hf.
  pose proof (@fast_xml_resolved source d _ f E) as Hd.
  split; [|eauto]. unfold hooks. rewrite Hd.
  unfold fast_xml, fast_xml_fuel. rewrite H0. cbn [outcome_state]. now rewrite Hf.
Qed.

Lemma table_unused_without_ampersand_witness :
  hooks (js "<a>b</a>") (Some defs_values) = hooks (js "<a>b</a>") None.
Proof.
  refine (proj1 (@table_unused_without_ampersand (js "<a>b</a>") (Some defs_values) _)).
  by_eval.
Defined.

(** ** Attribute names *)

(** X21: the name of an attribute is all that stands before the equals
    sign.  In the attributes list, what comes next up to an equals sign that
    a quote follows is the attribute name, white space and angles inside
    included (so an attribute without value runs into the next one); the
    round sets the delimiter and the literal microsyntax of the quote and
    enters the literal loop. *)
Theorem attribute_name_runs_to_equals (s : State) (tag : str) (attrs : Map)
  (nm : str) (q : char) (rest : str) :
  loop s = AttList tag attrs -> ahead s = nm ++ c_eq :: q :: rest ->
  attr_name_ok nm = true -> mem q [c_dq; c_sq] = true ->
  step s = Some (set_loop (InLiteral tag attrs nm)
                   (set_lit (Some (literal_of q)) (Some [q])
                      (set_pos (pos s + (length nm + 2)) s))).
Proof.
  intros Hl Ha Hn Hq.
  assert (Hne : nm ++ [c_eq; q] <> []) by now destruct nm.
  assert (Ha' : ahead s = (nm ++ [c_eq; q]) ++ rest) by now rewrite <- app_assoc.
  assert (Hm : rx_match ATTLIST ((nm ++ [c_eq; q]) ++ rest) (fun r => Some r) = Some rest)
    by (rewrite <- app_assoc; now apply attlist_head).
  destruct (@test_ahead ATTLIST s _ rest Hne Ha' Hm) as (Ht & Htok & _).
  rewrite (@ahead_length s _ _ Hne Ha'), length_app in Ht, Htok. cbn [length] in Ht, Htok.
  unfold step. rewrite Hl, Ht, Htok. f_equal. unfold attlist_token.
  assert (E1 : str_eqb (nm ++ [c_eq; q]) (js "/>") || str_eqb (nm ++ [c_eq; q]) (js ">")
               = false).
  { apply attr_name_ok_first in Hn as (c & nm' & -> & Hc & _). split_mem.
    cbn [app js list_ascii_of_string map str_eqb]. unname_chars. now rewrite H, H0. }
  rewrite E1, at_last2, at_last1, slice_drop2. cbn [is_char]. rewrite char_eqb_refl.
  unfold literal_of. apply quote_cases in Hq as [-> | ->]; reflexivity.
Qed.

Lemma attribute_name_runs_to_equals_witness :
  step at_names
  = Some (set_loop (InLiteral (js "input") [] (js "disabled name"))
            (set_lit (Some (literal_of c_sq)) (Some [c_sq])
               (set_pos (pos at_names + (length (js "disabled name") + 2)) at_names))).
Proof.
  apply (@attribute_name_runs_to_equals at_names (js "input") [] (js "disabled name")
           c_sq (js "x'>")); by_eval.
Defined.

(** ** Replacement texts with markup *)

(** X22: replacement texts are reparsed.  At top level, a reference to a
    replacement text that is a well-formed sequence of nodes makes the calls
    of these nodes, as if it were written in place of the reference (the
    text pending before it is merged with its first text); when the
    replacement text is read to its end the frame is popped and reading
    resumes just past the reference. *)
Theorem markup_replacement_is_reparsed (s : State) (ref rest : str) (l : list Node) :
  active s = true -> loop s = TopLevel ->
  ahead s = reference ref ++ rest ->
  ref <> [] -> none_of [c_semi] ref = true ->
  is_char (char_at ref 0) c_hash = false ->
  map_get PREDEFINED ref = None ->
  includes (names s) ref = false ->
  defs_get s ref = Some (print_all l) ->
  nodes_ok l = true ->
  exists s',
    reads s s' /\ active s' = true /\ loop s' = TopLevel
    /\ src s' = src s /\ pos s' = pos s + (length ref + 2)
    /\ stack s' = stack s /\ names s' = names s
    /\ text s' = snd (events_all l (text s))
    /\ trace s' = trace s ++ fst (events_all l (text s)).
Proof.
  intros Hact Hl Ha Hne Hr H1 H2 H3 H4 Hok.
  pose proof (@step_reference s ref rest Hl Ha Hne Hr) as S1.
  rewrite expand_named with (v := print_all l) in S1 by assumption.
  cbn [defs src pos lit end_ stack names text active loop trace set_pos] in S1.
  match type of S1 with step s = Some ?x => set (s1 := x) in * end.
  assert (A1 : active s1 = true) by exact Hact.
  assert (L1 : loop s1 = TopLevel) by exact Hl.
  assert (Ah1 : ahead s1 = print_all l ++ []) by (unfold ahead; cbn; now rewrite app_nil_r).
  destruct (@read_nodes (size_all l) l (le_n _) Hok s1 [] A1 L1 Ah1 eq_refl)
    as (s2 & R2 & M2 & L2 & T2 & Tr2).
  pose proof (moves_active M2) as A2. rewrite A1 in A2.
  destruct M2 as (Msrc & Mah & Mdefs & Mst & Mnm & _).
  assert (S3 : step s2 = back s2).
  { rewrite step_end_of_text; [|exact Mah|now left].
    unfold no_match. now rewrite Mst. }
  unfold back in S3. rewrite Mst in S3. cbn [s1 stack f_src f_pos f_lit f_end] in S3.
  eexists. split.
  - eapply reads_trans; [exact (@reads_step _ _ Hact S1)|].
    eapply reads_trans; [exact R2|]. exact (@reads_step _ _ A2 S3).
  - cbn [active loop src pos stack names text trace]. rewrite Mnm.
    repeat split; auto.
Qed.

Lemma markup_replacement_is_reparsed_witness :
  exists s',
    reads at_markup s' /\ active s' = true /\ loop s' = TopLevel
    /\ src s' = src at_markup /\ pos s' = pos at_markup + (length (js "c") + 2)
    /\ stack s' = stack at_markup /\ names s' = names at_markup
    /\ text s' = snd (events_all nodes_inline (text at_markup))
    /\ trace s' = trace at_markup ++ fst (events_all nodes_inline (text at_markup)).
Proof.
  apply (@markup_replacement_is_reparsed at_markup (js "c") (js "]</a>") nodes_inline);
    by_eval.
Defined.

(** ** Sections *)

Lemma primary_section (body rest : str) :
  ends_first (js "]]>") body = true ->
  rx_match PRIMARY (js "<![" ++ body ++ js "]]>" ++ rest) (fun r => Some r) = Some rest.
Proof.
  intros Hb. unfold PRIMARY. rewrite !rx_match_alt.
  rewrite lit_seq_fail by reflexivity.
  rewrite lit_seq_pass. rewrite lazy_token; [reflexivity|].
  intros i Hi. now apply ends_first_spec.
Qed.

Lemma slice_section (body : str) :
  slice (js "<![" ++ body ++ js "]]>") 9 (-3) = skipn 6 body.
Proof.
  unfold slice, rel_index. cbn [Z.ltb Z.compare].
  rewrite !length_app. cbn [js list_ascii_of_string map length].
  set (n := length body).
  replace (Z.to_nat (Z.max (Z.of_nat (3 + (n + 3)) + -3) 0)) with (n + 3) by lia.
  destruct (Nat.le_gt_cases 6 n) as [Hn|Hn].
  - replace (Nat.min (Z.to_nat 9) (3 + (n + 3))) with 9 by lia.
    replace (n + 3 - 9) with (n - 6) by lia.
    change 9 with (6 + 3). rewrite <- skipn_skipn.
    change (skipn 3 ([ch "<"; ch "!"; ch "["] ++ body ++ [ch "]"; ch "]"; ch ">"]))
      with (body ++ [ch "]"; ch "]"; ch ">"]).
    rewrite skipn_app. fold n.
    replace (6 - n) with 0 by lia.
    rewrite skipn_O, firstn_app, length_skipn. fold n.
    replace (n - 6 - (n - 6)) with 0 by lia. rewrite firstn_O, app_nil_r.
    apply firstn_all2. rewrite length_skipn. fold n. lia.
  - replace (n + 3 - Nat.min (Z.to_nat 9) (3 + (n + 3))) with 0 by lia.
    cbn [firstn]. symmetry. apply skipn_all2. fold n. lia.
Qed.

(** X23: the keyword of a CDATA section is not checked.  At top level,
    [<![body]]>] where [body] holds no []]>] is one token whatever its
    keyword: the six first characters of the body are dropped and the rest
    is appended to the text buffer as it is, which is nothing when the body
    is shorter. *)
Theorem section_keyword_is_unchecked (s : State) (body rest : str) :
  loop s = TopLevel ->
  ahead s = js "<![" ++ body ++ js "]]>" ++ rest ->
  ends_first (js "]]>") body = true ->
  step s = Some (set_text (text s ++ skipn 6 body) (set_pos (pos s + (length body + 6)) s)).
Proof.
  intros Hl Ha Hb.
  assert (Hne : js "<![" ++ body ++ js "]]>" <> []) by discriminate.
  assert (Ha' : ahead s = (js "<![" ++ body ++ js "]]>") ++ rest)
    by (rewrite Ha; now rewrite <- !app_assoc).
  assert (Hm : rx_match PRIMARY ((js "<![" ++ body ++ js "]]>") ++ rest) (fun r => Some r)
               = Some rest)
    by (rewrite <- !app_assoc; now apply primary_section).
  destruct (@test_ahead PRIMARY s _ rest Hne Ha' Hm) as (Ht & Htok & _).
  rewrite (@ahead_length s _ _ Hne Ha') in Ht, Htok.
  replace (length (js "<![" ++ body ++ js "]]>")) with (length body + 6) in Ht, Htok
    by (rewrite !length_app; cbn; lia).
  unfold step. rewrite Hl, Ht, Htok. f_equal.
  unfold top_token.
  change (is_char (char_at (js "<![" ++ body ++ js "]]>") 0) c_lt) with true.
  change (is_char (char_at (js "<![" ++ body ++ js "]]>") 1) c_slash) with false.
  change (is_char (char_at (js "<![" ++ body ++ js "]]>") 1) c_bang) with true.
  change (is_char (char_at (js "<![" ++ body ++ js "]]>") 2) c_lbrack) with true.
  cbv iota. cbn [andb]. now rewrite slice_section.
Qed.

Lemma section_keyword_is_unchecked_witness :
  step at_section
  = Some (set_text (text at_section ++ skipn 6 (js "INCLUDE[b"))
            (set_pos (pos at_section + (length (js "INCLUDE[b") + 6)) at_section)).
Proof.
  apply (@section_keyword_is_unchecked at_section (js "INCLUDE[b") (js "</a>")); by_eval.
Defined.
